(** * Shallow embedding of tbplas/builder/super.py (OrbitalSet, SuperCell)

    Numbers are [Z] (numpy int32/int64 never overflow on the sizes involved),
    index tuples are Python tuples of ints ([list Z]), hopping energies are
    complex numbers with integer parts: the code only copies and conjugates
    them, both exact operations.  A method that may raise returns the state
    at the moment the exception propagates together with [inl] result or
    [inr] exception, so that mutations done before a [raise] stay visible. *)

From Stdlib Require Import ZArith List Bool Lia Permutation Sorted.
Import ListNotations.
Open Scope Z_scope.

(** ** Basic data *)

Record cplx := Cplx { re : Z; im : Z }.

(** [complex.conjugate] *)
Definition conjugate (z : cplx) : cplx := Cplx (re z) (- im z).

Definition cplx_eqb (x y : cplx) : bool := (re x =? re y) && (im x =? im y).

(** Cell index [rn] as a 3-tuple (the result of a legal [check_rn]). *)
Definition rn_type := (Z * Z * Z)%type.

Definition rn_item (r : rn_type) (i : nat) : Z :=
  let '(a, b, c) := r in
  match i with O => a | 1%nat => b | _ => c end.

Definition rn_eqb (r s : rn_type) : bool :=
  let '(a, b, c) := r in let '(a', b', c') := s in
  (a =? a') && (b =? b') && (c =? c').

Definition rn_neg (r : rn_type) : rn_type :=
  let '(a, b, c) := r in (- a, - b, - c).

(** Index of an orbital or vacancy in primitive cell representation,
    [(ia, ib, ic, io)], a tuple of ints. *)
Definition id_pc_type := list Z.

Definition id_pc_eqb (p q : id_pc_type) : bool :=
  if list_eq_dec Z.eq_dec p q then true else false.

(** [x in lst] for tuples *)
Definition id_pc_mem (p : id_pc_type) (l : list id_pc_type) : bool :=
  existsb (id_pc_eqb p) l.

(** [x in range(d)] *)
Definition in_range (x d : Z) : bool := (0 <=? x) && (x <? d).

(** [range(d)] *)
Definition zrange (d : Z) : list Z := map Z.of_nat (seq 0 (Z.to_nat d)).

(** Exceptions raised by the module (exceptions.py) and the Python
    built-in ones that the code can propagate. *)
Inductive exc :=
| SCDimSizeError (i : nat) (dim_min : Z)
| SCLockError
| IDPCLenError (id_pc : id_pc_type)
| IDPCIndexError (i : nat) (id_pc : id_pc_type)
| IDPCVacError (id_pc : id_pc_type)
| IDSCIndexError (id_sc : Z)
| VacIDPCLenError (id_pc : id_pc_type)
| VacIDPCIndexError (i : nat) (id_pc : id_pc_type)
| SCOrbIndexError (orb : Z)
| SCHopDiagonalError (rn : rn_type) (orb : Z)
| PyValueError
| PyTypeError
| PyIndexError.

Definition res (A : Type) := (A + exc)%type.

(** ** The primitive cell (external collaborator, read only)

    One hopping term [(rn, orb_i, orb_j, energy)] is one row of [hop_ind]
    ([(ra, rb, rc, orb_i, orb_j)]) together with the matching [hop_eng]. *)
Record pc_hop := PcHop {
  hop_rn : rn_type;
  hop_orb_i : Z;
  hop_orb_j : Z;
  hop_eng : cplx
}.

Record PrimitiveCell := MkPrimitiveCell {
  num_orb : Z;
  hop_table : list pc_hop
}.

(** ** IntraHopping (base.py)

    Modelled from the spec: [IntraHopping] of base.py is not in the sources.
    The spec describes it as a mapping keyed by [(cell_offset, bra, ket)] to
    an energy; rows are kept in insertion order, a key that is already
    present has its energy overwritten.  [to_array] lists the rows
    [(rn, bra, ket)] with their energies, [num_hop] counts them and
    [remove_orbitals] drops rows that touch a removed orbital. *)
Definition hop_row := (rn_type * Z * Z * cplx)%type.

Definition IntraHopping := list hop_row.

Definition row_key_eqb (rn : rn_type) (i j : Z) (r : hop_row) : bool :=
  let '(rn', i', j', _) := r in rn_eqb rn rn' && (i =? i') && (j =? j').

Definition ih_add_hopping (m : IntraHopping) (rn : rn_type) (i j : Z)
    (e : cplx) : IntraHopping :=
  if existsb (row_key_eqb rn i j) m
  then map (fun r => if row_key_eqb rn i j r then (rn, i, j, e) else r) m
  else m ++ [(rn, i, j, e)].

Definition ih_num_hop (m : IntraHopping) : nat := length m.

Definition ih_to_array (m : IntraHopping) : list hop_row := m.

Definition ih_remove_orbitals (m : IntraHopping) (ids : list Z) : IntraHopping :=
  filter (fun r => let '(_, i, j, _) := r in
                   negb (existsb (Z.eqb i) ids || existsb (Z.eqb j) ids)) m.

(** ** OrbitalSet state *)

Record OrbitalSet := MkOrbitalSet {
  prim_cell : PrimitiveCell;
  dim : rn_type;
  pbc : bool * bool * bool;
  vacancy_list : list id_pc_type;
  hash_vac : Z;                      (* hash_dict['vac'] *)
  vac_id_pc : option (list id_pc_type);
  vac_id_sc : option (list Z);
  orb_id_pc : list id_pc_type;
  is_locked : bool
}.

Definition set_vacancy_list (s : OrbitalSet) (l : list id_pc_type) :=
  MkOrbitalSet (prim_cell s) (dim s) (pbc s) l (hash_vac s)
    (vac_id_pc s) (vac_id_sc s) (orb_id_pc s) (is_locked s).

Definition set_hash_vac (s : OrbitalSet) (h : Z) :=
  MkOrbitalSet (prim_cell s) (dim s) (pbc s) (vacancy_list s) h
    (vac_id_pc s) (vac_id_sc s) (orb_id_pc s) (is_locked s).

Definition set_arrays (s : OrbitalSet) (vpc : option (list id_pc_type))
    (vsc : option (list Z)) (opc : list id_pc_type) :=
  MkOrbitalSet (prim_cell s) (dim s) (pbc s) (vacancy_list s) (hash_vac s)
    vpc vsc opc (is_locked s).

(** [Lockable.lock] *)
Definition lock (s : OrbitalSet) :=
  MkOrbitalSet (prim_cell s) (dim s) (pbc s) (vacancy_list s) (hash_vac s)
    (vac_id_pc s) (vac_id_sc s) (orb_id_pc s) true.

Definition num_orb_pc (s : OrbitalSet) : Z := num_orb (prim_cell s).

Definition dim_item (s : OrbitalSet) (i : nat) : Z := rn_item (dim s) i.

(** [num_orb_sc] property *)
Definition num_orb_sc (s : OrbitalSet) : Z :=
  num_orb_pc s * (dim_item s 0 * dim_item s 1 * dim_item s 2)
  - Z.of_nat (length (vacancy_list s)).

(** ** Index conversion of the core module

    Modelled from the spec: the Cython module [core] is not in the sources.
    The spec (4.1) fixes the flat index as row-major over
    [(a, b, c, orbital)] with the orbital fastest; [build_orb_id_pc] lists
    the primitive-cell indices of all orbitals in that order, skipping the
    vacancies; [id_pc2sc] with a vacancy table returns [-1] for a vacancy and
    otherwise the flat id minus the number of vacancies with a smaller flat
    id (the compaction of 4.2 that skips vacancies with a binary search in
    the sorted [vac_id_sc]). *)
Definition id_pc2sc_flat (d : rn_type) (n : Z) (p : id_pc_type) : Z :=
  match p with
  | [a; b; c; o] => ((a * rn_item d 1 + b) * rn_item d 2 + c) * n + o
  | _ => 0
  end.

Definition all_id_pc (d : rn_type) (n : Z) : list id_pc_type :=
  flat_map (fun a =>
    flat_map (fun b =>
      flat_map (fun c => map (fun o => [a; b; c; o]) (zrange n))
        (zrange (rn_item d 2)))
      (zrange (rn_item d 1)))
    (zrange (rn_item d 0)).

Definition build_orb_id_pc (d : rn_type) (n : Z)
    (vac : option (list id_pc_type)) : list id_pc_type :=
  match vac with
  | None => all_id_pc d n
  | Some v => filter (fun p => negb (id_pc_mem p v)) (all_id_pc d n)
  end.

Definition build_vac_id_sc (d : rn_type) (n : Z) (vac : list id_pc_type)
    : list Z :=
  map (id_pc2sc_flat d n) vac.

Definition count_below (f : Z) (v : list Z) : Z :=
  Z.of_nat (length (filter (fun w => w <? f) v)).

Definition id_pc2sc (d : rn_type) (n : Z) (p : id_pc_type)
    (vac : option (list Z)) : Z :=
  let f := id_pc2sc_flat d n p in
  match vac with
  | None => f
  | Some v => if existsb (Z.eqb f) v then -1 else f - count_below f v
  end.

(** [np.argsort] of the flat ids, then reordering of both arrays; the flat
    ids of distinct valid vacancies are distinct, so any sorting algorithm
    gives the same permutation: insertion sort on the key. *)
Fixpoint insert_by_key {A} (x : Z * A) (l : list (Z * A)) : list (Z * A) :=
  match l with
  | [] => [x]
  | y :: l' => if fst x <=? fst y then x :: l else y :: insert_by_key x l'
  end.

Definition sort_by_key {A} (l : list (Z * A)) : list (Z * A) :=
  fold_right insert_by_key [] l.

(** ** OrbitalSet methods

    [hash] is Python's [hash] of [tuple(vacancy_list)]; it is left abstract:
    [sync_array] only compares it with the stored value. *)
Section OrbitalSetMethods.

Variable hash : list id_pc_type -> Z.

(** [_update_hash('vac')]: whether the hash changed, and the state with the
    new hash stored. *)
Definition update_hash (s : OrbitalSet) : OrbitalSet * bool :=
  let new_hash := hash (vacancy_list s) in
  if negb (hash_vac s =? new_hash) then (set_hash_vac s new_hash, true)
  else (s, false).

(** The arrays [sync_array] computes from a vacancy list. *)
Definition derive_arrays (d : rn_type) (n : Z) (vl : list id_pc_type)
    : option (list id_pc_type) * option (list Z) * list id_pc_type :=
  match vl with
  | [] => (None, None, build_orb_id_pc d n None)
  | _ =>
      let vsc := build_vac_id_sc d n vl in
      let sorted := sort_by_key (combine vsc vl) in
      let vpc' := map snd sorted in
      (Some vpc', Some (map fst sorted), build_orb_id_pc d n (Some vpc'))
  end.

Definition sync_array (force_sync : bool) (s : OrbitalSet) : OrbitalSet :=
  let '(s, to_update) := update_hash s in
  if force_sync || to_update then
    let '(vpc, vsc, opc) :=
      derive_arrays (dim s) (num_orb_pc s) (vacancy_list s) in
    set_arrays s vpc vsc opc
  else s.

(** [_check_id_pc] for a tuple *)
Definition check_id_pc (s : OrbitalSet) (p : id_pc_type) : res unit :=
  if negb (length p =? 4)%nat then inr (IDPCLenError p)
  else if negb (in_range (nth 0 p 0) (dim_item s 0)) then inr (IDPCIndexError 0 p)
  else if negb (in_range (nth 1 p 0) (dim_item s 1)) then inr (IDPCIndexError 1 p)
  else if negb (in_range (nth 2 p 0) (dim_item s 2)) then inr (IDPCIndexError 2 p)
  else if negb (in_range (nth 3 p 0) (num_orb_pc s)) then inr (IDPCIndexError 3 p)
  else inl tt.

(** [check_lock] *)
Definition check_lock (s : OrbitalSet) : res unit :=
  if is_locked s then inr SCLockError else inl tt.

(** The [for vacancy in vacancies] loop of [add_vacancies]: each vacancy is
    checked and then appended unless already present. *)
Fixpoint add_vacancies_loop (s : OrbitalSet) (vs : list id_pc_type)
    : OrbitalSet * res unit :=
  match vs with
  | [] => (s, inl tt)
  | v :: rest =>
      match check_id_pc s v with
      | inr (IDPCLenError p) => (s, inr (VacIDPCLenError p))
      | inr (IDPCIndexError i p) => (s, inr (VacIDPCIndexError i p))
      | inr e => (s, inr e)
      | inl _ =>
          let s' := if id_pc_mem v (vacancy_list s) then s
                    else set_vacancy_list s (vacancy_list s ++ [v]) in
          add_vacancies_loop s' rest
      end
  end.

Definition add_vacancies (vs : list id_pc_type) (sync force_sync : bool)
    (s : OrbitalSet) : OrbitalSet * res unit :=
  match check_lock s with
  | inr e => (s, inr e)
  | inl _ =>
      match add_vacancies_loop s vs with
      | (s', inl _) => if sync then (sync_array force_sync s', inl tt)
                       else (s', inl tt)
      | r => r
      end
  end.

(** [add_vacancy] (its [sync_array] defaults to False) *)
Definition add_vacancy (v : id_pc_type) (sync force_sync : bool)
    (s : OrbitalSet) : OrbitalSet * res unit :=
  add_vacancies [v] sync force_sync s.

(** [set_vacancies]; [None] is the default argument, on which the loop of
    [add_vacancies] raises a [TypeError] once the lock check passed. *)
Definition set_vacancies (vs : option (list id_pc_type)) (sync force_sync : bool)
    (s : OrbitalSet) : OrbitalSet * res unit :=
  let s := set_vacancy_list s [] in
  match vs with
  | Some l => add_vacancies l sync force_sync s
  | None =>
      match check_lock s with
      | inr e => (s, inr e)
      | inl _ => (s, inr PyTypeError)
      end
  end.

(** numpy indexing [a[k]] of a 1-d array, negative indices included *)
Definition np_getitem {A} (l : list A) (k : Z) : option A :=
  let n := Z.of_nat (length l) in
  if (0 <=? k) && (k <? n) then nth_error l (Z.to_nat k)
  else if (- n <=? k) && (k <? 0) then nth_error l (Z.to_nat (n + k))
  else None.

Definition orb_id_sc2pc (id_sc : Z) (s : OrbitalSet)
    : OrbitalSet * res id_pc_type :=
  let s := sync_array false s in
  match np_getitem (orb_id_pc s) id_sc with
  | Some p => (s, inl p)
  | None => (s, inr (IDSCIndexError id_sc))
  end.

Definition orb_id_pc2sc (id_pc : id_pc_type) (s : OrbitalSet)
    : OrbitalSet * res Z :=
  let s := sync_array false s in
  match check_id_pc s id_pc with
  | inr e => (s, inr e)
  | inl _ =>
      let orb_id_sc := id_pc2sc (dim s) (num_orb_pc s) id_pc (vac_id_sc s) in
      if orb_id_sc =? -1 then (s, inr (IDPCVacError id_pc))
      else (s, inl orb_id_sc)
  end.

End OrbitalSetMethods.

(** ** Construction *)

(** numpy [min] and [max] of a column; [None] stands for the [ValueError]
    numpy raises on an empty array. *)
Fixpoint list_min (l : list Z) : option Z :=
  match l with
  | [] => None
  | x :: t => match list_min t with None => Some x | Some m => Some (Z.min x m) end
  end.

Fixpoint list_max (l : list Z) : option Z :=
  match l with
  | [] => None
  | x :: t => match list_max t with None => Some x | Some m => Some (Z.max x m) end
  end.

(** [dim_min] for axis [i]: [max(abs(rn_min), abs(rn_max))] over the column
    [hop_ind[:, i]]. *)
Definition dim_min_axis (pc : PrimitiveCell) (i : nat) : option Z :=
  let col := map (fun h => rn_item (hop_rn h) i) (hop_table pc) in
  match list_min col, list_max col with
  | Some rn_min, Some rn_max => Some (Z.max (Z.abs rn_min) (Z.abs rn_max))
  | _, _ => None
  end.

(** The [for i in range(3)] loop of [OrbitalSet.__init__] checking the
    dimension. *)
Fixpoint check_dim_axes (pc : PrimitiveCell) (d : rn_type) (axes : list nat)
    : res unit :=
  match axes with
  | [] => inl tt
  | i :: rest =>
      match dim_min_axis pc i with
      | None => inr PyValueError
      | Some dmin =>
          if rn_item d i <? dmin then inr (SCDimSizeError i dmin)
          else check_dim_axes pc d rest
      end
  end.

Record SuperCell := MkSuperCell {
  sc_orbset : OrbitalSet;
  hop_modifier : IntraHopping;
  orb_pos_modifier : option nat   (* identity of the callable, None if unset *)
}.

Definition set_orbset (s : SuperCell) (o : OrbitalSet) :=
  MkSuperCell o (hop_modifier s) (orb_pos_modifier s).

Definition set_hop_modifier (s : SuperCell) (m : IntraHopping) :=
  MkSuperCell (sc_orbset s) m (orb_pos_modifier s).

Section Construction.

Variable hash : list id_pc_type -> Z.

(** [OrbitalSet.__init__] for a legal [dim] and [pbc] (3-tuples after
    [check_rn] and [check_pbc]); synchronising and locking the primitive
    cell do not touch the supercell state.  A failing constructor binds no
    object, so only the exception is returned. *)
Definition OrbitalSet_init (pc : PrimitiveCell) (d : rn_type)
    (p : bool * bool * bool) (vacancies : option (list id_pc_type))
    : res OrbitalSet :=
  match check_dim_axes pc d [0; 1; 2]%nat with
  | inr e => inr e
  | inl _ =>
      let s := MkOrbitalSet pc d p [] (hash []) None None
                 (build_orb_id_pc d (num_orb pc) None) false in
      match vacancies with
      | None => inl s
      | Some vs =>
          match add_vacancies hash vs true false s with
          | (s', inl _) => inl s'
          | (_, inr e) => inr e
          end
      end
  end.

Definition SuperCell_init (pc : PrimitiveCell) (d : rn_type)
    (p : bool * bool * bool) (vacancies : option (list id_pc_type))
    (opm : option nat) : res SuperCell :=
  match OrbitalSet_init pc d p vacancies with
  | inr e => inr e
  | inl o => inl (MkSuperCell o [] opm)
  end.

End Construction.

(** ** SuperCell mutators *)

Definition zero_rn : rn_type := (0, 0, 0).

Definition add_hopping (rn : rn_type) (orb_i orb_j : Z) (energy : cplx)
    (s : SuperCell) : SuperCell * res unit :=
  match check_lock (sc_orbset s) with
  | inr e => (s, inr e)
  | inl _ =>
      let num_orbitals := num_orb_sc (sc_orbset s) in
      if negb (in_range orb_i num_orbitals) then (s, inr (SCOrbIndexError orb_i))
      else if negb (in_range orb_j num_orbitals) then (s, inr (SCOrbIndexError orb_j))
      else if rn_eqb rn zero_rn && (orb_i =? orb_j)
      then (s, inr (SCHopDiagonalError rn orb_i))
      else (set_hop_modifier s (ih_add_hopping (hop_modifier s) rn orb_i orb_j energy),
            inl tt)
  end.

Definition set_orb_pos_modifier (opm : option nat) (s : SuperCell)
    : SuperCell * res unit :=
  match check_lock (sc_orbset s) with
  | inr e => (s, inr e)
  | inl _ => (MkSuperCell (sc_orbset s) (hop_modifier s) opm, inl tt)
  end.

(** ** Hopping builders of the core module

    Modelled from the spec: [core.build_hop], [core.split_pc_hop] and
    [core.build_hop_pbc] are not in the sources.  Following 4.3, the general
    algorithm takes every primitive-cell hopping term and every cell of the
    supercell, moves to the destination cell, wraps an axis that is
    periodic and discards the term if a free axis is left, skips a term
    whose end is a vacancy and emits it; each emitted term carries the cell
    offset [rn] of its primitive-cell term, which fixes its displacement.
    Conjugate reduction keeps the first-encountered orientation: a term is
    dropped when a kept term is its conjugate, i.e. has bra and ket swapped
    and the opposite displacement.  The fast algorithm splits the table into
    the terms that leave no free axis (the periodic-safe part), for which
    the indices are generated in closed form without vacancies, and the
    rest, which goes through the general algorithm. *)
Record hop_term := HopTerm { t_i : Z; t_j : Z; t_v : cplx; t_rn : rn_type }.

Definition pbc_item (p : bool * bool * bool) (i : nat) : bool :=
  let '(a, b, c) := p in
  match i with O => a | 1%nat => b | _ => c end.

Definition wrap_axis (x d : Z) (periodic : bool) : option Z :=
  if periodic then Some (x mod d)
  else if in_range x d then Some x else None.

Definition hop_replicas (d : rn_type) (p : bool * bool * bool) (n : Z)
    (vac : option (list Z)) (h : pc_hop) : list hop_term :=
  let r := hop_rn h in
  flat_map (fun a =>
    flat_map (fun b =>
      flat_map (fun c =>
        match wrap_axis (a + rn_item r 0) (rn_item d 0) (pbc_item p 0),
              wrap_axis (b + rn_item r 1) (rn_item d 1) (pbc_item p 1),
              wrap_axis (c + rn_item r 2) (rn_item d 2) (pbc_item p 2) with
        | Some ja, Some jb, Some jc =>
            let id_i := id_pc2sc d n [a; b; c; hop_orb_i h] vac in
            let id_j := id_pc2sc d n [ja; jb; jc; hop_orb_j h] vac in
            if (id_i =? -1) || (id_j =? -1) then []
            else [HopTerm id_i id_j (hop_eng h) r]
        | _, _, _ => []
        end)
        (zrange (rn_item d 2)))
      (zrange (rn_item d 1)))
    (zrange (rn_item d 0)).

(** [u] is the conjugate counterpart of [t] *)
Definition conj_of (u t : hop_term) : bool :=
  (t_i u =? t_j t) && (t_j u =? t_i t) && rn_eqb (t_rn u) (rn_neg (t_rn t)).

Fixpoint reduce_conj_acc (kept l : list hop_term) : list hop_term :=
  match l with
  | [] => kept
  | t :: l' =>
      if existsb (fun u => conj_of u t) kept then reduce_conj_acc kept l'
      else reduce_conj_acc (kept ++ [t]) l'
  end.

Definition reduce_conj (l : list hop_term) : list hop_term :=
  reduce_conj_acc [] l.

Definition build_hop (hops : list pc_hop) (d : rn_type) (p : bool * bool * bool)
    (n : Z) (vac : option (list Z)) : list hop_term :=
  reduce_conj (flat_map (hop_replicas d p n vac) hops).

Definition is_pbc_hop (p : bool * bool * bool) (h : pc_hop) : bool :=
  (pbc_item p 0 || (rn_item (hop_rn h) 0 =? 0)) &&
  (pbc_item p 1 || (rn_item (hop_rn h) 1 =? 0)) &&
  (pbc_item p 2 || (rn_item (hop_rn h) 2 =? 0)).

Definition split_pc_hop (hops : list pc_hop) (p : bool * bool * bool)
    : list pc_hop * list pc_hop :=
  (filter (is_pbc_hop p) hops, filter (fun h => negb (is_pbc_hop p h)) hops).

Definition pbc_shift (x r d : Z) (periodic : bool) : Z :=
  if periodic then (x + r) mod d else x + r.

Definition build_hop_pbc (hops : list pc_hop) (d : rn_type)
    (p : bool * bool * bool) (n : Z) : list hop_term :=
  let da := rn_item d 0 in let db := rn_item d 1 in let dc := rn_item d 2 in
  reduce_conj (flat_map (fun h =>
    let r := hop_rn h in
    flat_map (fun a =>
      flat_map (fun b =>
        map (fun c =>
          let ja := pbc_shift a (rn_item r 0) da (pbc_item p 0) in
          let jb := pbc_shift b (rn_item r 1) db (pbc_item p 1) in
          let jc := pbc_shift c (rn_item r 2) dc (pbc_item p 2) in
          HopTerm (((a * db + b) * dc + c) * n + hop_orb_i h)
                  (((ja * db + jb) * dc + jc) * n + hop_orb_j h)
                  (hop_eng h) r)
          (zrange dc))
        (zrange db))
      (zrange da)) hops).

(** Modelled from the spec: [core.find_equiv_hopping] is not in the sources;
    it searches [hop_i, hop_j] for the first exact match [(bra, ket)] and the
    first conjugate match [(ket, bra)], [-1] when there is none. *)
Fixpoint find_first (f : Z -> Z -> bool) (hi hj : list Z) (k : Z) : Z :=
  match hi, hj with
  | x :: hi', y :: hj' => if f x y then k else find_first f hi' hj' (k + 1)
  | _, _ => -1
  end.

Definition find_equiv_hopping (hi hj : list Z) (bra ket : Z) : Z * Z :=
  (find_first (fun x y => (x =? bra) && (y =? ket)) hi hj 0,
   find_first (fun x y => (x =? ket) && (y =? bra)) hi hj 0).

(** ** SuperCell.get_hop *)

(** [a[k] = x] for an index [k] in range *)
Fixpoint set_nth {A} (l : list A) (k : nat) (x : A) : list A :=
  match l, k with
  | [], _ => []
  | _ :: t, O => x :: t
  | y :: t, S k' => y :: set_nth t k' x
  end.

Definition hop_arrays (l : list hop_term) : list Z * list Z * list cplx :=
  (map t_i l, map t_j l, map t_v l).

(** [_init_hop] (the [hop_i, hop_j, hop_v] part) *)
Definition init_hop (s : SuperCell) : list Z * list Z * list cplx :=
  let o := sc_orbset s in
  hop_arrays (build_hop (hop_table (prim_cell o)) (dim o) (pbc o)
                        (num_orb_pc o) (vac_id_sc o)).

(** [_init_hop_fast] (the [hop_i, hop_j, hop_v] part) *)
Definition init_hop_fast (s : SuperCell) : list Z * list Z * list cplx :=
  let o := sc_orbset s in
  let '(ind_pbc, ind_free) := split_pc_hop (hop_table (prim_cell o)) (pbc o) in
  let '(i_pbc, j_pbc, v_pbc) :=
    hop_arrays (build_hop_pbc ind_pbc (dim o) (pbc o) (num_orb_pc o)) in
  let '(i_free, j_free, v_free) :=
    hop_arrays (build_hop ind_free (dim o) (pbc o) (num_orb_pc o) (vac_id_sc o)) in
  (i_pbc ++ i_free, j_pbc ++ j_free, v_pbc ++ v_free).

(** One iteration of the [for ih in range(hop_ind.shape[0])] loop of
    [get_hop]; the state is [(hop_v, hop_i_new, hop_j_new, hop_v_new)] and
    the search is done in the raw [hop_i, hop_j]. *)
Definition merge_step (hop_i hop_j : list Z)
    (st : list cplx * list Z * list Z * list cplx) (row : hop_row)
    : list cplx * list Z * list Z * list cplx :=
  let '(hop_v, i_new, j_new, v_new) := st in
  let '(_, id_bra, id_ket, hop_energy) := row in
  let '(id_same, id_conj) := find_equiv_hopping hop_i hop_j id_bra id_ket in
  if negb (id_same =? -1)
  then (set_nth hop_v (Z.to_nat id_same) hop_energy, i_new, j_new, v_new)
  else if negb (id_conj =? -1)
  then (set_nth hop_v (Z.to_nat id_conj) (conjugate hop_energy), i_new, j_new, v_new)
  else (hop_v, i_new ++ [id_bra], j_new ++ [id_ket], v_new ++ [hop_energy]).

Definition apply_hop_modifier (hop_i hop_j : list Z) (hop_v : list cplx)
    (rows : list hop_row) : list Z * list Z * list cplx :=
  let '(hop_v', i_new, j_new, v_new) :=
    fold_left (merge_step hop_i hop_j) rows (hop_v, [], [], []) in
  (hop_i ++ i_new, hop_j ++ j_new, hop_v' ++ v_new).

Inductive use_fast_arg := UseAuto | UseFast (b : bool).

Section GetHop.

Variable hash : list id_pc_type -> Z.

Definition get_hop (use_fast : use_fast_arg) (s : SuperCell)
    : SuperCell * (list Z * list Z * list cplx) :=
  let s := set_orbset s (sync_array hash false (sc_orbset s)) in
  let fast := match use_fast with
              | UseAuto => (length (vacancy_list (sc_orbset s)) =? 0)%nat
              | UseFast b => b
              end in
  let '(hop_i, hop_j, hop_v) := if fast then init_hop_fast s else init_hop s in
  if (ih_num_hop (hop_modifier s) =? 0)%nat then (s, (hop_i, hop_j, hop_v))
  else (s, apply_hop_modifier hop_i hop_j hop_v (ih_to_array (hop_modifier s))).

End GetHop.

(** ** The modifier part of SuperCell.get_dr

    Displacements are real 3-vectors; the loop only adds, subtracts,
    negates and stores them, so it is stated over any vector type [V].
    [orb_pos] is the array [get_orb_pos()] returns, one row per supercell
    orbital, read with numpy indexing: a row index outside
    [[-len, len)] raises [IndexError].  [rn_vec rn] is
    [np.matmul(hop_ind[ih, :3], self.sc_lat_vec)]. *)
Section DrMerge.

Variable V : Type.
Variables (vadd vsub : V -> V -> V) (vneg : V -> V).
Variable rn_vec : rn_type -> V.
Variable orb_pos : list V.

(** [dr_i = orb_pos[id_ket] + rn - orb_pos[id_bra]], computed before the
    search *)
Definition row_dr (row : hop_row) : res V :=
  let '(rn, id_bra, id_ket, _) := row in
  match np_getitem orb_pos id_ket with
  | None => inr PyIndexError
  | Some pk =>
      match np_getitem orb_pos id_bra with
      | None => inr PyIndexError
      | Some pb => inl (vsub (vadd pk (rn_vec rn)) pb)
      end
  end.

(** One iteration of the [for ih in range(hop_ind.shape[0])] loop of
    [get_dr]; the state is [(dr, dr_new)]. *)
Definition dr_merge_step (hop_i hop_j : list Z) (st : list V * list V)
    (row : hop_row) : res (list V * list V) :=
  let '(dr, dr_new) := st in
  let '(_, id_bra, id_ket, _) := row in
  match row_dr row with
  | inr e => inr e
  | inl dr_i =>
      let '(id_same, id_conj) := find_equiv_hopping hop_i hop_j id_bra id_ket in
      if negb (id_same =? -1) then inl (set_nth dr (Z.to_nat id_same) dr_i, dr_new)
      else if negb (id_conj =? -1) then inl (set_nth dr (Z.to_nat id_conj) (vneg dr_i), dr_new)
      else inl (dr, dr_new ++ [dr_i])
  end.

(** The loop; an exception leaves it. *)
Fixpoint dr_merge_loop (hop_i hop_j : list Z) (rows : list hop_row)
    (st : list V * list V) : res (list V * list V) :=
  match rows with
  | [] => inl st
  | row :: rest =>
      match dr_merge_step hop_i hop_j st row with
      | inr e => inr e
      | inl st' => dr_merge_loop hop_i hop_j rest st'
      end
  end.

(** The loop and [np.vstack((dr, dr_new))] *)
Definition apply_dr_modifier (hop_i hop_j : list Z) (dr : list V)
    (rows : list hop_row) : res (list V) :=
  match dr_merge_loop hop_i hop_j rows (dr, []) with
  | inr e => inr e
  | inl (dr', dr_new) => inl (dr' ++ dr_new)
  end.

End DrMerge.

(** ** SuperCell.trim and the batched conversion it uses *)

(** Modelled from the spec: [core.check_id_pc_array] is not in the sources.
    It validates the batch in one pass and reports the first offending
    element [k]: [(-2, k, axis)] when a component is out of range (the
    first one, in the order of [_check_id_pc]), [(-1, k, 0)] when the
    element is a vacancy, and [(0, 0, 0)] when every element is a live
    orbital. *)
Fixpoint check_id_pc_array (d : rn_type) (n : Z) (ids : list id_pc_type)
    (vac : option (list id_pc_type)) (k : Z) : Z * Z * nat :=
  match ids with
  | [] => (0, 0, 0%nat)
  | p :: rest =>
      if negb (in_range (nth 0 p 0) (rn_item d 0)) then (-2, k, 0%nat)
      else if negb (in_range (nth 1 p 0) (rn_item d 1)) then (-2, k, 1%nat)
      else if negb (in_range (nth 2 p 0) (rn_item d 2)) then (-2, k, 2%nat)
      else if negb (in_range (nth 3 p 0) n) then (-2, k, 3%nat)
      else if match vac with Some v => id_pc_mem p v | None => false end
      then (-1, k, 0%nat)
      else check_id_pc_array d n rest vac (k + 1)
  end.

(** Modelled from the spec: [core.get_orb_id_trim] is not in the sources.
    Following 4.5 it returns, in increasing compacted index, the
    primitive-cell indices [orb_id_pc[k]] of the orbitals [k] that appear
    neither in [hop_i] nor in [hop_j]. *)
Definition get_orb_id_trim (opc : list id_pc_type) (hop_i hop_j : list Z)
    : list id_pc_type :=
  map snd (filter (fun kp => negb (existsb (Z.eqb (fst kp)) hop_i
                                   || existsb (Z.eqb (fst kp)) hop_j))
                  (combine (zrange (Z.of_nat (length opc))) opc)).

Section Trim.

Variable hash : list id_pc_type -> Z.

(** [orb_id_pc2sc_array]; the argument is a [(num_orb, 4)] array, so its
    rows all have the length of the first one ([shape[1]]); an empty batch
    is a [(0, 4)] array.  [core.id_pc2sc_array] converts each row as
    [core.id_pc2sc] does. *)
Definition orb_id_pc2sc_array (ids : list id_pc_type) (s : OrbitalSet)
    : OrbitalSet * res (list Z) :=
  let s := sync_array hash false s in
  let shape_ok := match ids with [] => true | p :: _ => (length p =? 4)%nat end in
  if negb shape_ok then (s, inr (IDPCLenError (nth 0 ids [])))
  else
    let '(st, k, ax) := check_id_pc_array (dim s) (num_orb_pc s) ids (vac_id_pc s) 0 in
    if st =? -2 then (s, inr (IDPCIndexError ax (nth (Z.to_nat k) ids [])))
    else if st =? -1 then (s, inr (IDPCVacError (nth (Z.to_nat k) ids [])))
    else (s, inl (map (fun p => id_pc2sc (dim s) (num_orb_pc s) p (vac_id_sc s)) ids)).

(** [SuperCell.trim]: [get_hop] with [use_fast="auto"], the dangling
    orbitals, their supercell indices, [add_vacancies] with its default
    [sync_array=True], and [remove_orbitals] on the modifier. *)
Definition trim (s : SuperCell) : SuperCell * res unit :=
  if is_locked (sc_orbset s) then (s, inr SCLockError)
  else
    let '(s, (hop_i, hop_j, _)) := get_hop hash UseAuto s in
    let id_pc_trim := get_orb_id_trim (orb_id_pc (sc_orbset s)) hop_i hop_j in
    match orb_id_pc2sc_array id_pc_trim (sc_orbset s) with
    | (o, inr e) => (set_orbset s o, inr e)
    | (o, inl id_sc_trim) =>
        match add_vacancies hash id_pc_trim true false o with
        | (o', inr e) => (set_orbset s o', inr e)
        | (o', inl _) =>
            (set_hop_modifier (set_orbset s o')
               (ih_remove_orbitals (hop_modifier s) id_sc_trim), inl tt)
        end
    end.

End Trim.


(** * Properties *)

(** ** Helper lemmas on synchronisation *)

Lemma sync_array_idem : forall hash s,
  sync_array hash false (sync_array hash false s) = sync_array hash false s.
Proof.
  intros hash [pc d p vl hv vpc vsc opc lk].
  unfold sync_array, update_hash; cbn.
  destruct (hv =? hash vl) eqn:E; cbn.
  - rewrite E; reflexivity.
  - unfold set_hash_vac, set_arrays, num_orb_pc; cbn.
    destruct (derive_arrays d (num_orb pc) vl) as [[a b] c]; cbn.
    rewrite Z.eqb_refl; reflexivity.
Qed.

(** [get_hop] only reads the state after its initial synchronisation. *)
Definition sc_synced (hash : list id_pc_type -> Z) (s : SuperCell) : SuperCell :=
  set_orbset s (sync_array hash false (sc_orbset s)).

Lemma get_hop_state : forall hash u s,
  fst (get_hop hash u s) = sc_synced hash s.
Proof.
  intros. unfold get_hop, sc_synced.
  match goal with
  | |- context [if ?b then init_hop_fast ?x else init_hop ?x] =>
      destruct (if b then init_hop_fast x else init_hop x) as [[? ?] ?]
  end.
  destruct (_ =? _)%nat; reflexivity.
Qed.

Lemma get_hop_sc_synced : forall hash u s,
  get_hop hash u (sc_synced hash s) = get_hop hash u s.
Proof.
  intros hash u [o m opm]. unfold get_hop, sc_synced, set_orbset; cbn.
  rewrite sync_array_idem. reflexivity.
Qed.

(** ** C5 *)

(** C5: with a fixed modifier set, a second call of [get_hop] on the
    supercell left by a first call returns the same arrays (and leaves the
    state as it is): the modifier is applied to freshly rebuilt raw arrays
    each time, by overwriting, never by accumulating. *)
Theorem get_hop_twice_same : forall hash u s,
  get_hop hash u (fst (get_hop hash u s)) = get_hop hash u s.
Proof.
  intros. rewrite get_hop_state. apply get_hop_sc_synced.
Qed.

(** ** Lock and vacancy mutators *)

(** C10: [set_vacancies] on a locked set raises the lock error, but the
    vacancy list has already been emptied when the error propagates. *)
Theorem set_vacancies_locked_clears : forall hash vs sync force s,
  is_locked s = true ->
  set_vacancies hash vs sync force s = (set_vacancy_list s [], inr SCLockError).
Proof.
  intros hash vs sync force s Hl.
  unfold set_vacancies, add_vacancies, check_lock; cbn.
  rewrite Hl. destruct vs; reflexivity.
Qed.

Definition pc_chain : PrimitiveCell :=
  MkPrimitiveCell 1 [PcHop (1, 0, 0) 0 0 (Cplx 1 0)].

Definition hash_len (l : list id_pc_type) : Z := Z.of_nat (length l).

(** A locked set of the chain with [dim = (2, 1, 1)] and one vacancy. *)
Definition locked_set : OrbitalSet :=
  lock (MkOrbitalSet pc_chain (2, 1, 1) (true, false, false)
          [[0; 0; 0; 0]] 1 (Some [[0; 0; 0; 0]]) (Some [0])
          [[1; 0; 0; 0]] false).

Lemma set_vacancies_locked_clears_witness :
  is_locked locked_set = true /\
  set_vacancies hash_len (Some [[1; 0; 0; 0]]) true false locked_set
  = (set_vacancy_list locked_set [], inr SCLockError).
Proof.
  split; [reflexivity | apply set_vacancies_locked_clears; reflexivity].
Defined.

(** C8 (code defect): on [locked_set], the lock error of [set_vacancies]
    leaves an empty vacancy list, so [num_orb_sc] grows from 1 to 2 while
    [orb_id_pc] still has 1 entry. *)
Theorem set_vacancies_locked_mutates :
  let '(s', r) := set_vacancies hash_len (Some [[0; 0; 0; 0]]) true false locked_set in
  r = inr SCLockError /\ vacancy_list locked_set = [[0; 0; 0; 0]] /\
  vacancy_list s' = [] /\ num_orb_sc locked_set = 1 /\ num_orb_sc s' = 2 /\
  orb_id_pc s' = [[1; 0; 0; 0]].
Proof. vm_compute. repeat split. Qed.

(** The unlocked chain with [dim = (2, 1, 1)] and no vacancy. *)
Definition chain_set : OrbitalSet :=
  MkOrbitalSet pc_chain (2, 1, 1) (true, false, false) [] (hash_len [])
    None None [[0; 0; 0; 0]; [1; 0; 0; 0]] false.

(** C9 (code defect): [add_vacancies] with a valid vacancy followed by an
    out-of-range one raises on the second, but the first is already in
    [vacancy_list] (and [num_orb_sc] already counts it). *)
Theorem add_vacancies_partial_commit :
  let '(s', r) := add_vacancies hash_len [[0; 0; 0; 0]; [5; 0; 0; 0]] true false chain_set in
  r = inr (VacIDPCIndexError 0 [5; 0; 0; 0]) /\
  vacancy_list chain_set = [] /\ vacancy_list s' = [[0; 0; 0; 0]] /\
  num_orb_sc s' = 1.
Proof. vm_compute. repeat split. Qed.

(** ** C1: conjugate pairs in the output *)

Definition chain_sc : SuperCell := MkSuperCell chain_set [] None.

(** C1 (code defect): the chain with one orbital and the hopping
    [((1, 0, 0), 0, 0, 1)] in a periodic supercell of dimension 2 along [a]
    (accepted by the dimension check, which only asks for 1).  [get_hop]
    returns [(0, 1, 1)] and [(1, 0, 1)]: positions 0 and 1 have swapped
    bra/ket and conjugate energies. *)
Theorem get_hop_chain_conjugate_pair :
  SuperCell_init hash_len pc_chain (2, 1, 1) (true, false, false) None None
    = inl chain_sc /\
  snd (get_hop hash_len UseAuto chain_sc) = ([0; 1], [1; 0], [Cplx 1 0; Cplx 1 0]) /\
  let '(hop_i, hop_j, hop_v) := snd (get_hop hash_len UseAuto chain_sc) in
  nth 0 hop_i 0 = nth 1 hop_j 0 /\ nth 0 hop_j 0 = nth 1 hop_i 0 /\
  nth 1 hop_v (Cplx 0 0) = conjugate (nth 0 hop_v (Cplx 0 0)).
Proof. vm_compute. repeat split. Qed.

(** ** C7: checks of add_hopping *)

Lemma in_range_spec : forall x d, in_range x d = true <-> 0 <= x < d.
Proof.
  intros. unfold in_range. rewrite andb_true_iff, Z.leb_le, Z.ltb_lt. tauto.
Qed.

Lemma in_range_false : forall x d, in_range x d = false <-> ~ (0 <= x < d).
Proof.
  intros. rewrite <- in_range_spec. destruct (in_range x d); split; congruence.
Qed.

Lemma rn_eqb_spec : forall r s, rn_eqb r s = true <-> r = s.
Proof.
  intros [[a b] c] [[a' b'] c']. unfold rn_eqb.
  rewrite !andb_true_iff, !Z.eqb_eq. split.
  - intros [[-> ->] ->]; reflexivity.
  - intros H; inversion H; auto.
Qed.

(** C7 (as amended): on an unlocked supercell, [add_hopping] first raises
    [SCOrbIndexError orb_i] if [orb_i] is out of [0, num_orb_sc), then
    [SCOrbIndexError orb_j] if [orb_j] is, then, both being in range,
    [SCHopDiagonalError] if [rn = (0, 0, 0)] and [orb_i = orb_j]; only a
    term passing all checks is added to the modifier, and an error leaves
    the supercell unchanged. *)
Theorem add_hopping_checks : forall s rn orb_i orb_j e,
  is_locked (sc_orbset s) = false ->
  let n := num_orb_sc (sc_orbset s) in
  (~ (0 <= orb_i < n) ->
     add_hopping rn orb_i orb_j e s = (s, inr (SCOrbIndexError orb_i))) /\
  (0 <= orb_i < n -> ~ (0 <= orb_j < n) ->
     add_hopping rn orb_i orb_j e s = (s, inr (SCOrbIndexError orb_j))) /\
  (0 <= orb_i < n -> 0 <= orb_j < n -> rn = zero_rn -> orb_i = orb_j ->
     add_hopping rn orb_i orb_j e s = (s, inr (SCHopDiagonalError rn orb_i))) /\
  (0 <= orb_i < n -> 0 <= orb_j < n -> ~ (rn = zero_rn /\ orb_i = orb_j) ->
     add_hopping rn orb_i orb_j e s
     = (set_hop_modifier s (ih_add_hopping (hop_modifier s) rn orb_i orb_j e), inl tt)).
Proof.
  intros s rn orb_i orb_j e Hl n.
  unfold add_hopping, check_lock. rewrite Hl. fold n.
  repeat split; intros.
  - apply in_range_false in H. rewrite H. reflexivity.
  - apply in_range_spec in H. apply in_range_false in H0. rewrite H, H0. reflexivity.
  - apply in_range_spec in H. apply in_range_spec in H0. rewrite H, H0.
    subst. rewrite Z.eqb_refl. reflexivity.
  - apply in_range_spec in H. apply in_range_spec in H0. rewrite H, H0. cbn.
    destruct (rn_eqb rn zero_rn) eqn:E1; [|reflexivity].
    destruct (orb_i =? orb_j) eqn:E2; [|reflexivity].
    apply rn_eqb_spec in E1. apply Z.eqb_eq in E2. tauto.
Qed.

Lemma add_hopping_checks_witness :
  is_locked (sc_orbset chain_sc) = false /\
  add_hopping (1, 0, 0) 0 1 (Cplx 2 1) chain_sc
  = (set_hop_modifier chain_sc [((1, 0, 0), 0, 1, Cplx 2 1)], inl tt).
Proof.
  split; [reflexivity|].
  apply (add_hopping_checks chain_sc (1, 0, 0) 0 1 (Cplx 2 1) eq_refl);
    [apply in_range_spec; reflexivity | apply in_range_spec; reflexivity
    | intros [H _]; discriminate].
Defined.

(** C7 as stated fails: with [rn = (0, 0, 0)] and [orb_i = orb_j = 2] out of
    range ([num_orb_sc = 2]) the error is the range error, not the diagonal
    one. *)
Theorem add_hopping_diag_out_of_range :
  ~ (forall s rn orb_i orb_j e,
       is_locked (sc_orbset s) = false -> rn = zero_rn -> orb_i = orb_j ->
       snd (add_hopping rn orb_i orb_j e s) = inr (SCHopDiagonalError rn orb_i)).
Proof.
  intro H.
  specialize (H chain_sc zero_rn 2 2 (Cplx 1 0) eq_refl eq_refl eq_refl).
  vm_compute in H. discriminate H.
Qed.

(** ** C4: minimal dimension *)

Lemma list_min_cons : forall x l, exists m, list_min (x :: l) = Some m.
Proof. intros. cbn. destruct (list_min l); eauto. Qed.

Lemma list_max_cons : forall x l, exists m, list_max (x :: l) = Some m.
Proof. intros. cbn. destruct (list_max l); eauto. Qed.

Lemma dim_min_axis_some : forall pc i,
  hop_table pc <> [] -> exists m, dim_min_axis pc i = Some m.
Proof.
  intros pc i H. unfold dim_min_axis.
  destruct (hop_table pc) as [|h t]; [congruence|].
  cbn [map].
  destruct (list_min_cons (rn_item (hop_rn h) i) (map (fun h => rn_item (hop_rn h) i) t))
    as [m1 ->].
  destruct (list_max_cons (rn_item (hop_rn h) i) (map (fun h => rn_item (hop_rn h) i) t))
    as [m2 ->].
  eauto.
Qed.

Lemma SuperCell_init_inr : forall hash pc d p vs opm e,
  OrbitalSet_init hash pc d p vs = inr e -> SuperCell_init hash pc d p vs opm = inr e.
Proof. intros. unfold SuperCell_init. rewrite H. reflexivity. Qed.

(** C4: for a primitive cell with hopping terms, construction fails with
    [SCDimSizeError i dim_min] when the dimension along some axis is below
    [dim_min = max(|rn_min|, |rn_max|)] of that axis, [i] being the first
    such axis; with every dimension equal to its minimum (and no vacancies
    given) the construction of an OrbitalSet and of a SuperCell succeeds. *)
Theorem init_dim_check : forall hash pc d p vs opm,
  hop_table pc <> [] ->
  ((exists i m, (i < 3)%nat /\ dim_min_axis pc i = Some m /\ rn_item d i < m) ->
   exists i m,
     OrbitalSet_init hash pc d p vs = inr (SCDimSizeError i m) /\
     SuperCell_init hash pc d p vs opm = inr (SCDimSizeError i m) /\
     (i < 3)%nat /\ dim_min_axis pc i = Some m /\ rn_item d i < m /\
     (forall i' m', (i' < i)%nat -> dim_min_axis pc i' = Some m' -> m' <= rn_item d i')) /\
  ((forall i, (i < 3)%nat -> dim_min_axis pc i = Some (rn_item d i)) ->
   (exists s, OrbitalSet_init hash pc d p None = inl s) /\
   (exists s, SuperCell_init hash pc d p None opm = inl s)).
Proof.
  intros hash pc d p vs opm Hne.
  destruct (dim_min_axis_some pc 0 Hne) as [m0 H0].
  destruct (dim_min_axis_some pc 1 Hne) as [m1 H1].
  destruct (dim_min_axis_some pc 2 Hne) as [m2 H2].
  split.
  - intros [i [m [Hi [Hm Hlt]]]].
    assert (Hinit : forall j mj, dim_min_axis pc j = Some mj -> rn_item d j < mj ->
              (forall i' m', (i' < j)%nat -> dim_min_axis pc i' = Some m' ->
                             m' <= rn_item d i') ->
              check_dim_axes pc d [0; 1; 2]%nat = inr (SCDimSizeError j mj) ->
              exists i m,
                OrbitalSet_init hash pc d p vs = inr (SCDimSizeError i m) /\
                SuperCell_init hash pc d p vs opm = inr (SCDimSizeError i m) /\
                (i < 3)%nat /\ dim_min_axis pc i = Some m /\ rn_item d i < m /\
                (forall i' m', (i' < i)%nat -> dim_min_axis pc i' = Some m' ->
                               m' <= rn_item d i')).
    { intros j mj Hj Hlt' Hbefore Hc.
      assert (Ho : OrbitalSet_init hash pc d p vs = inr (SCDimSizeError j mj))
        by (unfold OrbitalSet_init; rewrite Hc; reflexivity).
      exists j, mj. repeat split; auto using SuperCell_init_inr.
      destruct (Nat.lt_ge_cases j 3); auto.
      exfalso. destruct j as [|[|[|j]]]; try lia.
      cbn in Hc. rewrite H0, H1, H2 in Hc.
      destruct (rn_item d 0 <? m0); destruct (rn_item d 1 <? m1);
        destruct (rn_item d 2 <? m2); discriminate. }
    destruct (rn_item d 0 <? m0) eqn:E0.
    + apply (Hinit 0%nat m0); auto.
      * apply Z.ltb_lt; auto.
      * intros; lia.
      * cbn. rewrite H0, E0. reflexivity.
    + apply Z.ltb_ge in E0.
      destruct (rn_item d 1 <? m1) eqn:E1.
      * apply (Hinit 1%nat m1); auto.
        -- apply Z.ltb_lt; auto.
        -- intros i' m' Hi' Hm'. destruct i' as [|i']; [|lia].
           rewrite H0 in Hm'. inversion Hm'; subst; lia.
        -- cbn. rewrite H0, H1. apply Z.ltb_ge in E0. rewrite E0, E1. reflexivity.
      * apply Z.ltb_ge in E1.
        destruct (rn_item d 2 <? m2) eqn:E2.
        -- apply (Hinit 2%nat m2); auto.
           ++ apply Z.ltb_lt; auto.
           ++ intros i' m' Hi' Hm'. destruct i' as [|[|i']]; [| |lia].
              ** rewrite H0 in Hm'. inversion Hm'; subst; lia.
              ** rewrite H1 in Hm'. inversion Hm'; subst; lia.
           ++ cbn. rewrite H0, H1, H2.
              apply Z.ltb_ge in E0. apply Z.ltb_ge in E1. rewrite E0, E1, E2.
              reflexivity.
        -- exfalso. apply Z.ltb_ge in E2.
           destruct i as [|[|[|i]]]; try lia;
             [rewrite H0 in Hm | rewrite H1 in Hm | rewrite H2 in Hm];
             inversion Hm; subst; lia.
  - intros Hall.
    pose proof (Hall 0%nat ltac:(lia)) as A0. rewrite H0 in A0.
    pose proof (Hall 1%nat ltac:(lia)) as A1. rewrite H1 in A1.
    pose proof (Hall 2%nat ltac:(lia)) as A2. rewrite H2 in A2.
    inversion A0; inversion A1; inversion A2.
    assert (Hc : check_dim_axes pc d [0; 1; 2]%nat = inl tt).
    { cbn. rewrite H0, H1, H2. rewrite <- H3, <- H4, <- H5.
      rewrite !Z.ltb_irrefl. reflexivity. }
    split.
    + eexists. unfold OrbitalSet_init. rewrite Hc. reflexivity.
    + eexists. unfold SuperCell_init, OrbitalSet_init. rewrite Hc. reflexivity.
Qed.

Lemma init_dim_check_witness :
  (exists s, OrbitalSet_init hash_len pc_chain (1, 0, 0) (true, false, false) None = inl s) /\
  (exists i m, OrbitalSet_init hash_len pc_chain (0, 0, 0) (true, false, false) None
               = inr (SCDimSizeError i m)).
Proof.
  destruct (init_dim_check hash_len pc_chain (1, 0, 0) (true, false, false) None None
              ltac:(discriminate)) as [_ B].
  destruct (init_dim_check hash_len pc_chain (0, 0, 0) (true, false, false) None None
              ltac:(discriminate)) as [A _].
  split.
  - apply B. intros i Hi. destruct i as [|[|[|i]]]; try lia; reflexivity.
  - assert (Hex : exists i m, (i < 3)%nat /\ dim_min_axis pc_chain i = Some m /\
                             rn_item (0, 0, 0) i < m).
    { exists 0%nat, 1. split; [lia | split; [reflexivity | cbn; lia]]. }
    destruct (A Hex) as [i [m [Hi _]]]. eauto.
Defined.


(** ** C6: merging of one modifier entry *)












(** ** C3: compaction of the supercell index *)

(** [range(k)] with a natural bound *)
Definition zr (k : nat) : list Z := map Z.of_nat (seq 0 k).

Lemma zrange_zr : forall d, zrange d = zr (Z.to_nat d).
Proof. reflexivity. Qed.

Lemma in_zrange : forall x d, In x (zrange d) <-> 0 <= x < d.
Proof.
  intros x d. unfold zrange. rewrite in_map_iff. split.
  - intros [k [<- Hk]]. apply in_seq in Hk. lia.
  - intros H. exists (Z.to_nat x). split; [lia|]. apply in_seq. lia.
Qed.

Lemma zr_S : forall k, zr (S k) = zr k ++ [Z.of_nat k].
Proof. intros k. unfold zr. rewrite seq_S, map_app. reflexivity. Qed.

Lemma seq_shift_Z : forall m s,
  map Z.of_nat (seq s m) = map (fun y => Z.of_nat s + y) (zr m).
Proof.
  induction m as [|m IH]; intros s; [reflexivity|].
  rewrite seq_S, zr_S, !map_app, IH. cbn. f_equal. f_equal. f_equal. lia.
Qed.

Lemma flat_map_map' : forall (A B C : Type) (f : B -> list C) (g : A -> B) l,
  flat_map f (map g l) = flat_map (fun x => f (g x)) l.
Proof. intros. induction l; cbn; congruence. Qed.

Lemma flat_map_nest : forall (A : Type) (F : Z -> list A) m k,
  flat_map (fun x => flat_map (fun y => F (x * Z.of_nat m + y)) (zr m)) (zr k)
  = flat_map F (zr (k * m)).
Proof.
  intros A F m k. induction k as [|k IH]; [reflexivity|].
  rewrite zr_S, flat_map_app, IH.
  replace (S k * m)%nat with (k * m + m)%nat by lia.
  unfold zr at 3. rewrite seq_app, map_app, flat_map_app. f_equal.
  rewrite seq_shift_Z, flat_map_map'. cbn. rewrite app_nil_r.
  apply flat_map_ext. intros y. f_equal. lia.
Qed.

Lemma flat_map_single : forall (l : list Z), flat_map (fun x => [x]) l = l.
Proof. induction l; cbn; congruence. Qed.

Lemma map_flat_map' : forall (A B C : Type) (f : B -> C) (g : A -> list B) l,
  map f (flat_map g l) = flat_map (fun x => map f (g x)) l.
Proof. intros. induction l; cbn; [reflexivity|]. rewrite map_app. congruence. Qed.

Lemma map_flat_all_nat : forall DA DB DC N,
  map (id_pc2sc_flat (Z.of_nat DA, Z.of_nat DB, Z.of_nat DC) (Z.of_nat N))
    (all_id_pc (Z.of_nat DA, Z.of_nat DB, Z.of_nat DC) (Z.of_nat N))
  = zr (DA * (DB * DC) * N).
Proof.
  intros DA DB DC N. unfold all_id_pc. cbn [rn_item]. rewrite !zrange_zr, !Nat2Z.id.
  set (F3 := fun x : Z => map (fun o => x * Z.of_nat N + o) (zr N)).
  rewrite map_flat_map'.
  transitivity (flat_map (fun a =>
    flat_map (fun t => F3 (a * Z.of_nat (DB * DC) + t)) (zr (DB * DC))) (zr DA)).
  { apply flat_map_ext. intros a. rewrite map_flat_map'.
    rewrite <- (flat_map_nest _ (fun t => F3 (a * Z.of_nat (DB * DC) + t)) DC DB).
    apply flat_map_ext. intros b. rewrite map_flat_map'.
    apply flat_map_ext. intros c. rewrite map_map. unfold F3.
    apply map_ext. intros o. cbn. f_equal. f_equal. lia. }
  rewrite (flat_map_nest _ F3 (DB * DC) DA).
  transitivity (flat_map (fun x => flat_map (fun o => (fun t => [t]) (x * Z.of_nat N + o)) (zr N))
     (zr (DA * (DB * DC)))).
  { apply flat_map_ext. intros x. unfold F3. induction (zr N); cbn; congruence. }
  rewrite (flat_map_nest _ (fun t => [t]) N). apply flat_map_single.
Qed.

Lemma map_flat_all : forall d n,
  0 <= rn_item d 0 -> 0 <= rn_item d 1 -> 0 <= rn_item d 2 -> 0 <= n ->
  map (id_pc2sc_flat d n) (all_id_pc d n)
  = zrange (rn_item d 0 * rn_item d 1 * rn_item d 2 * n).
Proof.
  intros [[a b] c] n Ha Hb Hc Hn. cbn [rn_item] in *.
  rewrite <- (Z2Nat.id a), <- (Z2Nat.id b), <- (Z2Nat.id c), <- (Z2Nat.id n) by lia.
  rewrite map_flat_all_nat, zrange_zr. f_equal. lia.
Qed.

Lemma in_all_id_pc : forall d n p,
  In p (all_id_pc d n) <->
  exists a b c o, p = [a; b; c; o] /\ 0 <= a < rn_item d 0 /\
    0 <= b < rn_item d 1 /\ 0 <= c < rn_item d 2 /\ 0 <= o < n.
Proof.
  intros d n p. unfold all_id_pc. split.
  - intros H.
    apply in_flat_map in H as [a [Ha H]]. apply in_flat_map in H as [b [Hb H]].
    apply in_flat_map in H as [c [Hc H]]. apply in_map_iff in H as [o [<- Ho]].
    rewrite in_zrange in *. exists a, b, c, o. auto.
  - intros (a & b & c & o & -> & Ha & Hb & Hc & Ho).
    apply in_flat_map. exists a. split; [apply in_zrange; lia|].
    apply in_flat_map. exists b. split; [apply in_zrange; lia|].
    apply in_flat_map. exists c. split; [apply in_zrange; lia|].
    apply in_map_iff. exists o. split; [reflexivity | apply in_zrange; lia].
Qed.

Lemma check_id_pc_all : forall s p,
  check_id_pc s p = inl tt <-> In p (all_id_pc (dim s) (num_orb_pc s)).
Proof.
  intros s p. rewrite in_all_id_pc. unfold check_id_pc, dim_item.
  destruct p as [|a [|b [|c [|o [|x p]]]]]; cbn [length Nat.eqb negb nth];
    try (split; [discriminate | intros (? & ? & ? & ? & E & _); discriminate]).
  setoid_rewrite <- in_range_spec. split.
  - intros H.
    repeat match goal with
    | H : context [if negb ?b then _ else _] |- _ =>
        destruct b eqn:?; cbn in H; [|discriminate]
    end.
    exists a, b, c, o. auto.
  - intros (? & ? & ? & ? & E & H1 & H2 & H3 & H4). injection E as -> -> -> ->.
    rewrite H1, H2, H3, H4. reflexivity.
Qed.


Lemma NoDup_map_inj_in : forall (A B : Type) (f : A -> B) l x y,
  NoDup (map f l) -> In x l -> In y l -> f x = f y -> x = y.
Proof.
  intros A B f l x y. induction l as [|z l IH]; cbn; [tauto|].
  intros Hn Hx Hy E. inversion Hn as [|? ? Hz Hl]; subst.
  destruct Hx as [<-|Hx], Hy as [<-|Hy]; auto.
  - exfalso. apply Hz. rewrite E. apply in_map. exact Hy.
  - exfalso. apply Hz. rewrite <- E. apply in_map. exact Hx.
Qed.

Lemma NoDup_map_inj : forall (A B : Type) (f : A -> B) l,
  NoDup l -> (forall x y, In x l -> In y l -> f x = f y -> x = y) ->
  NoDup (map f l).
Proof.
  intros A B f l Hn. induction Hn as [|z l Hz Hl IH]; cbn; intros Hi;
    constructor.
  - intros Hin. apply in_map_iff in Hin as [w [E Hw]].
    apply Hz. replace z with w; [exact Hw|]. apply Hi; auto.
  - apply IH. intros. apply Hi; auto.
Qed.

Lemma NoDup_zr : forall k, NoDup (zr k).
Proof.
  intros k. unfold zr. apply NoDup_map_inj; [apply seq_NoDup|].
  intros x y _ _ E. lia.
Qed.

Lemma filter_map_comm : forall (A B : Type) (f : B -> bool) (g : A -> B) l,
  filter f (map g l) = map g (filter (fun x => f (g x)) l).
Proof. intros. induction l; cbn; [reflexivity|]. destruct (f (g a)); cbn; congruence. Qed.

Lemma Permutation_filter' : forall (A : Type) (f : A -> bool) l l',
  Permutation l l' -> Permutation (filter f l) (filter f l').
Proof.
  intros A f l l' H. induction H; cbn.
  - constructor.
  - destruct (f x); auto.
  - destruct (f x), (f y); auto. apply perm_swap.
  - eapply perm_trans; eauto.
Qed.

Lemma mem_Z_iff : forall x W, existsb (Z.eqb x) W = true <-> In x W.
Proof.
  intros. rewrite existsb_exists. split.
  - intros [y [Hy E]]. apply Z.eqb_eq in E. subst. exact Hy.
  - intros H. exists x. split; [exact H | apply Z.eqb_refl].
Qed.

Lemma id_pc_mem_iff : forall p l, id_pc_mem p l = true <-> In p l.
Proof.
  intros. unfold id_pc_mem. rewrite existsb_exists. split.
  - intros [q [Hq E]]. unfold id_pc_eqb in E.
    destruct (list_eq_dec Z.eq_dec p q); [subst; exact Hq | discriminate].
  - intros H. exists p. split; [exact H|]. unfold id_pc_eqb.
    destruct (list_eq_dec Z.eq_dec p p); congruence.
Qed.

Definition notin_Z (W : list Z) (k : Z) : bool := negb (existsb (Z.eqb k) W).

Lemma count_below_succ : forall x W, NoDup W ->
  length (filter (fun w => w <? x + 1) W)
  = Nat.add (length (filter (fun w => w <? x) W))
      (if existsb (Z.eqb x) W then 1%nat else 0%nat).
Proof.
  intros x W Hn. induction Hn as [|w W Hw Hn IH]; [reflexivity|]. cbn.
  destruct (existsb (Z.eqb x) W) eqn:E.
  - apply mem_Z_iff in E.
    assert (x <> w) by (intros ->; contradiction).
    destruct (Z.eqb_spec x w); [contradiction|].
    destruct (Z.ltb_spec w (x + 1)), (Z.ltb_spec w x); cbn; lia.
  - destruct (Z.eqb_spec x w); cbn.
    + subst. destruct (Z.ltb_spec w (w + 1)), (Z.ltb_spec w w); cbn; lia.
    + destruct (Z.ltb_spec w (x + 1)), (Z.ltb_spec w x); cbn; lia.
Qed.

Lemma count_below_zero : forall W, Forall (fun w => 0 <= w) W ->
  filter (fun w => w <? 0) W = [].
Proof.
  intros W H. induction H as [|w W Hw H IH]; cbn; [reflexivity|].
  destruct (Z.ltb_spec w 0); [lia | exact IH].
Qed.

Lemma filter_notin_length : forall W N, NoDup W -> Forall (fun w => 0 <= w) W ->
  Z.of_nat (length (filter (notin_Z W) (zr N))) + count_below (Z.of_nat N) W
  = Z.of_nat N.
Proof.
  intros W N Hn Hp. unfold count_below. induction N as [|N IH].
  - cbn. rewrite count_below_zero by exact Hp. reflexivity.
  - rewrite zr_S, filter_app, length_app.
    replace (Z.of_nat (S N)) with (Z.of_nat N + 1) by lia.
    rewrite count_below_succ by exact Hn.
    cbn [filter]. unfold notin_Z at 2.
    destruct (existsb (Z.eqb (Z.of_nat N)) W); cbn; lia.
Qed.

Lemma filter_notin_position : forall W N i x,
  NoDup W -> Forall (fun w => 0 <= w) W ->
  nth_error (filter (notin_Z W) (zr N)) i = Some x ->
  x - count_below x W = Z.of_nat i.
Proof.
  intros W N. induction N as [|N IH]; intros i x Hn Hp Hx.
  - destruct i; discriminate.
  - rewrite zr_S, filter_app in Hx.
    destruct (Nat.ltb_spec i (length (filter (notin_Z W) (zr N)))) as [Hi|Hi].
    + rewrite nth_error_app1 in Hx by exact Hi. apply IH; assumption.
    + rewrite nth_error_app2 in Hx by exact Hi. cbn [filter] in Hx.
      destruct (notin_Z W (Z.of_nat N)) eqn:E;
        [|destruct (i - _)%nat; discriminate].
      destruct (i - length (filter (notin_Z W) (zr N)))%nat eqn:Ei;
        [|destruct n; discriminate].
      injection Hx as <-.
      pose proof (filter_notin_length W N Hn Hp). lia.
Qed.

Lemma insert_by_key_perm : forall (A : Type) (x : Z * A) l,
  Permutation (insert_by_key x l) (x :: l).
Proof.
  intros A x l. induction l as [|y l IH]; cbn; [auto|].
  destruct (fst x <=? fst y); [auto|].
  eapply perm_trans; [apply perm_skip, IH | apply perm_swap].
Qed.

Lemma sort_by_key_perm : forall (A : Type) (l : list (Z * A)),
  Permutation (sort_by_key l) l.
Proof.
  intros A l. induction l as [|x l IH]; cbn; [auto|].
  eapply perm_trans; [apply insert_by_key_perm | auto].
Qed.

Lemma combine_map_self : forall (A B : Type) (f : A -> B) l,
  combine (map f l) l = map (fun x => (f x, x)) l.
Proof. intros. induction l; cbn; congruence. Qed.

Lemma count_below_perm : forall x W W',
  Permutation W W' -> count_below x W = count_below x W'.
Proof.
  intros. unfold count_below. f_equal. apply Permutation_length.
  apply Permutation_filter'. assumption.
Qed.

Lemma existsb_perm : forall (A : Type) (f : A -> bool) l l',
  Permutation l l' -> existsb f l = existsb f l'.
Proof.
  intros A f l l' H. induction H; cbn; try congruence.
  destruct (f x), (f y); reflexivity.
Qed.

(** The arrays [derive_arrays] computes from a legal vacancy list. *)
Section Compaction.

Variables (d : rn_type) (n : Z) (vl : list id_pc_type).
Hypotheses (Hd0 : 0 <= rn_item d 0) (Hd1 : 0 <= rn_item d 1)
           (Hd2 : 0 <= rn_item d 2) (Hn : 0 <= n).
Hypothesis Hnodup : NoDup vl.
Hypothesis Hvalid : Forall (fun v => In v (all_id_pc d n)) vl.

Let flat := id_pc2sc_flat d n.
Let W := map flat vl.
Let NN := rn_item d 0 * rn_item d 1 * rn_item d 2 * n.

Lemma derive_arrays_char :
  let '(_, vsc, opc) := derive_arrays d n vl in
  opc = filter (fun p => negb (id_pc_mem p vl)) (all_id_pc d n) /\
  forall p, id_pc2sc d n p vsc =
    if existsb (Z.eqb (flat p)) W then -1 else flat p - count_below (flat p) W.
Proof.
  unfold derive_arrays, W, flat. destruct vl as [|v vl'] eqn:Evl.
  - split.
    + cbn. rewrite filter_true. reflexivity.
    + intros p. cbn. unfold count_below. cbn. lia.
  - rewrite <- Evl. unfold build_vac_id_sc. rewrite combine_map_self.
    pose proof (sort_by_key_perm _ (map (fun x => (id_pc2sc_flat d n x, x)) vl)) as HP.
    split.
    + cbn [build_orb_id_pc]. apply filter_ext. intros p. f_equal.
      unfold id_pc_mem. apply existsb_perm.
      eapply perm_trans; [apply Permutation_map, HP|].
      rewrite map_map. cbn. rewrite map_id. apply Permutation_refl.
    + intros p. unfold id_pc2sc.
      assert (HW : Permutation (map fst (sort_by_key
                   (map (fun x => (id_pc2sc_flat d n x, x)) vl)))
                   (map (id_pc2sc_flat d n) vl)).
      { eapply perm_trans; [apply Permutation_map, HP|].
        rewrite map_map. apply Permutation_refl. }
      rewrite (existsb_perm _ _ _ _ HW), (count_below_perm _ _ _ HW).
      reflexivity.
Qed.

Lemma map_flat_all' : map flat (all_id_pc d n) = zr (Z.to_nat NN).
Proof. unfold flat, NN. rewrite map_flat_all by assumption. reflexivity. Qed.

Lemma flat_inj : forall p q, In p (all_id_pc d n) -> In q (all_id_pc d n) ->
  flat p = flat q -> p = q.
Proof.
  intros p q Hp Hq E. eapply NoDup_map_inj_in; eauto.
  rewrite map_flat_all'. apply NoDup_zr.
Qed.

Lemma vl_valid : forall v, In v vl -> In v (all_id_pc d n).
Proof. rewrite Forall_forall in Hvalid. exact Hvalid. Qed.

Lemma W_nodup : NoDup W.
Proof.
  unfold W. apply NoDup_map_inj; [exact Hnodup|].
  intros x y Hx Hy E. apply flat_inj; [| |exact E].
  - apply vl_valid. exact Hx.
  - apply vl_valid. exact Hy.
Qed.

Lemma W_range : Forall (fun w => 0 <= w < NN) W.
Proof.
  unfold W. apply Forall_forall. intros w Hw. apply in_map_iff in Hw as [v [<- Hv]].
  assert (In (flat v) (zr (Z.to_nat NN))).
  { rewrite <- map_flat_all'. apply in_map. apply vl_valid. exact Hv. }
  apply (in_zrange (flat v) NN). exact H.
Qed.

Lemma map_flat_filter :
  map flat (filter (fun p => negb (id_pc_mem p vl)) (all_id_pc d n))
  = filter (notin_Z W) (zr (Z.to_nat NN)).
Proof.
  rewrite <- map_flat_all', filter_map_comm. f_equal.
  apply filter_ext_in. intros p Hp. unfold notin_Z. f_equal.
  destruct (id_pc_mem p vl) eqn:E1, (existsb (Z.eqb (flat p)) W) eqn:E2; auto.
  - apply id_pc_mem_iff in E1. rewrite <- E2. symmetry. apply mem_Z_iff.
    unfold W. apply in_map. exact E1.
  - apply mem_Z_iff in E2. unfold W in E2. apply in_map_iff in E2 as [q [E Hq]].
    rewrite (flat_inj q p) in Hq; auto.
    + apply id_pc_mem_iff in Hq. congruence.
    + apply vl_valid. exact Hq.
Qed.

Lemma NN_nonneg : 0 <= NN.
Proof.
  unfold NN. repeat apply Z.mul_nonneg_nonneg; assumption.
Qed.

Lemma count_below_all : forall x (V : list Z), Forall (fun w => w < x) V ->
  count_below x V = Z.of_nat (length V).
Proof.
  intros x V H. unfold count_below. f_equal. f_equal.
  induction H as [|w V Hw H IH]; cbn; [reflexivity|].
  destruct (Z.ltb_spec w x); [congruence | lia].
Qed.

Lemma derive_length :
  let '(_, _, opc) := derive_arrays d n vl in
  Z.of_nat (length opc) + Z.of_nat (length vl) = NN.
Proof.
  pose proof derive_arrays_char as Hc.
  destruct (derive_arrays d n vl) as [[vpc vsc] opc]. destruct Hc as [Hopc _].
  rewrite <- (length_map flat opc), Hopc, map_flat_filter.
  pose proof W_range as HR.
  pose proof (filter_notin_length W (Z.to_nat NN) W_nodup
    (Forall_impl _ (fun w (H : 0 <= w < NN) => proj1 H) HR)) as HL.
  rewrite Z2Nat.id in HL by apply NN_nonneg.
  rewrite count_below_all in HL
    by exact (Forall_impl _ (fun w (H : 0 <= w < NN) => proj2 H) HR).
  unfold W in HL. rewrite length_map in HL. exact HL.
Qed.

Lemma derive_roundtrip :
  let '(_, vsc, opc) := derive_arrays d n vl in
  forall i, 0 <= i < NN - Z.of_nat (length vl) ->
  exists p, nth_error opc (Z.to_nat i) = Some p /\ In p (all_id_pc d n) /\
            id_pc2sc d n p vsc = i.
Proof.
  pose proof derive_arrays_char as Hc. pose proof derive_length as Hl.
  destruct (derive_arrays d n vl) as [[vpc vsc] opc]. destruct Hc as [Hopc Hid].
  intros i Hi.
  destruct (nth_error opc (Z.to_nat i)) as [p|] eqn:E;
    [|apply nth_error_None in E; lia].
  exists p. split; [reflexivity|].
  assert (Hp : In p opc) by (eapply nth_error_In; eauto).
  rewrite Hopc in Hp. apply filter_In in Hp as [Hp _].
  split; [exact Hp|].
  apply (map_nth_error flat) in E. rewrite Hopc, map_flat_filter in E.
  assert (Hin : In (flat p) (filter (notin_Z W) (zr (Z.to_nat NN))))
    by (eapply nth_error_In; eauto).
  apply filter_In in Hin as [_ Hnot]. unfold notin_Z in Hnot.
  rewrite Hid. destruct (existsb (Z.eqb (flat p)) W); [discriminate|].
  pose proof W_range as HR.
  rewrite (filter_notin_position W (Z.to_nat NN) (Z.to_nat i) (flat p) W_nodup
    (Forall_impl _ (fun w (H : 0 <= w < NN) => proj1 H) HR) E).
  lia.
Qed.

End Compaction.

(** A forced [sync_array] stores the hash and the derived arrays. *)
Lemma sync_array_true : forall hash s,
  sync_array hash true s =
  let '(vpc, vsc, opc) := derive_arrays (dim s) (num_orb_pc s) (vacancy_list s) in
  MkOrbitalSet (prim_cell s) (dim s) (pbc s) (vacancy_list s)
    (hash (vacancy_list s)) vpc vsc opc (is_locked s).
Proof.
  intros hash [pc d p vl hv vpc vsc opc lk].
  unfold sync_array, update_hash; cbn.
  destruct (hv =? hash vl) eqn:E; cbn;
    [apply Z.eqb_eq in E; subst|];
    unfold set_arrays, set_hash_vac, num_orb_pc; cbn;
    destruct (derive_arrays d (num_orb pc) vl) as [[? ?] ?]; reflexivity.
Qed.

Lemma sync_array_fixed : forall hash s,
  hash_vac s = hash (vacancy_list s) -> sync_array hash false s = s.
Proof.
  intros hash [pc d p vl hv vpc vsc opc lk] H. cbn in H. subst.
  unfold sync_array, update_hash; cbn. rewrite Z.eqb_refl. reflexivity.
Qed.

(** Invariant of the vacancy list as the mutators keep it: non-negative
    sizes, no duplicate, every vacancy a legal primitive-cell index. *)
Definition orbset_wf (s : OrbitalSet) : Prop :=
  0 <= dim_item s 0 /\ 0 <= dim_item s 1 /\ 0 <= dim_item s 2 /\
  0 <= num_orb_pc s /\ NoDup (vacancy_list s) /\
  Forall (fun v => check_id_pc s v = inl tt) (vacancy_list s).

(** C3: after synchronisation ([sync_array] with [force_sync=True]) of any
    state whose vacancy list is duplicate-free and legal, the live orbitals
    and the vacancies together fill the [num_orb_pc * volume] slots, and for
    every live index [i] in [[0, num_orb_sc)], [orb_id_sc2pc(i)] succeeds
    with some [id_pc] and [orb_id_pc2sc(id_pc)] gives back [i]; both calls
    leave the state as it is. *)
Theorem compaction_consistency : forall hash s,
  orbset_wf s ->
  let s1 := sync_array hash true s in
  Z.of_nat (length (orb_id_pc s1)) + Z.of_nat (length (vacancy_list s1))
    = num_orb_pc s1 * dim_item s1 0 * dim_item s1 1 * dim_item s1 2 /\
  forall i, 0 <= i < num_orb_sc s1 ->
    exists p, orb_id_sc2pc hash i s1 = (s1, inl p) /\
              orb_id_pc2sc hash p s1 = (s1, inl i).
Proof.
  intros hash s (H0 & H1 & H2 & Hn & Hnd & Hv) s1.
  assert (Hv' : Forall (fun v => In v (all_id_pc (dim s) (num_orb_pc s)))
                  (vacancy_list s)).
  { eapply Forall_impl; [|exact Hv]. intros v Hc. apply check_id_pc_all. exact Hc. }
  pose proof (derive_length (dim s) (num_orb_pc s) (vacancy_list s)
                H0 H1 H2 Hn Hnd Hv') as Hl.
  pose proof (derive_roundtrip (dim s) (num_orb_pc s) (vacancy_list s)
                H0 H1 H2 Hn Hnd Hv') as Hr.
  assert (Hfix : sync_array hash false s1 = s1).
  { apply sync_array_fixed. subst s1. rewrite sync_array_true.
    destruct (derive_arrays _ _ _) as [[? ?] ?]. reflexivity. }
  unfold orb_id_sc2pc, orb_id_pc2sc. rewrite Hfix.
  subst s1. rewrite sync_array_true.
  destruct (derive_arrays (dim s) (num_orb_pc s) (vacancy_list s))
    as [[vpc vsc] opc].
  unfold num_orb_sc, num_orb_pc, dim_item in *; cbn [prim_cell dim vacancy_list
    orb_id_pc vac_id_sc] in *.
  split; [lia|].
  intros i Hi. destruct (Hr i ltac:(lia)) as (p & Ep & Hp & Hid).
  exists p. split.
  - unfold np_getitem.
    replace ((0 <=? i) && (i <? Z.of_nat (length opc))) with true
      by (symmetry; apply andb_true_iff; split; [apply Z.leb_le | apply Z.ltb_lt]; lia).
    rewrite Ep. reflexivity.
  - replace (check_id_pc _ p) with (@inl unit exc tt).
    + rewrite Hid. destruct (Z.eqb_spec i (-1)); [lia | reflexivity].
    + symmetry. apply check_id_pc_all. exact Hp.
Qed.

(** The chain with [dim = (3, 1, 1)], the middle cell vacant, and index
    arrays not yet built. *)
Definition vac_set : OrbitalSet :=
  MkOrbitalSet pc_chain (3, 1, 1) (true, false, false) [[1; 0; 0; 0]] 0
    None None [] false.

Lemma compaction_consistency_witness :
  orbset_wf vac_set /\
  let s1 := sync_array hash_len true vac_set in
  Z.of_nat (length (orb_id_pc s1)) + Z.of_nat (length (vacancy_list s1))
    = num_orb_pc s1 * dim_item s1 0 * dim_item s1 1 * dim_item s1 2 /\
  forall i, 0 <= i < num_orb_sc s1 ->
    exists p, orb_id_sc2pc hash_len i s1 = (s1, inl p) /\
              orb_id_pc2sc hash_len p s1 = (s1, inl i).
Proof.
  assert (W : orbset_wf vac_set).
  { unfold orbset_wf. cbn. repeat split; try lia.
    - constructor; [intros [] | constructor].
    - repeat constructor. }
  split; [exact W | exact (compaction_consistency hash_len vac_set W)].
Defined.

(** The mutators keep [orbset_wf]: it only reads [prim_cell], [dim] and
    [vacancy_list]. *)
Lemma orbset_wf_ext : forall s s',
  prim_cell s' = prim_cell s -> dim s' = dim s ->
  vacancy_list s' = vacancy_list s -> orbset_wf s -> orbset_wf s'.
Proof.
  intros s s' Hp Hd Hv. unfold orbset_wf, check_id_pc, dim_item, num_orb_pc.
  rewrite Hp, Hd, Hv. exact (fun H => H).
Qed.

Lemma sync_array_wf : forall hash f s, orbset_wf s -> orbset_wf (sync_array hash f s).
Proof.
  intros hash f [pc d p vl hv vpc vsc opc lk]. apply orbset_wf_ext;
  unfold sync_array, update_hash; cbn;
  destruct (negb (hv =? hash vl)), f; cbn;
  try (destruct (derive_arrays _ _ _) as [[? ?] ?]); reflexivity.
Qed.

Lemma add_vacancies_loop_wf : forall vs s,
  orbset_wf s -> orbset_wf (fst (add_vacancies_loop s vs)).
Proof.
  intros vs. induction vs as [|v vs IH]; intros s Hs; cbn; [exact Hs|].
  destruct (check_id_pc s v) as [[]|e] eqn:Ec;
    [|destruct e; exact Hs].
  apply IH. destruct (id_pc_mem v (vacancy_list s)) eqn:Em; [exact Hs|].
  destruct Hs as (H0 & H1 & H2 & Hn & Hnd & Hv).
  unfold orbset_wf; cbn. repeat split; try assumption.
  - apply (Permutation_NoDup (Permutation_cons_append _ _)). constructor;
      [|exact Hnd].
    intros Hin. apply id_pc_mem_iff in Hin. congruence.
  - apply Forall_app. split; [exact Hv | constructor; [exact Ec | constructor]].
Qed.

Lemma add_vacancies_wf : forall hash vs sync f s,
  orbset_wf s -> orbset_wf (fst (add_vacancies hash vs sync f s)).
Proof.
  intros hash vs sync f s Hs. unfold add_vacancies.
  destruct (check_lock s); [|exact Hs].
  pose proof (add_vacancies_loop_wf vs s Hs) as Hl.
  destruct (add_vacancies_loop s vs) as [s' [r|e]]; cbn in *; [|exact Hl].
  destruct sync; [apply sync_array_wf|]; exact Hl.
Qed.

Lemma set_vacancies_wf : forall hash vs sync f s,
  0 <= dim_item s 0 -> 0 <= dim_item s 1 -> 0 <= dim_item s 2 ->
  0 <= num_orb_pc s -> orbset_wf (fst (set_vacancies hash vs sync f s)).
Proof.
  intros hash vs sync f s H0 H1 H2 Hn. unfold set_vacancies.
  assert (Hs : orbset_wf (set_vacancy_list s [])).
  { unfold orbset_wf; cbn. repeat split; auto; constructor. }
  destruct vs as [l|]; [apply add_vacancies_wf; exact Hs|].
  destruct (check_lock _); exact Hs.
Qed.

(** ** C2: fast and general hopping builders *)

(** Class of a cell offset: no move along a free axis. *)
Definition rn_pbc (p : bool * bool * bool) (r : rn_type) : bool :=
  (pbc_item p 0 || (rn_item r 0 =? 0)) &&
  (pbc_item p 1 || (rn_item r 1 =? 0)) &&
  (pbc_item p 2 || (rn_item r 2 =? 0)).

Definition term_pbc (p : bool * bool * bool) (t : hop_term) : bool :=
  rn_pbc p (t_rn t).

Lemma is_pbc_hop_rn : forall p h, is_pbc_hop p h = rn_pbc p (hop_rn h).
Proof. reflexivity. Qed.

Lemma rn_pbc_neg : forall p r, rn_pbc p (rn_neg r) = rn_pbc p r.
Proof.
  intros [[p0 p1] p2] [[a b] c]. unfold rn_pbc, rn_neg; cbn.
  replace (- a =? 0) with (a =? 0) by (destruct (Z.eqb_spec a 0), (Z.eqb_spec (- a) 0); lia).
  replace (- b =? 0) with (b =? 0) by (destruct (Z.eqb_spec b 0), (Z.eqb_spec (- b) 0); lia).
  replace (- c =? 0) with (c =? 0) by (destruct (Z.eqb_spec c 0), (Z.eqb_spec (- c) 0); lia).
  reflexivity.
Qed.

Lemma conj_of_class : forall (f : rn_type -> bool) u t,
  (forall r, f (rn_neg r) = f r) ->
  conj_of u t = true -> f (t_rn u) = f (t_rn t).
Proof.
  intros f u t Hf H. unfold conj_of in H.
  apply andb_true_iff in H as [_ H]. apply rn_eqb_spec in H.
  rewrite H. apply Hf.
Qed.

Lemma filter_reduce_conj_acc : forall (f : hop_term -> bool),
  (forall u t, conj_of u t = true -> f u = f t) ->
  forall l kept,
  filter f (reduce_conj_acc kept l) = reduce_conj_acc (filter f kept) (filter f l).
Proof.
  intros f Hf l. induction l as [|t l IH]; intros kept; cbn; [reflexivity|].
  destruct (existsb (fun u => conj_of u t) kept) eqn:E.
  - rewrite IH. destruct (f t) eqn:Ft; cbn; [|reflexivity].
    replace (existsb (fun u => conj_of u t) (filter f kept)) with true;
      [reflexivity|].
    symmetry. apply existsb_exists in E as [u [Hu Hc]].
    apply existsb_exists. exists u. split; [|exact Hc].
    apply filter_In. split; [exact Hu|]. rewrite (Hf u t Hc). exact Ft.
  - rewrite IH, filter_app. cbn. destruct (f t) eqn:Ft; cbn.
    + replace (existsb (fun u => conj_of u t) (filter f kept)) with false;
        [reflexivity|].
      symmetry. apply not_true_iff_false. intros E'.
      apply existsb_exists in E' as [u [Hu Hc]]. apply filter_In in Hu as [Hu _].
      assert (existsb (fun u => conj_of u t) kept = true)
        by (apply existsb_exists; eauto).
      congruence.
    + rewrite app_nil_r. reflexivity.
Qed.

Lemma filter_reduce_conj : forall (f : hop_term -> bool),
  (forall u t, conj_of u t = true -> f u = f t) ->
  forall l, filter f (reduce_conj l) = reduce_conj (filter f l).
Proof. intros. apply filter_reduce_conj_acc. assumption. Qed.

Lemma reduce_conj_acc_incl : forall l kept t,
  In t (reduce_conj_acc kept l) -> In t kept \/ In t l.
Proof.
  induction l as [|x l IH]; intros kept t H; cbn in H; [auto|].
  destruct (existsb _ kept); apply IH in H as [H|H]; cbn; auto.
  apply in_app_or in H as [H|[<-|[]]]; auto.
Qed.

Lemma reduce_conj_incl : forall l t, In t (reduce_conj l) -> In t l.
Proof. intros l t H. apply reduce_conj_acc_incl in H as [[]|H]. exact H. Qed.

Lemma filter_flat_map : forall (A B : Type) (f : B -> bool) (g : A -> list B) l,
  filter f (flat_map g l) = flat_map (fun x => filter f (g x)) l.
Proof. intros. induction l; cbn; [reflexivity|]. rewrite filter_app. congruence. Qed.

Lemma filter_const : forall (A : Type) (f : A -> bool) (b : bool) l,
  (forall x, In x l -> f x = b) -> filter f l = if b then l else [].
Proof.
  intros A f b l H. induction l as [|x l IH]; cbn; [destruct b; reflexivity|].
  rewrite H by (left; reflexivity). rewrite IH by (intros; apply H; right; assumption).
  destruct b; reflexivity.
Qed.

Lemma flat_map_ext_in : forall (A B : Type) (f g : A -> list B) l,
  (forall x, In x l -> f x = g x) -> flat_map f l = flat_map g l.
Proof.
  intros A B f g l H. induction l as [|x l IH]; cbn; [reflexivity|].
  rewrite H by (left; reflexivity). rewrite IH by (intros; apply H; right; assumption).
  reflexivity.
Qed.

Lemma replicas_rn : forall d p n vac h t,
  In t (hop_replicas d p n vac h) -> t_rn t = hop_rn h.
Proof.
  intros d p n vac h t H. unfold hop_replicas in H.
  apply in_flat_map in H as [a [_ H]]. apply in_flat_map in H as [b [_ H]].
  apply in_flat_map in H as [c [_ H]].
  repeat match type of H with
  | context [wrap_axis ?x ?y ?z] => destruct (wrap_axis x y z)
  end; try contradiction.
  match type of H with
  | context [if ?b then _ else _] => destruct b
  end; [contradiction|]. destruct H as [<-|[]]. reflexivity.
Qed.

Lemma filter_replicas : forall (f : rn_type -> bool) d p n vac hops,
  filter (fun t => f (t_rn t)) (flat_map (hop_replicas d p n vac) hops)
  = flat_map (hop_replicas d p n vac) (filter (fun h => f (hop_rn h)) hops).
Proof.
  intros f d p n vac hops. rewrite filter_flat_map.
  induction hops as [|h hops IH]; cbn; [reflexivity|].
  rewrite (filter_const _ _ (f (hop_rn h))).
  - destruct (f (hop_rn h)); cbn; rewrite IH; reflexivity.
  - intros t Ht. rewrite (replicas_rn _ _ _ _ _ _ Ht). reflexivity.
Qed.

Lemma flat_nonneg : forall d n q, In q (all_id_pc d n) -> 0 <= id_pc2sc_flat d n q.
Proof.
  intros d n q H. apply in_all_id_pc in H as (a & b & c & o & -> & Ha & Hb & Hc & Ho).
  unfold id_pc2sc_flat.
  assert (0 <= a * rn_item d 1 + b) by (apply Z.add_nonneg_nonneg; [apply Z.mul_nonneg_nonneg|]; lia).
  assert (0 <= (a * rn_item d 1 + b) * rn_item d 2 + c)
    by (apply Z.add_nonneg_nonneg; [apply Z.mul_nonneg_nonneg|]; lia).
  apply Z.add_nonneg_nonneg; [apply Z.mul_nonneg_nonneg|]; lia.
Qed.

Lemma wrap_axis_range : forall x d per y, 0 < d ->
  wrap_axis x d per = Some y -> 0 <= y < d /\ (per = false -> y = x).
Proof.
  intros x d per y Hd H. unfold wrap_axis in H. destruct per.
  - injection H as <-. split; [apply Z.mod_pos_bound; exact Hd | discriminate].
  - destruct (in_range x d) eqn:E; [|discriminate]. injection H as <-.
    apply in_range_spec in E. auto.
Qed.

Lemma replicas_shape : forall d p n h t,
  0 <= hop_orb_i h < n -> 0 <= hop_orb_j h < n ->
  In t (hop_replicas d p n None h) ->
  exists a b c ja jb jc,
    In [a; b; c; hop_orb_i h] (all_id_pc d n) /\
    In [ja; jb; jc; hop_orb_j h] (all_id_pc d n) /\
    t_i t = id_pc2sc_flat d n [a; b; c; hop_orb_i h] /\
    t_j t = id_pc2sc_flat d n [ja; jb; jc; hop_orb_j h] /\
    t_rn t = hop_rn h /\
    (pbc_item p 0 = false -> ja = a + rn_item (hop_rn h) 0) /\
    (pbc_item p 1 = false -> jb = b + rn_item (hop_rn h) 1) /\
    (pbc_item p 2 = false -> jc = c + rn_item (hop_rn h) 2).
Proof.
  intros d p n h t Hi Hj H. unfold hop_replicas in H.
  apply in_flat_map in H as [a [Ha H]]. apply in_flat_map in H as [b [Hb H]].
  apply in_flat_map in H as [c [Hc H]]. rewrite in_zrange in Ha, Hb, Hc.
  destruct (wrap_axis (a + _) _ _) as [ja|] eqn:Ea; [|contradiction].
  destruct (wrap_axis (b + _) _ _) as [jb|] eqn:Eb; [|contradiction].
  destruct (wrap_axis (c + _) _ _) as [jc|] eqn:Ec; [|contradiction].
  apply wrap_axis_range in Ea as [Ra Fa]; [|lia].
  apply wrap_axis_range in Eb as [Rb Fb]; [|lia].
  apply wrap_axis_range in Ec as [Rc Fc]; [|lia].
  match type of H with
  | context [if ?b then _ else _] => destruct b
  end; [contradiction|]. destruct H as [<-|[]].
  exists a, b, c, ja, jb, jc. cbn [t_i t_j t_rn id_pc2sc].
  repeat split; auto; apply in_all_id_pc; do 4 eexists; (split; [reflexivity|]); lia.
Qed.

Lemma flat_not_vac : forall d n q, In q (all_id_pc d n) ->
  (id_pc2sc_flat d n q =? -1) = false.
Proof.
  intros d n q H. pose proof (flat_nonneg d n q H).
  destruct (Z.eqb_spec (id_pc2sc_flat d n q) (-1)); [lia | reflexivity].
Qed.

Lemma wrap_pbc : forall x r d per, 0 <= x < d -> (per || (r =? 0)) = true ->
  wrap_axis (x + r) d per = Some (pbc_shift x r d per) /\
  0 <= pbc_shift x r d per < d.
Proof.
  intros x r d per Hx H. unfold wrap_axis, pbc_shift. destruct per; cbn in H.
  - split; [reflexivity | apply Z.mod_pos_bound; lia].
  - apply Z.eqb_eq in H. subst r.
    replace (in_range (x + 0) d) with true by (symmetry; apply in_range_spec; lia).
    split; [reflexivity | lia].
Qed.

Lemma map_as_flat_map : forall (A B : Type) (g : A -> B) l,
  map g l = flat_map (fun x => [g x]) l.
Proof. intros. induction l; cbn; congruence. Qed.

Lemma build_hop_pbc_replicas : forall hops d p n,
  Forall (fun h => is_pbc_hop p h = true /\ 0 <= hop_orb_i h < n /\
                   0 <= hop_orb_j h < n) hops ->
  build_hop_pbc hops d p n = reduce_conj (flat_map (hop_replicas d p n None) hops).
Proof.
  intros hops d p n H. unfold build_hop_pbc. f_equal.
  induction H as [|h hops [Hp [Hi Hj]] _ IH]; cbn [flat_map]; [reflexivity|].
  rewrite IH. f_equal. unfold hop_replicas.
  apply flat_map_ext_in. intros a Ha. apply flat_map_ext_in. intros b Hb.
  rewrite map_as_flat_map. apply flat_map_ext_in. intros c Hc.
  rewrite in_zrange in Ha, Hb, Hc.
  unfold is_pbc_hop in Hp. apply andb_true_iff in Hp as [Hp Hp2].
  apply andb_true_iff in Hp as [Hp0 Hp1].
  destruct (wrap_pbc _ _ _ _ Ha Hp0) as [-> Ra].
  destruct (wrap_pbc _ _ _ _ Hb Hp1) as [-> Rb].
  destruct (wrap_pbc _ _ _ _ Hc Hp2) as [-> Rc].
  cbn [id_pc2sc].
  rewrite !flat_not_vac; [reflexivity| |];
    apply in_all_id_pc; do 4 eexists; (split; [reflexivity|]); lia.
Qed.

(** Contract of the primitive cell: both orbitals of a hopping term exist. *)
Definition orbs_in_range (n : Z) (h : pc_hop) : Prop :=
  0 <= hop_orb_i h < n /\ 0 <= hop_orb_j h < n.

(** An [(i, j)] pair emitted for a periodic-safe term is never emitted for a
    free term: the two cells agree on every free axis in the first case and
    not in the second. *)
Lemma key_separated : forall d p n hops,
  Forall (orbs_in_range n) hops ->
  forall t u,
  In t (flat_map (hop_replicas d p n None) (filter (is_pbc_hop p) hops)) ->
  In u (flat_map (hop_replicas d p n None)
          (filter (fun h => negb (is_pbc_hop p h)) hops)) ->
  (t_i t, t_j t) <> (t_i u, t_j u).
Proof.
  intros d p n hops Hr t u Ht Hu E. injection E as Ei Ej.
  apply in_flat_map in Ht as [h [Hh Ht]]. apply in_flat_map in Hu as [h' [Hh' Hu]].
  apply filter_In in Hh as [Hh Hp]. apply filter_In in Hh' as [Hh' Hp'].
  rewrite Forall_forall in Hr. destruct (Hr h Hh) as [Hi Hj].
  destruct (Hr h' Hh') as [Hi' Hj'].
  destruct (replicas_shape d p n h t Hi Hj Ht)
    as (a & b & c & ja & jb & jc & Ii & Ij & Ti & Tj & _ & F0 & F1 & F2).
  destruct (replicas_shape d p n h' u Hi' Hj' Hu)
    as (a' & b' & c' & ja' & jb' & jc' & Ii' & Ij' & Ti' & Tj' & _ & F0' & F1' & F2').
  pose proof Ii as Ii0. apply in_all_id_pc in Ii0 as (? & ? & ? & ? & _ & R0 & R1 & R2 & Rn).
  assert (Ei' : [a; b; c; hop_orb_i h] = [a'; b'; c'; hop_orb_i h'])
    by (apply (flat_inj d n ltac:(lia) ltac:(lia) ltac:(lia) ltac:(lia) _ _ Ii Ii'); congruence).
  assert (Ej' : [ja; jb; jc; hop_orb_j h] = [ja'; jb'; jc'; hop_orb_j h'])
    by (apply (flat_inj d n ltac:(lia) ltac:(lia) ltac:(lia) ltac:(lia) _ _ Ij Ij'); congruence).
  injection Ei' as -> -> -> _. injection Ej' as -> -> -> _.
  unfold is_pbc_hop in Hp, Hp'.
  destruct (pbc_item p 0), (pbc_item p 1), (pbc_item p 2); cbn in Hp, Hp';
    try discriminate;
    repeat match goal with
    | H : context [?x =? 0] |- _ => destruct (Z.eqb_spec x 0)
    end; cbn in Hp, Hp'; try discriminate;
    repeat match goal with
    | H : false = false -> _ |- _ => specialize (H eq_refl)
    end; lia.
Qed.

(** *** The modifier merge on interleaved blocks *)

(** Interleaving of two lists along a schedule ([true]: next of [P]). *)
Fixpoint weave {A} (s : list bool) (P F : list A) : list A :=
  match s with
  | [] => P ++ F
  | true :: s' =>
      match P with [] => weave s' [] F | x :: P' => x :: weave s' P' F end
  | false :: s' =>
      match F with [] => weave s' P [] | y :: F' => y :: weave s' P F' end
  end.

Lemma weave_perm : forall (A : Type) s (P F : list A),
  Permutation (weave s P F) (P ++ F).
Proof.
  intros A s. induction s as [|[] s IH]; intros P F; cbn; [apply Permutation_refl| |].
  - destruct P as [|x P]; [apply IH|]. cbn. apply perm_skip, IH.
  - destruct F as [|y F]; [rewrite IH; rewrite app_nil_r; apply Permutation_refl|].
    eapply perm_trans; [apply perm_skip, IH|]. apply Permutation_middle.
Qed.

Lemma weave_map : forall (A B : Type) (g : A -> B) s P F,
  map g (weave s P F) = weave s (map g P) (map g F).
Proof.
  intros A B g s. induction s as [|[] s IH]; intros P F; cbn.
  - apply map_app.
  - destruct P; cbn; rewrite IH; reflexivity.
  - destruct F; cbn; rewrite IH; reflexivity.
Qed.

Lemma weave_filter : forall (A : Type) (f : A -> bool) l,
  weave (map f l) (filter f l) (filter (fun x => negb (f x)) l) = l.
Proof.
  intros A f l. induction l as [|x l IH]; cbn; [reflexivity|].
  destruct (f x); cbn; rewrite IH; reflexivity.
Qed.

Definition trip := (Z * Z * cplx)%type.

(** Overwrite the energy of the first triple whose [(i, j)] satisfies [f]. *)
Fixpoint upd_first (f : Z -> Z -> bool) (e : cplx) (T : list trip)
    : option (list trip) :=
  match T with
  | [] => None
  | (x, y, v) :: T' =>
      if f x y then Some ((x, y, e) :: T')
      else option_map (cons (x, y, v)) (upd_first f e T')
  end.

Definition no_match (f : Z -> Z -> bool) (T : list trip) : Prop :=
  forall x y v, In (x, y, v) T -> f x y = false.

Lemma upd_first_none : forall f e T, upd_first f e T = None -> no_match f T.
Proof.
  intros f e T. induction T as [|[[x y] v] T IH]; cbn; intros H x' y' v' Hin;
    [contradiction|].
  destruct (f x y) eqn:E; [discriminate|].
  destruct (upd_first f e T); [discriminate|].
  destruct Hin as [Hin|Hin]; [injection Hin as -> -> ->; exact E|].
  eapply IH; eauto.
Qed.

Lemma upd_first_no_match : forall f e T, no_match f T -> upd_first f e T = None.
Proof.
  intros f e T. induction T as [|[[x y] v] T IH]; cbn; intros H; [reflexivity|].
  rewrite (H x y v) by (left; reflexivity).
  rewrite IH; [reflexivity|]. intros ? ? ? Hin. eapply H. right. exact Hin.
Qed.

Lemma upd_first_some : forall f e T T', upd_first f e T = Some T' ->
  (exists x y v, In (x, y, v) T /\ f x y = true) /\ map fst T' = map fst T.
Proof.
  intros f e T. induction T as [|[[x y] v] T IH]; cbn; intros T' H; [discriminate|].
  destruct (f x y) eqn:E.
  - injection H as <-. split; [exists x, y, v; auto | reflexivity].
  - destruct (upd_first f e T) as [T''|] eqn:E'; [|discriminate].
    injection H as <-. destruct (IH T'' eq_refl) as [(x' & y' & v' & Hin & Ef) Hk].
    split; [exists x', y', v'; auto | cbn; congruence].
Qed.

Lemma upd_weave_l : forall f e s P F, no_match f F ->
  upd_first f e (weave s P F) = option_map (fun P' => weave s P' F) (upd_first f e P).
Proof.
  intros f e s. induction s as [|[] s IH]; intros P F HF; cbn.
  - induction P as [|[[x y] v] P IHP]; cbn.
    + apply upd_first_no_match. exact HF.
    + destruct (f x y); [reflexivity|]. rewrite IHP.
      destruct (upd_first f e P); reflexivity.
  - destruct P as [|[[x y] v] P]; [apply IH; exact HF|]. cbn.
    destruct (f x y); [reflexivity|]. rewrite IH by exact HF.
    destruct (upd_first f e P); reflexivity.
  - destruct F as [|[[x y] v] F]; [apply IH; exact HF|]. cbn.
    rewrite (HF x y v) by (left; reflexivity).
    rewrite IH by (intros ? ? ? Hin; eapply HF; right; exact Hin).
    destruct (upd_first f e P); reflexivity.
Qed.

Lemma upd_weave_r : forall f e s P F, no_match f P ->
  upd_first f e (weave s P F) = option_map (weave s P) (upd_first f e F).
Proof.
  intros f e s. induction s as [|[] s IH]; intros P F HP; cbn.
  - induction P as [|[[x y] v] P IHP]; cbn; [destruct (upd_first f e F); reflexivity|].
    rewrite (HP x y v) by (left; reflexivity).
    rewrite IHP by (intros ? ? ? Hin; eapply HP; right; exact Hin).
    destruct (upd_first f e F); reflexivity.
  - destruct P as [|[[x y] v] P]; [apply IH; exact HP|]. cbn.
    rewrite (HP x y v) by (left; reflexivity).
    rewrite IH by (intros ? ? ? Hin; eapply HP; right; exact Hin).
    destruct (upd_first f e F); reflexivity.
  - destruct F as [|[[x y] v] F]; [apply IH; exact HP|]. cbn.
    destruct (f x y); [reflexivity|]. rewrite IH by exact HP.
    destruct (upd_first f e F); reflexivity.
Qed.

Definition key_eq (bra ket : Z) : Z -> Z -> bool :=
  fun x y => (x =? bra) && (y =? ket).

(** The [get_hop] merge on the triples [(hop_i, hop_j, hop_v)], with the
    appended terms kept apart. *)
Definition merge_T (st : list trip * list trip) (row : hop_row)
    : list trip * list trip :=
  let '(T, news) := st in
  let '(_, bra, ket, e) := row in
  match upd_first (key_eq bra ket) e T with
  | Some T' => (T', news)
  | None =>
      match upd_first (key_eq ket bra) (conjugate e) T with
      | Some T' => (T', news)
      | None => (T, news ++ [(bra, ket, e)])
      end
  end.

(** The same merge on two blocks searched one after the other. *)
Definition merge_pair (st : list trip * list trip * list trip) (row : hop_row)
    : list trip * list trip * list trip :=
  let '(P, F, news) := st in
  let '(_, bra, ket, e) := row in
  match upd_first (key_eq bra ket) e P with
  | Some P' => (P', F, news)
  | None =>
  match upd_first (key_eq bra ket) e F with
  | Some F' => (P, F', news)
  | None =>
  match upd_first (key_eq ket bra) (conjugate e) P with
  | Some P' => (P', F, news)
  | None =>
  match upd_first (key_eq ket bra) (conjugate e) F with
  | Some F' => (P, F', news)
  | None => (P, F, news ++ [(bra, ket, e)])
  end end end end.

Definition separated (P F : list trip) : Prop :=
  forall x y v v', In (x, y, v) P -> In (x, y, v') F -> False.

Lemma key_eq_unique : forall bra ket x y x' y',
  key_eq bra ket x y = true -> key_eq bra ket x' y' = true -> x = x' /\ y = y'.
Proof.
  unfold key_eq. intros. rewrite !andb_true_iff, !Z.eqb_eq in *. lia.
Qed.

Lemma sep_upd_l : forall bra ket e P F P', separated P F ->
  upd_first (key_eq bra ket) e P = Some P' -> no_match (key_eq bra ket) F.
Proof.
  intros bra ket e P F P' Hs Hu x y v Hin.
  destruct (key_eq bra ket x y) eqn:E; [|reflexivity]. exfalso.
  destruct (upd_first_some _ _ _ _ Hu) as [(x' & y' & v' & Hin' & E') _].
  destruct (key_eq_unique _ _ _ _ _ _ E' E) as [-> ->]. eapply Hs; eauto.
Qed.

Lemma in_same_keys : forall (T T' : list trip) x y v, map fst T' = map fst T ->
  In (x, y, v) T' -> exists v0, In (x, y, v0) T.
Proof.
  intros T T' x y v Hk Hin. apply (in_map fst) in Hin. rewrite Hk in Hin.
  apply in_map_iff in Hin as [[[x0 y0] v0] [E Hin]]. cbn in E.
  injection E as -> ->. eauto.
Qed.

Lemma sep_keys : forall (P F P' F' : list trip), separated P F ->
  map fst P' = map fst P -> map fst F' = map fst F -> separated P' F'.
Proof.
  intros P F P' F' Hs HP HF x y v v' Hp Hf.
  destruct (in_same_keys _ _ _ _ _ HP Hp) as [w Hw].
  destruct (in_same_keys _ _ _ _ _ HF Hf) as [w' Hw'].
  eapply Hs; eauto.
Qed.

Lemma merge_weave : forall s P F news row, separated P F ->
  let '(P', F', news') := merge_pair (P, F, news) row in
  merge_T (weave s P F, news) row = (weave s P' F', news') /\ separated P' F'.
Proof.
  intros s P F news [[[r bra] ket] e] Hs. unfold merge_pair, merge_T.
  destruct (upd_first (key_eq bra ket) e P) as [P'|] eqn:E1.
  { rewrite upd_weave_l by exact (sep_upd_l _ _ _ _ _ _ Hs E1). rewrite E1.
    split; [reflexivity|]. eapply sep_keys; [exact Hs | | reflexivity].
    apply (upd_first_some _ _ _ _ E1). }
  rewrite (upd_weave_r _ _ _ _ _ (upd_first_none _ _ _ E1)).
  destruct (upd_first (key_eq bra ket) e F) as [F'|] eqn:E2.
  { split; [reflexivity|]. eapply sep_keys; [exact Hs | reflexivity |].
    apply (upd_first_some _ _ _ _ E2). }
  cbn [option_map].
  destruct (upd_first (key_eq ket bra) (conjugate e) P) as [P'|] eqn:E3.
  { rewrite upd_weave_l by exact (sep_upd_l _ _ _ _ _ _ Hs E3). rewrite E3.
    split; [reflexivity|]. eapply sep_keys; [exact Hs | | reflexivity].
    apply (upd_first_some _ _ _ _ E3). }
  rewrite (upd_weave_r _ _ _ _ _ (upd_first_none _ _ _ E3)).
  destruct (upd_first (key_eq ket bra) (conjugate e) F) as [F'|] eqn:E4.
  { split; [reflexivity|]. eapply sep_keys; [exact Hs | reflexivity |].
    apply (upd_first_some _ _ _ _ E4). }
  split; [reflexivity | exact Hs].
Qed.

Lemma fold_merge_weave : forall rows s P F news, separated P F ->
  let '(P', F', news') := fold_left merge_pair rows (P, F, news) in
  fold_left merge_T rows (weave s P F, news) = (weave s P' F', news').
Proof.
  induction rows as [|row rows IH]; intros s P F news Hs; cbn [fold_left]; [reflexivity|].
  pose proof (merge_weave s P F news row Hs) as Hm.
  destruct (merge_pair (P, F, news) row) as [[P' F'] news'].
  destruct Hm as [-> Hs']. apply IH. exact Hs'.
Qed.

Definition triples (hi hj : list Z) (hv : list cplx) : list trip :=
  combine (combine hi hj) hv.

Lemma combine_app : forall (A B : Type) (l1 l1' : list A) (l2 l2' : list B),
  length l1 = length l2 ->
  combine (l1 ++ l1') (l2 ++ l2') = combine l1 l2 ++ combine l1' l2'.
Proof.
  intros A B l1. induction l1 as [|x l1 IH]; intros l1' [|y l2] l2' H;
    cbn in *; try discriminate; [reflexivity|]. rewrite IH by lia. reflexivity.
Qed.

Lemma length_set_nth : forall (A : Type) (l : list A) k x,
  length (set_nth l k x) = length l.
Proof. intros A l. induction l; intros [|k] x; cbn; auto. Qed.

Lemma find_first_upd : forall f e hi hj hv k0,
  length hi = length hv -> length hj = length hv -> 0 <= k0 ->
  match upd_first f e (triples hi hj hv) with
  | None => find_first f hi hj k0 = -1
  | Some T' => exists m, find_first f hi hj k0 = k0 + Z.of_nat m /\
               T' = triples hi hj (set_nth hv m e)
  end.
Proof.
  intros f e hi. unfold triples. induction hi as [|x hi IH];
    intros [|y hj] [|v hv] k0 H1 H2 Hk; cbn in *; try discriminate; try reflexivity.
  destruct (f x y).
  - exists O. split; [lia | reflexivity].
  - specialize (IH hj hv (k0 + 1) ltac:(lia) ltac:(lia) ltac:(lia)).
    destruct (upd_first f e (combine (combine hi hj) hv)) as [T'|]; cbn; [|exact IH].
    destruct IH as [m [Em ->]]. exists (S m). split; [lia | reflexivity].
Qed.

Ltac merge_case f hi hj hv e :=
  let H := fresh "H" in
  pose proof (find_first_upd f e hi hj hv 0 ltac:(assumption) ltac:(assumption)
                ltac:(lia)) as H;
  destruct (upd_first f e (triples hi hj hv)) as [?T|];
  [ let m := fresh "m" in
    let Hm := fresh "Hm" in
    destruct H as [m [Hm ->]]; rewrite Hm, Z.add_0_l;
    replace (negb (Z.of_nat m =? -1)) with true
      by (destruct (Z.eqb_spec (Z.of_nat m) (-1)); [lia | reflexivity]);
    rewrite Nat2Z.id
  | rewrite H; cbn [negb Z.eqb Pos.eqb] ].

Lemma merge_step_T : forall hi hj hv inew jnew vnew row,
  length hi = length hv -> length hj = length hv ->
  length inew = length vnew -> length jnew = length vnew ->
  let '(hv', inew', jnew', vnew') := merge_step hi hj (hv, inew, jnew, vnew) row in
  merge_T (triples hi hj hv, triples inew jnew vnew) row
    = (triples hi hj hv', triples inew' jnew' vnew') /\
  length hv' = length hv /\ length inew' = length vnew' /\
  length jnew' = length vnew'.
Proof.
  intros hi hj hv inew jnew vnew [[[r bra] ket] e] H1 H2 H3 H4.
  unfold merge_step, merge_T, find_equiv_hopping.
  change (fun x y => (x =? bra) && (y =? ket)) with (key_eq bra ket).
  change (fun x y => (x =? ket) && (y =? bra)) with (key_eq ket bra).
  merge_case (key_eq bra ket) hi hj hv e.
  { repeat split; auto. apply length_set_nth. }
  merge_case (key_eq ket bra) hi hj hv (conjugate e).
  { repeat split; auto. apply length_set_nth. }
  split; [|rewrite !length_app; cbn; repeat split; lia].
  unfold triples. rewrite !combine_app by (rewrite ?length_combine; lia).
  reflexivity.
Qed.

Lemma fold_merge_step_T : forall rows hi hj hv inew jnew vnew,
  length hi = length hv -> length hj = length hv ->
  length inew = length vnew -> length jnew = length vnew ->
  let '(hv', inew', jnew', vnew') :=
    fold_left (merge_step hi hj) rows (hv, inew, jnew, vnew) in
  fold_left merge_T rows (triples hi hj hv, triples inew jnew vnew)
    = (triples hi hj hv', triples inew' jnew' vnew') /\
  length hv' = length hv /\ length inew' = length vnew' /\
  length jnew' = length vnew'.
Proof.
  induction rows as [|row rows IH]; intros hi hj hv inew jnew vnew H1 H2 H3 H4;
    cbn [fold_left]; [auto|].
  pose proof (merge_step_T hi hj hv inew jnew vnew row H1 H2 H3 H4) as Hs.
  destruct (merge_step hi hj (hv, inew, jnew, vnew) row) as [[[hv1 i1] j1] v1].
  destruct Hs as [-> [L1 [L2 L3]]].
  specialize (IH hi hj hv1 i1 j1 v1 ltac:(lia) ltac:(lia) L2 L3).
  destruct (fold_left (merge_step hi hj) rows (hv1, i1, j1, v1)) as [[[hv2 i2] j2] v2].
  destruct IH as [-> [? [? ?]]]. repeat split; auto; lia.
Qed.

Lemma apply_hop_modifier_T : forall hi hj hv rows,
  length hi = length hv -> length hj = length hv ->
  let '(i', j', v') := apply_hop_modifier hi hj hv rows in
  length i' = length v' /\ length j' = length v' /\
  triples i' j' v' =
    let '(T, news) := fold_left merge_T rows (triples hi hj hv, []) in T ++ news.
Proof.
  intros hi hj hv rows H1 H2. unfold apply_hop_modifier.
  pose proof (fold_merge_step_T rows hi hj hv [] [] [] H1 H2 eq_refl eq_refl) as H.
  destruct (fold_left (merge_step hi hj) rows (hv, [], [], [])) as [[[hv' i'] j'] v'].
  destruct H as [He [L1 [L2 L3]]]. change (triples [] [] []) with (@nil trip) in He.
  rewrite He.
  rewrite !length_app. split; [lia | split; [lia|]].
  unfold triples. rewrite !combine_app by (rewrite ?length_combine; lia).
  reflexivity.
Qed.

Definition trip_of (t : hop_term) : trip := (t_i t, t_j t, t_v t).

Lemma hop_arrays_triples : forall L,
  let '(hi, hj, hv) := hop_arrays L in
  triples hi hj hv = map trip_of L /\ length hi = length hv /\ length hj = length hv.
Proof.
  intros L. unfold hop_arrays, triples. rewrite !length_map.
  split; [|auto]. induction L as [|t L IH]; cbn; [reflexivity|]. rewrite IH. reflexivity.
Qed.

Lemma sync_array_shape : forall hash f o,
  prim_cell (sync_array hash f o) = prim_cell o /\ dim (sync_array hash f o) = dim o /\
  pbc (sync_array hash f o) = pbc o /\
  vacancy_list (sync_array hash f o) = vacancy_list o.
Proof.
  intros hash f [pc d p vl hv vpc vsc opc lk]. unfold sync_array, update_hash; cbn.
  destruct (negb (hv =? hash vl)), f; cbn;
    try (destruct (derive_arrays _ _ _) as [[? ?] ?]); auto.
Qed.

Lemma sync_array_no_vac : forall hash f o,
  vacancy_list o = [] -> vac_id_sc o = None -> vac_id_sc (sync_array hash f o) = None.
Proof.
  intros hash f [pc d p vl hv vpc vsc opc lk] Hv Hs. cbn in Hv, Hs. subst.
  unfold sync_array, update_hash; cbn.
  destruct (negb (hv =? hash [])), f; reflexivity.
Qed.

Lemma get_hop_apply : forall hash b s,
  snd (get_hop hash (UseFast b) s) =
  let s' := sc_synced hash s in
  let '(hi, hj, hv) := if b then init_hop_fast s' else init_hop s' in
  apply_hop_modifier hi hj hv (hop_modifier s).
Proof.
  intros hash b [o m opm]. unfold get_hop, sc_synced, set_orbset; cbn [sc_orbset hop_modifier].
  destruct (if b then _ else _) as [[hi hj] hv].
  destruct (ih_num_hop m =? 0)%nat eqn:E; [|reflexivity].
  apply Nat.eqb_eq, length_zero_iff_nil in E. subst m. cbn.
  rewrite !app_nil_r. reflexivity.
Qed.

Lemma term_pbc_conj : forall p (g : bool -> bool) u t,
  conj_of u t = true -> g (term_pbc p u) = g (term_pbc p t).
Proof.
  intros p g u t H. unfold term_pbc. f_equal.
  apply (conj_of_class (rn_pbc p)); [apply rn_pbc_neg | exact H].
Qed.

Lemma sep_blocks : forall d p n hops,
  Forall (orbs_in_range n) hops ->
  separated
    (map trip_of (reduce_conj (flat_map (hop_replicas d p n None)
                                 (filter (is_pbc_hop p) hops))))
    (map trip_of (reduce_conj (flat_map (hop_replicas d p n None)
                                 (filter (fun h => negb (is_pbc_hop p h)) hops)))).
Proof.
  intros d p n hops Hr x y v v' Hp Hf.
  apply in_map_iff in Hp as [t [Et Ht]]. apply in_map_iff in Hf as [u [Eu Hu]].
  apply reduce_conj_incl in Ht. apply reduce_conj_incl in Hu.
  apply (key_separated d p n hops Hr t u Ht Hu).
  unfold trip_of in Et, Eu. injection Et as -> -> _. injection Eu as -> -> _.
  reflexivity.
Qed.

(** C2: for a supercell without vacancies (so that its table [vac_id_sc]
    is empty) over a primitive cell whose hopping terms use legal orbital
    indices, [get_hop] with [use_fast=True] and with [use_fast=False] return
    arrays of matching lengths whose triples [(hop_i, hop_j, hop_v)] are
    permutations of each other, the merge of the hopping modifier included. *)
Theorem get_hop_fast_general : forall hash s,
  vacancy_list (sc_orbset s) = [] ->
  vac_id_sc (sc_orbset s) = None ->
  Forall (orbs_in_range (num_orb_pc (sc_orbset s)))
    (hop_table (prim_cell (sc_orbset s))) ->
  let '(i1, j1, v1) := snd (get_hop hash (UseFast true) s) in
  let '(i2, j2, v2) := snd (get_hop hash (UseFast false) s) in
  length i1 = length v1 /\ length j1 = length v1 /\
  length i2 = length v2 /\ length j2 = length v2 /\
  Permutation (triples i1 j1 v1) (triples i2 j2 v2).
Proof.
  intros hash s Hv Hs Hr. rewrite !get_hop_apply. unfold sc_synced.
  destruct (sync_array_shape hash false (sc_orbset s)) as (Ep & Ed & Epb & _).
  pose proof (sync_array_no_vac hash false (sc_orbset s) Hv Hs) as Evs.
  unfold init_hop_fast, init_hop, set_orbset, num_orb_pc in *; cbn [sc_orbset].
  rewrite Ep, Ed, Epb, Evs.
  destruct s as [o rows opm]; cbn [sc_orbset hop_modifier] in *.
  set (hops := hop_table (prim_cell o)) in *. set (d := dim o).
  set (p := pbc o). set (n := num_orb (prim_cell o)) in *.
  clearbody hops d p n. clear Ep Ed Epb Evs Hv Hs.
  unfold split_pc_hop.
  rewrite build_hop_pbc_replicas.
  2:{ apply Forall_forall. intros h Hh. apply filter_In in Hh as [Hh Hp].
      rewrite Forall_forall in Hr. destruct (Hr h Hh) as [Hi Hj]. auto. }
  unfold build_hop, hop_arrays. cbv beta iota zeta.
  set (R := hop_replicas d p n None).
  set (GP := reduce_conj (flat_map R (filter (is_pbc_hop p) hops))).
  set (GF := reduce_conj (flat_map R (filter (fun h => negb (is_pbc_hop p h)) hops))).
  set (G := reduce_conj (flat_map R hops)).
  assert (E1 : filter (term_pbc p) G = GP).
  { unfold G, GP. rewrite filter_reduce_conj
      by (intros u t H; exact (term_pbc_conj p (fun b => b) u t H)).
    f_equal. exact (filter_replicas (rn_pbc p) d p n None hops). }
  assert (E2 : filter (fun t => negb (term_pbc p t)) G = GF).
  { unfold G, GF. rewrite filter_reduce_conj
      by (intros u t H; exact (term_pbc_conj p negb u t H)).
    f_equal. exact (filter_replicas (fun r => negb (rn_pbc p r)) d p n None hops). }
  assert (TG : triples (map t_i G) (map t_j G) (map t_v G)
               = weave (map (term_pbc p) G) (map trip_of GP) (map trip_of GF)).
  { pose proof (hop_arrays_triples G) as H. unfold hop_arrays in H.
    destruct H as [-> _]. rewrite <- E1, <- E2, <- weave_map, weave_filter.
    reflexivity. }
  assert (TF : triples (map t_i GP ++ map t_i GF) (map t_j GP ++ map t_j GF)
                 (map t_v GP ++ map t_v GF)
               = weave [] (map trip_of GP) (map trip_of GF)).
  { unfold triples. rewrite !combine_app by (rewrite ?length_combine, ?length_map; lia).
    pose proof (hop_arrays_triples GP) as HP. pose proof (hop_arrays_triples GF) as HF.
    unfold hop_arrays, triples in HP, HF. destruct HP as [-> _], HF as [-> _].
    reflexivity. }
  pose proof (apply_hop_modifier_T (map t_i GP ++ map t_i GF) (map t_j GP ++ map t_j GF)
                (map t_v GP ++ map t_v GF) rows
                ltac:(rewrite !length_app, !length_map; reflexivity)
                ltac:(rewrite !length_app, !length_map; reflexivity)) as A1.
  pose proof (apply_hop_modifier_T (map t_i G) (map t_j G) (map t_v G) rows
                ltac:(rewrite !length_map; reflexivity)
                ltac:(rewrite !length_map; reflexivity)) as A2.
  destruct (apply_hop_modifier (map t_i GP ++ map t_i GF) _ _ rows) as [[i1 j1] v1].
  destruct (apply_hop_modifier (map t_i G) _ _ rows) as [[i2 j2] v2].
  destruct A1 as (L1 & L2 & T1), A2 as (L3 & L4 & T2).
  repeat split; auto. rewrite T1, T2, TF, TG.
  assert (Hsep : separated (map trip_of GP) (map trip_of GF))
    by (apply sep_blocks; exact Hr).
  pose proof (fold_merge_weave rows [] _ _ [] Hsep) as W1.
  pose proof (fold_merge_weave rows (map (term_pbc p) G) _ _ [] Hsep) as W2.
  destruct (fold_left merge_pair rows (map trip_of GP, map trip_of GF, []))
    as [[P' F'] news'].
  rewrite W1, W2. apply Permutation_app_tail.
  eapply perm_trans; [apply weave_perm|]. apply Permutation_sym, weave_perm.
Qed.

(** The chain along [a] with a second hopping along [b]: [dim = (3, 2, 1)],
    [a] periodic and [b] free, the free term listed first, and a modifier
    entry overriding the hopping [0 -> 1]. *)
Definition pc_mixed : PrimitiveCell :=
  MkPrimitiveCell 1 [PcHop (0, 1, 0) 0 0 (Cplx 2 0); PcHop (1, 0, 0) 0 0 (Cplx 1 0)].

Definition mixed_sc : SuperCell :=
  MkSuperCell
    (MkOrbitalSet pc_mixed (3, 2, 1) (true, false, false) [] (hash_len [])
       None None (build_orb_id_pc (3, 2, 1) 1 None) false)
    [((0, 0, 0), 0, 1, Cplx 5 0)] None.

Lemma get_hop_fast_general_witness :
  vacancy_list (sc_orbset mixed_sc) = [] /\
  vac_id_sc (sc_orbset mixed_sc) = None /\
  Forall (orbs_in_range (num_orb_pc (sc_orbset mixed_sc)))
    (hop_table (prim_cell (sc_orbset mixed_sc))) /\
  let '(i1, j1, v1) := snd (get_hop hash_len (UseFast true) mixed_sc) in
  let '(i2, j2, v2) := snd (get_hop hash_len (UseFast false) mixed_sc) in
  length i1 = length v1 /\ length j1 = length v1 /\
  length i2 = length v2 /\ length j2 = length v2 /\
  Permutation (triples i1 j1 v1) (triples i2 j2 v2).
Proof.
  assert (H1 : vacancy_list (sc_orbset mixed_sc) = []) by reflexivity.
  assert (H2 : vac_id_sc (sc_orbset mixed_sc) = None) by reflexivity.
  assert (H3 : Forall (orbs_in_range (num_orb_pc (sc_orbset mixed_sc)))
                 (hop_table (prim_cell (sc_orbset mixed_sc)))).
  { apply Forall_forall. intros h [<-|[<-|[]]]; unfold orbs_in_range; cbn; lia. }
  split; [exact H1|]. split; [exact H2|]. split; [exact H3|].
  exact (get_hop_fast_general hash_len mixed_sc H1 H2 H3).
Defined.

(** On [mixed_sc] the two paths list the same triples in different orders;
    the modifier entry overrides the energy of [0 -> 1] in both. *)
Example get_hop_fast_general_order :
  snd (get_hop hash_len (UseFast true) mixed_sc)
    = ([0; 1; 2; 3; 4; 5; 0; 2; 4], [2; 3; 4; 5; 0; 1; 1; 3; 5],
       [Cplx 1 0; Cplx 1 0; Cplx 1 0; Cplx 1 0; Cplx 1 0; Cplx 1 0;
        Cplx 5 0; Cplx 2 0; Cplx 2 0]) /\
  snd (get_hop hash_len (UseFast false) mixed_sc)
    = ([0; 2; 4; 0; 1; 2; 3; 4; 5], [1; 3; 5; 2; 3; 4; 5; 0; 1],
       [Cplx 5 0; Cplx 2 0; Cplx 2 0; Cplx 1 0; Cplx 1 0; Cplx 1 0;
        Cplx 1 0; Cplx 1 0; Cplx 1 0]).
Proof. vm_compute. split; reflexivity. Qed.

(** ** Vacancy mutators *)

Lemma set_vacancy_list_eta : forall s, set_vacancy_list s (vacancy_list s) = s.
Proof. intros []. reflexivity. Qed.

Lemma set_vacancy_list_twice : forall s a b,
  set_vacancy_list (set_vacancy_list s a) b = set_vacancy_list s b.
Proof. reflexivity. Qed.

Lemma check_id_pc_set_vl : forall s l v,
  check_id_pc (set_vacancy_list s l) v = check_id_pc s v.
Proof. reflexivity. Qed.

(** The fields [sync_array] never touches. *)
Lemma sync_array_fields : forall hash f s,
  let s' := sync_array hash f s in
  vacancy_list s' = vacancy_list s /\ prim_cell s' = prim_cell s /\
  dim s' = dim s /\ pbc s' = pbc s /\ is_locked s' = is_locked s.
Proof.
  intros hash f [pc d p vl hv vpc vsc opc lk]. unfold sync_array, update_hash; cbn.
  destruct (negb (hv =? hash vl)), f; cbn;
    try (destruct (derive_arrays _ _ _) as [[? ?] ?]); repeat split.
Qed.

(** The loop of [add_vacancies], whatever its outcome, appends to the
    vacancy list some vacancies of the batch, without duplicates; when it
    succeeds every vacancy of the batch is in the list. *)
Lemma add_vacancies_loop_shape : forall vs s,
  NoDup (vacancy_list s) ->
  exists ext,
    fst (add_vacancies_loop s vs) = set_vacancy_list s (vacancy_list s ++ ext) /\
    NoDup (vacancy_list s ++ ext) /\ incl ext vs /\
    (snd (add_vacancies_loop s vs) = inl tt -> incl vs (vacancy_list s ++ ext)).
Proof.
  induction vs as [|v vs IH]; intros s Hn.
  - exists []. rewrite app_nil_r, set_vacancy_list_eta. cbn.
    repeat split; [exact Hn | intros x [] | intros _ x []].
  - cbn [add_vacancies_loop].
    destruct (check_id_pc s v) as [[]|e] eqn:Ec.
    + set (s1 := if id_pc_mem v (vacancy_list s) then s
                 else set_vacancy_list s (vacancy_list s ++ [v])).
      assert (Hv1 : exists pre, vacancy_list s1 = vacancy_list s ++ pre /\
                      incl pre [v] /\ In v (vacancy_list s1) /\
                      s1 = set_vacancy_list s (vacancy_list s1) /\
                      NoDup (vacancy_list s1)).
      { subst s1. destruct (id_pc_mem v (vacancy_list s)) eqn:Em.
        - exists []. rewrite app_nil_r, set_vacancy_list_eta.
          repeat split; [intros x []| apply id_pc_mem_iff; exact Em | exact Hn].
        - exists [v]. cbn. repeat split;
            [apply incl_refl | apply in_or_app; right; left; reflexivity|].
          apply (Permutation_NoDup (Permutation_cons_append _ _)).
          constructor; [|exact Hn].
          intros Hin. apply id_pc_mem_iff in Hin. congruence. }
      destruct Hv1 as (pre & Epre & Hpre & Hin & Es1 & Hn1).
      destruct (IH s1 Hn1) as (ext & E & Hn2 & Hinc & Hok).
      exists (pre ++ ext). rewrite E, Epre, <- app_assoc.
      rewrite Es1 at 1. rewrite set_vacancy_list_twice.
      rewrite Epre, <- app_assoc in Hn2, Hok.
      repeat split; [exact Hn2| |].
      * apply incl_app; [eapply incl_tran; [exact Hpre|] | eapply incl_tran; [exact Hinc|]];
          intros x Hx; [destruct Hx as [<-|[]]; left; reflexivity | right; exact Hx].
      * intros Hr x [<-|Hx].
        -- rewrite app_assoc, <- Epre. apply in_or_app. left. exact Hin.
        -- apply Hok; assumption.
    + destruct e; exists []; rewrite app_nil_r, set_vacancy_list_eta; cbn;
        (repeat split; [exact Hn | intros x [] | discriminate]).
Qed.

Lemma add_vacancies_loop_ok : forall vs s,
  Forall (fun v => check_id_pc s v = inl tt) vs ->
  snd (add_vacancies_loop s vs) = inl tt.
Proof.
  induction vs as [|v vs IH]; intros s Hv; [reflexivity|].
  inversion Hv as [|? ? Hc Hr]; subst. cbn [add_vacancies_loop]. rewrite Hc.
  apply IH. destruct (id_pc_mem v (vacancy_list s)); [exact Hr|].
  eapply Forall_impl; [|exact Hr]. intros w Hw. rewrite check_id_pc_set_vl. exact Hw.
Qed.

(** The error [add_vacancies] raises for an index that [_check_id_pc]
    rejects. *)
Definition vac_error (e : exc) : exc :=
  match e with
  | IDPCLenError p => VacIDPCLenError p
  | IDPCIndexError i p => VacIDPCIndexError i p
  | e => e
  end.

Lemma check_id_pc_error : forall s v e,
  check_id_pc s v = inr e ->
  (exists p, e = IDPCLenError p) \/ (exists i p, e = IDPCIndexError i p).
Proof.
  intros s v e. unfold check_id_pc.
  repeat match goal with |- context [if ?b then _ else _] => destruct b end;
    intros H; first [discriminate | injection H as <-; eauto].
Qed.

Lemma add_vacancies_loop_error : forall pre v post s e,
  Forall (fun v => check_id_pc s v = inl tt) pre ->
  check_id_pc s v = inr e ->
  add_vacancies_loop s (pre ++ v :: post)
  = (fst (add_vacancies_loop s pre), inr (vac_error e)).
Proof.
  induction pre as [|w pre IH]; intros v post s e Hp He.
  - cbn. rewrite He.
    destruct (check_id_pc_error s v e He) as [[p ->]|[i [p ->]]]; reflexivity.
  - inversion Hp as [|? ? Hc Hr]; subst. cbn [app add_vacancies_loop].
    rewrite Hc. apply IH.
    + destruct (id_pc_mem w (vacancy_list s)); [exact Hr|].
      eapply Forall_impl; [|exact Hr]. intros u Hu. rewrite check_id_pc_set_vl. exact Hu.
    + destruct (id_pc_mem w (vacancy_list s)); [exact He|].
      rewrite check_id_pc_set_vl. exact He.
Qed.

Lemma num_orb_sc_append : forall s ext,
  num_orb_sc (set_vacancy_list s (vacancy_list s ++ ext))
  = num_orb_sc s - Z.of_nat (length ext).
Proof.
  intros s ext. unfold num_orb_sc, num_orb_pc, dim_item; cbn.
  rewrite length_app. lia.
Qed.

Lemma num_orb_sc_sync : forall hash f s,
  num_orb_sc (sync_array hash f s) = num_orb_sc s.
Proof.
  intros. destruct (sync_array_fields hash f s) as (A & B & C & _).
  unfold num_orb_sc, num_orb_pc, dim_item. rewrite A, B, C. reflexivity.
Qed.

(** The state [add_vacancies] leaves after a successful loop. *)
Lemma add_vacancies_after_loop : forall hash vs sync f s s1,
  is_locked s = false -> add_vacancies_loop s vs = (s1, inl tt) ->
  add_vacancies hash vs sync f s
  = (if sync then sync_array hash f s1 else s1, inl tt).
Proof.
  intros hash vs sync f s s1 Hl E. unfold add_vacancies, check_lock.
  rewrite Hl, E. destruct sync; reflexivity.
Qed.

(** X1: [add_vacancies] on an unlocked set whose vacancy list has no
    duplicate, with a batch of legal indices, succeeds; it appends to the
    vacancy list exactly the vacancies of the batch that were missing, once
    each, so that the list stays duplicate-free, holds the old and the new
    vacancies, and [num_orb_sc] drops by the number appended; the primitive
    cell, the dimension, the periodicity and the lock flag are kept. *)
Theorem add_vacancies_extends : forall hash vs sync f s,
  is_locked s = false -> NoDup (vacancy_list s) ->
  Forall (fun v => check_id_pc s v = inl tt) vs ->
  exists s' ext, add_vacancies hash vs sync f s = (s', inl tt) /\
    vacancy_list s' = vacancy_list s ++ ext /\ NoDup (vacancy_list s') /\
    (forall x, In x (vacancy_list s') <-> In x (vacancy_list s) \/ In x vs) /\
    num_orb_sc s' = num_orb_sc s - Z.of_nat (length ext) /\
    prim_cell s' = prim_cell s /\ dim s' = dim s /\ pbc s' = pbc s /\
    is_locked s' = false.
Proof.
  intros hash vs sync f s Hl Hn Hv.
  pose proof (add_vacancies_loop_ok vs s Hv) as Hok.
  destruct (add_vacancies_loop_shape vs s Hn) as (ext & E1 & Hn1 & Hinc & Hall).
  destruct (add_vacancies_loop s vs) as [s1 r] eqn:El. cbn in Hok, E1, Hall. subst r.
  specialize (Hall eq_refl).
  rewrite (add_vacancies_after_loop hash vs sync f s s1 Hl El).
  eexists _, ext. split; [reflexivity|].
  assert (Hs1 : vacancy_list s1 = vacancy_list s ++ ext /\
                num_orb_sc s1 = num_orb_sc s - Z.of_nat (length ext) /\
                prim_cell s1 = prim_cell s /\ dim s1 = dim s /\ pbc s1 = pbc s /\
                is_locked s1 = false).
  { rewrite E1, num_orb_sc_append. repeat split. exact Hl. }
  destruct Hs1 as (A & B & C & D & F & G).
  assert (Hfin : forall s', vacancy_list s' = vacancy_list s1 ->
            num_orb_sc s' = num_orb_sc s1 -> prim_cell s' = prim_cell s1 ->
            dim s' = dim s1 -> pbc s' = pbc s1 -> is_locked s' = is_locked s1 ->
            vacancy_list s' = vacancy_list s ++ ext /\ NoDup (vacancy_list s') /\
            (forall x, In x (vacancy_list s') <-> In x (vacancy_list s) \/ In x vs) /\
            num_orb_sc s' = num_orb_sc s - Z.of_nat (length ext) /\
            prim_cell s' = prim_cell s /\ dim s' = dim s /\ pbc s' = pbc s /\
            is_locked s' = false).
  { intros s' A' B' C' D' F' G'. rewrite A', B', C', D', F', G', A.
    repeat split; try assumption; intros Hx.
    - apply in_app_or in Hx as [Hx|Hx]; [left; exact Hx | right; exact (Hinc x Hx)].
    - destruct Hx as [Hx|Hx]; [apply in_or_app; left; exact Hx | exact (Hall x Hx)]. }
  destruct sync; apply Hfin; try reflexivity.
  all: try apply num_orb_sc_sync; apply (sync_array_fields hash f s1).
Qed.

(** A chain with two cells and no vacancy; the batch names the same
    vacancy twice. *)
Lemma add_vacancies_extends_witness :
  exists s' ext,
    add_vacancies hash_len [[0; 0; 0; 0]; [0; 0; 0; 0]] true false chain_set
      = (s', inl tt) /\
    vacancy_list s' = vacancy_list chain_set ++ ext /\ NoDup (vacancy_list s') /\
    (forall x, In x (vacancy_list s') <->
       In x (vacancy_list chain_set) \/ In x [[0; 0; 0; 0]; [0; 0; 0; 0]]) /\
    num_orb_sc s' = num_orb_sc chain_set - Z.of_nat (length ext) /\
    prim_cell s' = prim_cell chain_set /\ dim s' = dim chain_set /\
    pbc s' = pbc chain_set /\ is_locked s' = false.
Proof.
  apply add_vacancies_extends.
  - reflexivity.
  - constructor.
  - repeat constructor.
Defined.

(** X2: when a batch given to [add_vacancies] on an unlocked set holds an
    index that [_check_id_pc] rejects, the call raises the error of the
    first such index, as [VacIDPCLenError] or [VacIDPCIndexError], and
    leaves the state that [add_vacancies] of the legal prefix with
    [sync_array=False] leaves: the vacancies before the bad one are
    committed and nothing is synchronised. *)
Theorem add_vacancies_first_error : forall hash pre v post sync f s e,
  is_locked s = false ->
  Forall (fun w => check_id_pc s w = inl tt) pre ->
  check_id_pc s v = inr e ->
  add_vacancies hash (pre ++ v :: post) sync f s
  = (fst (add_vacancies hash pre false f s), inr (vac_error e)).
Proof.
  intros hash pre v post sync f s e Hl Hp He.
  pose proof (add_vacancies_loop_ok pre s Hp) as Hok.
  unfold add_vacancies, check_lock. rewrite Hl.
  rewrite (add_vacancies_loop_error pre v post s e Hp He).
  destruct (add_vacancies_loop s pre) as [s1 r]. cbn in Hok |- *. subst r.
  reflexivity.
Qed.

Lemma add_vacancies_first_error_witness :
  add_vacancies hash_len ([[0; 0; 0; 0]] ++ [5; 0; 0; 0] :: [[1; 0; 0; 0]])
    true false chain_set
  = (fst (add_vacancies hash_len [[0; 0; 0; 0]] false false chain_set),
     inr (vac_error (IDPCIndexError 0 [5; 0; 0; 0]))).
Proof.
  apply add_vacancies_first_error.
  - reflexivity.
  - repeat constructor.
  - reflexivity.
Defined.

(** X3: whatever its outcome, [set_vacancies] leaves a duplicate-free
    vacancy list made only of vacancies of its argument: the previous
    vacancies are always dropped (after the lock error, or with the
    default argument [None], the list is empty), and after a success every
    vacancy of the argument is in the list. *)
Theorem set_vacancies_replaces : forall hash vs sync f s,
  let '(s', r) := set_vacancies hash vs sync f s in
  let l := match vs with Some l => l | None => [] end in
  NoDup (vacancy_list s') /\ incl (vacancy_list s') l /\
  (r = inl tt -> incl l (vacancy_list s')).
Proof.
  intros hash vs sync f s. unfold set_vacancies.
  set (s0 := set_vacancy_list s []).
  destruct vs as [l|].
  - unfold add_vacancies. destruct (check_lock s0) as [u|e].
    + assert (Hn0 : NoDup (vacancy_list s0)) by constructor.
      destruct (add_vacancies_loop_shape l s0 Hn0) as (ext & E1 & Hn1 & Hinc & Hall).
      destruct (add_vacancies_loop s0 l) as [s1 [[]|e]]; cbn in E1, Hall.
      * cbn in Hn1. destruct sync; cbn;
          [rewrite (proj1 (sync_array_fields hash f s1))|];
          rewrite E1; cbn; (repeat split; [exact Hn1 | exact Hinc |]);
          intros _; exact (Hall eq_refl).
      * rewrite E1. cbn in Hn1 |- *. repeat split; [exact Hn1 | exact Hinc | discriminate].
    + cbn. repeat split; [constructor | intros x [] | discriminate].
  - destruct (check_lock s0); cbn;
      repeat split; [constructor | intros x [] | discriminate | constructor
                    | intros x [] | discriminate].
Qed.

(** ** The lock flag *)

(** X4: on a locked object, [add_vacancies], [add_vacancy], [add_hopping],
    [set_orb_pos_modifier] and [trim] raise [SCLockError] and leave the
    object exactly as it was (unlike [set_vacancies], see C10). *)
Theorem locked_mutators_reject : forall hash s vs v sync f rn i j e opm,
  is_locked (sc_orbset s) = true ->
  add_vacancies hash vs sync f (sc_orbset s) = (sc_orbset s, inr SCLockError) /\
  add_vacancy hash v sync f (sc_orbset s) = (sc_orbset s, inr SCLockError) /\
  add_hopping rn i j e s = (s, inr SCLockError) /\
  set_orb_pos_modifier opm s = (s, inr SCLockError) /\
  trim hash s = (s, inr SCLockError).
Proof.
  intros hash s vs v sync f rn i j e opm Hl.
  unfold add_vacancy, add_vacancies, add_hopping, set_orb_pos_modifier, trim,
    check_lock.
  rewrite Hl. repeat split.
Qed.

Definition chain_sc_locked : SuperCell := MkSuperCell (lock chain_set) [] None.

Lemma locked_mutators_reject_witness :
  is_locked (sc_orbset chain_sc_locked) = true /\
  add_vacancies hash_len [[0; 0; 0; 0]] false false (sc_orbset chain_sc_locked)
    = (sc_orbset chain_sc_locked, inr SCLockError) /\
  add_vacancy hash_len [1; 0; 0; 0] false false (sc_orbset chain_sc_locked)
    = (sc_orbset chain_sc_locked, inr SCLockError) /\
  add_hopping (1, 0, 0) 0 1 (Cplx 1 0) chain_sc_locked
    = (chain_sc_locked, inr SCLockError) /\
  set_orb_pos_modifier (Some 1%nat) chain_sc_locked
    = (chain_sc_locked, inr SCLockError) /\
  trim hash_len chain_sc_locked = (chain_sc_locked, inr SCLockError).
Proof.
  split; [reflexivity|].
  apply locked_mutators_reject. reflexivity.
Defined.

Lemma add_vacancies_loop_locked : forall vs s,
  is_locked (fst (add_vacancies_loop s vs)) = is_locked s.
Proof.
  induction vs as [|v vs IH]; intros s; [reflexivity|]. cbn.
  destruct (check_id_pc s v) as [[]|e]; [|destruct e; reflexivity].
  rewrite IH. destruct (id_pc_mem v (vacancy_list s)); reflexivity.
Qed.

Lemma add_vacancies_locked : forall hash vs sync f s,
  is_locked (fst (add_vacancies hash vs sync f s)) = is_locked s.
Proof.
  intros. unfold add_vacancies. destruct (check_lock s); [|reflexivity].
  pose proof (add_vacancies_loop_locked vs s) as H.
  destruct (add_vacancies_loop s vs) as [s1 [r|e]]; cbn in *; [|exact H].
  destruct sync; cbn; [rewrite (proj2 (proj2 (proj2 (proj2 (sync_array_fields hash f s1)))))|];
    exact H.
Qed.

Lemma orb_id_sc2pc_state : forall hash i s,
  fst (orb_id_sc2pc hash i s) = sync_array hash false s.
Proof. intros. unfold orb_id_sc2pc. destruct (np_getitem _ _); reflexivity. Qed.

Lemma orb_id_pc2sc_state : forall hash p s,
  fst (orb_id_pc2sc hash p s) = sync_array hash false s.
Proof.
  intros. unfold orb_id_pc2sc. destruct (check_id_pc _ _); [|reflexivity].
  destruct (_ =? -1); reflexivity.
Qed.

Lemma orb_id_pc2sc_array_state : forall hash ids s,
  fst (orb_id_pc2sc_array hash ids s) = sync_array hash false s.
Proof.
  intros. unfold orb_id_pc2sc_array.
  destruct (negb _); [reflexivity|].
  destruct (check_id_pc_array _ _ _ _ _) as [[st k] ax].
  destruct (st =? -2); [reflexivity|]. destruct (st =? -1); reflexivity.
Qed.

Lemma sync_array_locked : forall hash f s,
  is_locked (sync_array hash f s) = is_locked s.
Proof. intros. apply (sync_array_fields hash f s). Qed.

Lemma trim_locked : forall hash s,
  is_locked (sc_orbset (fst (trim hash s))) = is_locked (sc_orbset s).
Proof.
  intros hash s. unfold trim.
  destruct (is_locked (sc_orbset s)) eqn:L; [exact L|].
  pose proof (get_hop_state hash UseAuto s) as Hs.
  destruct (get_hop hash UseAuto s) as [s1 [[hi hj] hv]]. cbn in Hs. subst s1.
  pose proof (orb_id_pc2sc_array_state hash
    (get_orb_id_trim (orb_id_pc (sc_orbset (sc_synced hash s))) hi hj)
    (sc_orbset (sc_synced hash s))) as Ho.
  destruct (orb_id_pc2sc_array _ _ _) as [o [ids|e]]; cbn in Ho; subst o.
  - pose proof (add_vacancies_locked hash
      (get_orb_id_trim (orb_id_pc (sc_orbset (sc_synced hash s))) hi hj) true false
      (sync_array hash false (sc_orbset (sc_synced hash s)))) as Ha.
    destruct (add_vacancies _ _ _ _ _) as [o' [u|e]]; cbn in Ha |- *;
      rewrite Ha, sync_array_locked; cbn; rewrite sync_array_locked; exact L.
  - cbn. rewrite sync_array_locked. cbn. rewrite sync_array_locked. exact L.
Qed.

(** X5: no method of [OrbitalSet] or [SuperCell] other than [lock] changes
    the lock flag, whether it succeeds or raises: the synchronisation, the
    vacancy mutators, the index conversions, [add_hopping],
    [set_orb_pos_modifier], [get_hop] and [trim] all leave [is_locked] as
    it was. *)
Theorem lock_flag_kept : forall hash s o vs ovs sync f id_sc id_pc ids rn i j e opm u,
  is_locked (sync_array hash f o) = is_locked o /\
  is_locked (fst (add_vacancies hash vs sync f o)) = is_locked o /\
  is_locked (fst (set_vacancies hash ovs sync f o)) = is_locked o /\
  is_locked (fst (orb_id_sc2pc hash id_sc o)) = is_locked o /\
  is_locked (fst (orb_id_pc2sc hash id_pc o)) = is_locked o /\
  is_locked (fst (orb_id_pc2sc_array hash ids o)) = is_locked o /\
  is_locked (sc_orbset (fst (add_hopping rn i j e s))) = is_locked (sc_orbset s) /\
  is_locked (sc_orbset (fst (set_orb_pos_modifier opm s))) = is_locked (sc_orbset s) /\
  is_locked (sc_orbset (fst (get_hop hash u s))) = is_locked (sc_orbset s) /\
  is_locked (sc_orbset (fst (trim hash s))) = is_locked (sc_orbset s).
Proof.
  intros. repeat split.
  - apply sync_array_locked.
  - apply add_vacancies_locked.
  - unfold set_vacancies. destruct ovs as [l|].
    + rewrite add_vacancies_locked. reflexivity.
    + destruct (check_lock _); reflexivity.
  - rewrite orb_id_sc2pc_state. apply sync_array_locked.
  - rewrite orb_id_pc2sc_state. apply sync_array_locked.
  - rewrite orb_id_pc2sc_array_state. apply sync_array_locked.
  - unfold add_hopping. destruct (check_lock _); [|reflexivity].
    repeat match goal with |- context [if ?b then _ else _] => destruct b end;
      reflexivity.
  - unfold set_orb_pos_modifier. destruct (check_lock _); reflexivity.
  - rewrite get_hop_state. apply sync_array_locked.
  - apply trim_locked.
Qed.

(** ** Hash-gated synchronisation *)

(** [o] holds the hash of the vacancy list [L] and the arrays derived from
    [L]: the state a synchronisation on the list [L] leaves. *)
Definition synced_with (hash : list id_pc_type -> Z) (o : OrbitalSet)
    (L : list id_pc_type) : Prop :=
  hash_vac o = hash L /\
  (vac_id_pc o, vac_id_sc o, orb_id_pc o) = derive_arrays (dim o) (num_orb_pc o) L.

Lemma sync_array_cases : forall hash f o,
  sync_array hash f o = o \/ sync_array hash f o = sync_array hash true o.
Proof.
  intros hash f [pc d p vl hv vpc vsc opc lk].
  unfold sync_array, update_hash; cbn.
  destruct (hv =? hash vl) eqn:E, f; cbn; auto.
Qed.

Lemma synced_with_forced : forall hash o,
  synced_with hash (sync_array hash true o) (vacancy_list o).
Proof.
  intros hash o. rewrite sync_array_true.
  destruct (derive_arrays (dim o) (num_orb_pc o) (vacancy_list o))
    as [[vpc vsc] opc] eqn:E.
  split; [reflexivity|]. cbn. rewrite <- E. reflexivity.
Qed.

Lemma sync_false_forced : forall hash o L,
  synced_with hash o L -> (hash (vacancy_list o) = hash L -> vacancy_list o = L) ->
  sync_array hash false o = sync_array hash true o.
Proof.
  intros hash [pc d p vl hv vpc vsc opc lk] L [Hh Ha] Hc. cbn in *.
  unfold sync_array, update_hash; cbn.
  destruct (hv =? hash vl) eqn:E; cbn; [|reflexivity].
  apply Z.eqb_eq in E. rewrite E in Hh. specialize (Hc Hh). subst L. subst hv.
  unfold set_arrays, num_orb_pc in *; cbn in *. rewrite <- Ha. reflexivity.
Qed.

(** X6: [sync_array] without [force_sync] is as good as a forced one as
    long as the current vacancy list does not collide in hash with the list
    of the last synchronisation: on a state synchronised on [L], if
    [hash(vacancy_list) = hash(L)] only when [vacancy_list = L], then
    [sync_array()] gives the state of [sync_array(force_sync=True)], whose
    hash and arrays are those of the current vacancy list. *)
Theorem sync_array_consistent : forall hash o L f,
  synced_with hash o L ->
  (hash (vacancy_list o) = hash L -> vacancy_list o = L) ->
  sync_array hash f o = sync_array hash true o /\
  synced_with hash (sync_array hash f o) (vacancy_list o).
Proof.
  intros hash o L f Hs Hc.
  assert (E : sync_array hash f o = sync_array hash true o)
    by (destruct f; [reflexivity | exact (sync_false_forced hash o L Hs Hc)]).
  split; [exact E|]. rewrite E. apply synced_with_forced.
Qed.

(** [chain_set] with a vacancy added to its list but arrays not yet
    synchronised. *)
Definition stale_set : OrbitalSet :=
  set_vacancy_list chain_set [[0; 0; 0; 0]].

Lemma sync_array_consistent_witness :
  synced_with hash_len stale_set [] /\
  (hash_len (vacancy_list stale_set) = hash_len [] -> vacancy_list stale_set = []) /\
  sync_array hash_len false stale_set = sync_array hash_len true stale_set /\
  synced_with hash_len (sync_array hash_len false stale_set) (vacancy_list stale_set).
Proof.
  assert (H1 : synced_with hash_len stale_set []) by (split; reflexivity).
  assert (H2 : hash_len (vacancy_list stale_set) = hash_len [] ->
               vacancy_list stale_set = []) by (intros H; discriminate H).
  split; [exact H1|]. split; [exact H2|].
  exact (sync_array_consistent hash_len stale_set [] false H1 H2).
Defined.

(** The supercells a program can build: the constructor, then any sequence
    of method calls, each one whether it returns or raises (a raising call
    leaves the object as the exception found it). *)
Inductive orbset_step (hash : list id_pc_type -> Z) (o : OrbitalSet)
    : OrbitalSet -> Prop :=
| step_sync : forall f, orbset_step hash o (sync_array hash f o)
| step_add_vacancies : forall vs sync f,
    orbset_step hash o (fst (add_vacancies hash vs sync f o))
| step_set_vacancies : forall vs sync f,
    orbset_step hash o (fst (set_vacancies hash vs sync f o))
| step_lock : orbset_step hash o (lock o)
| step_orb_id_sc2pc : forall i, orbset_step hash o (fst (orb_id_sc2pc hash i o))
| step_orb_id_pc2sc : forall p, orbset_step hash o (fst (orb_id_pc2sc hash p o))
| step_orb_id_pc2sc_array : forall ids,
    orbset_step hash o (fst (orb_id_pc2sc_array hash ids o)).

Inductive reachable (hash : list id_pc_type -> Z) : SuperCell -> Prop :=
| reach_init : forall pc d p vs opm s,
    0 <= num_orb pc -> SuperCell_init hash pc d p vs opm = inl s ->
    reachable hash s
| reach_orbset : forall s o, reachable hash s -> orbset_step hash (sc_orbset s) o ->
    reachable hash (set_orbset s o)
| reach_add_hopping : forall rn i j e s, reachable hash s ->
    reachable hash (fst (add_hopping rn i j e s))
| reach_set_orb_pos_modifier : forall opm s, reachable hash s ->
    reachable hash (fst (set_orb_pos_modifier opm s))
| reach_get_hop : forall u s, reachable hash s -> reachable hash (fst (get_hop hash u s))
| reach_trim : forall s, reachable hash s -> reachable hash (fst (trim hash s)).

Definition orbset_inv (hash : list id_pc_type -> Z) (o : OrbitalSet) : Prop :=
  orbset_wf o /\ exists L, synced_with hash o L.

Lemma add_vacancies_loop_set : forall vs s,
  exists l, fst (add_vacancies_loop s vs) = set_vacancy_list s l.
Proof.
  induction vs as [|v vs IH]; intros s.
  - exists (vacancy_list s). rewrite set_vacancy_list_eta. reflexivity.
  - cbn. destruct (check_id_pc s v) as [[]|e].
    + destruct (IH (if id_pc_mem v (vacancy_list s) then s
                    else set_vacancy_list s (vacancy_list s ++ [v]))) as [l E].
      exists l. rewrite E. destruct (id_pc_mem v (vacancy_list s)); reflexivity.
    + exists (vacancy_list s). rewrite set_vacancy_list_eta. destruct e; reflexivity.
Qed.

Lemma synced_with_set_vl : forall hash o L l,
  synced_with hash o L -> synced_with hash (set_vacancy_list o l) L.
Proof. intros hash o L l H. exact H. Qed.

Lemma inv_sync : forall hash f o, orbset_inv hash o -> orbset_inv hash (sync_array hash f o).
Proof.
  intros hash f o [Hw [L Hs]]. split; [apply sync_array_wf; exact Hw|].
  destruct (sync_array_cases hash f o) as [E|E]; rewrite E.
  - exists L. exact Hs.
  - exists (vacancy_list o). apply synced_with_forced.
Qed.

Lemma inv_add_vacancies : forall hash vs sync f o,
  orbset_inv hash o -> orbset_inv hash (fst (add_vacancies hash vs sync f o)).
Proof.
  intros hash vs sync f o Hi. pose proof Hi as [Hw [L Hs]].
  assert (Hl : orbset_inv hash (fst (add_vacancies_loop o vs))).
  { split; [apply add_vacancies_loop_wf; exact Hw|].
    destruct (add_vacancies_loop_set vs o) as [l E]. rewrite E.
    exists L. apply synced_with_set_vl. exact Hs. }
  unfold add_vacancies. destruct (check_lock o); [|exact Hi].
  destruct (add_vacancies_loop o vs) as [o1 [r|e]]; cbn in *; [|exact Hl].
  destruct sync; cbn; [apply inv_sync|]; exact Hl.
Qed.

Lemma inv_set_vacancies : forall hash vs sync f o,
  orbset_inv hash o -> orbset_inv hash (fst (set_vacancies hash vs sync f o)).
Proof.
  intros hash vs sync f o [Hw [L Hs]].
  assert (H0 : orbset_inv hash (set_vacancy_list o [])).
  { destruct Hw as (H0 & H1 & H2 & Hn & _).
    split; [unfold orbset_wf; cbn; repeat split; auto; constructor|].
    exists L. apply synced_with_set_vl. exact Hs. }
  unfold set_vacancies. destruct vs as [l|].
  - apply inv_add_vacancies. exact H0.
  - destruct (check_lock _); exact H0.
Qed.

Lemma inv_lock : forall hash o, orbset_inv hash o -> orbset_inv hash (lock o).
Proof.
  intros hash o [Hw [L Hs]]. split.
  - eapply orbset_wf_ext; [reflexivity..|exact Hw].
  - exists L. exact Hs.
Qed.

Lemma inv_step : forall hash o o', orbset_step hash o o' ->
  orbset_inv hash o -> orbset_inv hash o'.
Proof.
  intros hash o o' Hst Hi. destruct Hst.
  - apply inv_sync. exact Hi.
  - apply inv_add_vacancies. exact Hi.
  - apply inv_set_vacancies. exact Hi.
  - apply inv_lock. exact Hi.
  - rewrite orb_id_sc2pc_state. apply inv_sync. exact Hi.
  - rewrite orb_id_pc2sc_state. apply inv_sync. exact Hi.
  - rewrite orb_id_pc2sc_array_state. apply inv_sync. exact Hi.
Qed.

Lemma dim_min_axis_nonneg : forall pc i m, dim_min_axis pc i = Some m -> 0 <= m.
Proof.
  intros pc i m. unfold dim_min_axis.
  destruct (list_min (map (fun h => rn_item (hop_rn h) i) (hop_table pc))),
    (list_max (map (fun h => rn_item (hop_rn h) i) (hop_table pc)));
    intros H; try discriminate.
  injection H as <-. lia.
Qed.

Lemma check_dim_axes_nonneg : forall pc d,
  check_dim_axes pc d [0; 1; 2]%nat = inl tt ->
  0 <= rn_item d 0 /\ 0 <= rn_item d 1 /\ 0 <= rn_item d 2.
Proof.
  intros pc d. cbn [check_dim_axes].
  destruct (dim_min_axis pc 0) as [m0|] eqn:E0; [|discriminate].
  destruct (Z.ltb_spec (rn_item d 0) m0); [discriminate|].
  destruct (dim_min_axis pc 1) as [m1|] eqn:E1; [|discriminate].
  destruct (Z.ltb_spec (rn_item d 1) m1); [discriminate|].
  destruct (dim_min_axis pc 2) as [m2|] eqn:E2; [|discriminate].
  destruct (Z.ltb_spec (rn_item d 2) m2); [discriminate|].
  apply dim_min_axis_nonneg in E0, E1, E2. intros _. lia.
Qed.

Lemma inv_init : forall hash pc d p vs opm s,
  0 <= num_orb pc -> SuperCell_init hash pc d p vs opm = inl s ->
  orbset_inv hash (sc_orbset s).
Proof.
  intros hash pc d p vs opm s Hn. unfold SuperCell_init, OrbitalSet_init.
  destruct (check_dim_axes pc d [0; 1; 2]%nat) as [[]|e] eqn:Ed; [|discriminate].
  apply check_dim_axes_nonneg in Ed as (D0 & D1 & D2).
  set (s0 := MkOrbitalSet pc d p [] (hash []) None None
               (build_orb_id_pc d (num_orb pc) None) false).
  assert (H0 : orbset_inv hash s0).
  { split; [unfold orbset_wf; cbn; repeat split; auto; constructor|].
    exists []. split; reflexivity. }
  destruct vs as [vs|].
  - pose proof (inv_add_vacancies hash vs true false s0 H0) as H1.
    destruct (add_vacancies hash vs true false s0) as [o [r|e]];
      intros E; [injection E as <-; exact H1 | discriminate].
  - intros E. injection E as <-. exact H0.
Qed.

(** X7: every supercell a program can build (the constructor on a
    primitive cell with a non-negative orbital count, then any sequence of
    calls of [sync_array], [add_vacancies], [add_vacancy], [set_vacancies],
    [lock], the index conversions, [add_hopping], [set_orb_pos_modifier],
    [get_hop] and [trim], returning or raising) keeps a duplicate-free list
    of legal vacancies and is synchronised on some vacancy list [L]: its
    stored hash is [hash(L)] and its index arrays are the ones derived from
    [L]. *)
Theorem reachable_inv : forall hash s, reachable hash s ->
  orbset_wf (sc_orbset s) /\ exists L, synced_with hash (sc_orbset s) L.
Proof.
  intros hash s Hr. change (orbset_inv hash (sc_orbset s)).
  induction Hr as [pc d p vs opm s Hn Hs | s o Hr IH Hst | rn i j e s Hr IH
                  | opm s Hr IH | u s Hr IH | s Hr IH].
  - eapply inv_init; eassumption.
  - apply (inv_step hash (sc_orbset s)); assumption.
  - unfold add_hopping. destruct (check_lock _); [|exact IH].
    repeat match goal with |- context [if ?b then _ else _] => destruct b end;
      exact IH.
  - unfold set_orb_pos_modifier. destruct (check_lock _); exact IH.
  - rewrite get_hop_state. apply inv_sync. exact IH.
  - unfold trim. destruct (is_locked (sc_orbset s)); [exact IH|].
    pose proof (get_hop_state hash UseAuto s) as Hs.
    destruct (get_hop hash UseAuto s) as [s1 [[hi hj] hv]]. cbn in Hs. subst s1.
    assert (H1 : orbset_inv hash (sc_orbset (sc_synced hash s)))
      by (apply inv_sync; exact IH).
    pose proof (orb_id_pc2sc_array_state hash
      (get_orb_id_trim (orb_id_pc (sc_orbset (sc_synced hash s))) hi hj)
      (sc_orbset (sc_synced hash s))) as Ho.
    destruct (orb_id_pc2sc_array _ _ _) as [o [ids|e]]; cbn in Ho; subst o.
    + pose proof (inv_add_vacancies hash
        (get_orb_id_trim (orb_id_pc (sc_orbset (sc_synced hash s))) hi hj) true false
        (sync_array hash false (sc_orbset (sc_synced hash s)))
        (inv_sync hash false _ H1)) as Ha.
      destruct (add_vacancies _ _ _ _ _) as [o' [u|e]]; exact Ha.
    + apply inv_sync. exact H1.
Qed.

Lemma reachable_inv_witness :
  reachable hash_len chain_sc /\
  orbset_wf (sc_orbset chain_sc) /\ exists L, synced_with hash_len (sc_orbset chain_sc) L.
Proof.
  assert (H : reachable hash_len chain_sc).
  { apply (reach_init hash_len pc_chain (2, 1, 1) (true, false, false) None None).
    - cbn. lia.
    - vm_compute. reflexivity. }
  split; [exact H | exact (reachable_inv hash_len chain_sc H)].
Defined.

(** ** Index conversion on a synchronised set *)

Lemma wf_valid : forall o, orbset_wf o ->
  Forall (fun v => In v (all_id_pc (dim o) (num_orb_pc o))) (vacancy_list o).
Proof.
  intros o (_ & _ & _ & _ & _ & Hv). eapply Forall_impl; [|exact Hv].
  intros v Hc. apply check_id_pc_all. exact Hc.
Qed.

Lemma length_orb_id_pc_synced : forall hash o,
  orbset_wf o ->
  Z.of_nat (length (orb_id_pc (sync_array hash true o))) = num_orb_sc o.
Proof.
  intros hash o Hw. pose proof Hw as (H0 & H1 & H2 & Hn & Hnd & _).
  pose proof (derive_length (dim o) (num_orb_pc o) (vacancy_list o)
                H0 H1 H2 Hn Hnd (wf_valid o Hw)) as Hl.
  rewrite sync_array_true.
  destruct (derive_arrays _ _ _) as [[vpc vsc] opc]. cbn.
  unfold num_orb_sc, dim_item in *.
  replace (num_orb_pc o * (rn_item (dim o) 0 * rn_item (dim o) 1 * rn_item (dim o) 2))
    with (rn_item (dim o) 0 * rn_item (dim o) 1 * rn_item (dim o) 2 * num_orb_pc o)
    by ring.
  lia.
Qed.

(** X8: on a state as [reachable_inv] describes it, whose current vacancy
    list does not collide in hash with the synchronised one,
    [orb_id_sc2pc(i)] follows numpy indexing of [orb_id_pc]: it returns an
    orbital for [0 <= i < num_orb_sc], a negative [i] with
    [-num_orb_sc <= i < 0] is accepted and read as [i + num_orb_sc], and
    only [i < -num_orb_sc] or [i >= num_orb_sc] raises [IDSCIndexError]. *)
Theorem orb_id_sc2pc_numpy_index : forall hash o L i,
  orbset_wf o -> synced_with hash o L ->
  (hash (vacancy_list o) = hash L -> vacancy_list o = L) ->
  let o1 := sync_array hash false o in
  let N := num_orb_sc o in
  (0 <= i < N -> exists p, orb_id_sc2pc hash i o = (o1, inl p)) /\
  (- N <= i < 0 -> orb_id_sc2pc hash i o = orb_id_sc2pc hash (i + N) o) /\
  (i < - N \/ N <= i -> orb_id_sc2pc hash i o = (o1, inr (IDSCIndexError i))).
Proof.
  intros hash o L i Hw Hs Hc o1 N.
  pose proof (length_orb_id_pc_synced hash o Hw) as Hl.
  rewrite <- (sync_false_forced hash o L Hs Hc) in Hl. fold o1 in Hl.
  unfold orb_id_sc2pc. fold o1. unfold np_getitem. rewrite Hl. fold N.
  repeat split.
  - intros Hi.
    replace ((0 <=? i) && (i <? N)) with true
      by (symmetry; apply andb_true_iff; split; [apply Z.leb_le | apply Z.ltb_lt]; lia).
    destruct (nth_error (orb_id_pc o1) (Z.to_nat i)) as [p|] eqn:E.
    + exists p. reflexivity.
    + apply nth_error_None in E. lia.
  - intros Hi.
    replace ((0 <=? i) && (i <? N)) with false
      by (symmetry; apply andb_false_iff; left; apply Z.leb_gt; lia).
    replace ((- N <=? i) && (i <? 0)) with true
      by (symmetry; apply andb_true_iff; split; [apply Z.leb_le | apply Z.ltb_lt]; lia).
    replace ((0 <=? i + N) && (i + N <? N)) with true
      by (symmetry; apply andb_true_iff; split; [apply Z.leb_le | apply Z.ltb_lt]; lia).
    replace (N + i) with (i + N) by ring.
    destruct (nth_error (orb_id_pc o1) (Z.to_nat (i + N))) eqn:E; [reflexivity|].
    apply nth_error_None in E. lia.
  - intros Hi.
    replace ((0 <=? i) && (i <? N)) with false
      by (symmetry; apply andb_false_iff; destruct Hi;
          [left; apply Z.leb_gt | right; apply Z.ltb_ge]; lia).
    replace ((- N <=? i) && (i <? 0)) with false
      by (symmetry; apply andb_false_iff; destruct Hi;
          [left; apply Z.leb_gt | right; apply Z.ltb_ge]; lia).
    reflexivity.
Qed.

Lemma orb_id_sc2pc_numpy_index_witness :
  orbset_wf stale_set /\ synced_with hash_len stale_set [] /\
  (hash_len (vacancy_list stale_set) = hash_len [] -> vacancy_list stale_set = []) /\
  let o1 := sync_array hash_len false stale_set in
  let N := num_orb_sc stale_set in
  (0 <= -1 < N -> exists p, orb_id_sc2pc hash_len (-1) stale_set = (o1, inl p)) /\
  (- N <= -1 < 0 ->
     orb_id_sc2pc hash_len (-1) stale_set = orb_id_sc2pc hash_len (-1 + N) stale_set) /\
  (-1 < - N \/ N <= -1 ->
     orb_id_sc2pc hash_len (-1) stale_set = (o1, inr (IDSCIndexError (-1)))).
Proof.
  assert (H0 : orbset_wf stale_set).
  { unfold orbset_wf; cbn. repeat split; try lia.
    - constructor; [intros [] | constructor].
    - repeat constructor. }
  assert (H1 : synced_with hash_len stale_set []) by (split; reflexivity).
  assert (H2 : hash_len (vacancy_list stale_set) = hash_len [] ->
               vacancy_list stale_set = []) by (intros H; discriminate H).
  split; [exact H0|]. split; [exact H1|]. split; [exact H2|].
  exact (orb_id_sc2pc_numpy_index hash_len stale_set [] (-1) H0 H1 H2).
Defined.

(** X9: on a state as in [orb_id_sc2pc_numpy_index], [orb_id_pc2sc(id_pc)]
    raises the error of [_check_id_pc] for an illegal index, raises
    [IDPCVacError] for a legal index that is a vacancy, and for a legal
    index of a live orbital returns some [i] in [[0, num_orb_sc)] with
    [orb_id_sc2pc(i) = id_pc]. *)
Theorem orb_id_pc2sc_cases : forall hash o L p,
  orbset_wf o -> synced_with hash o L ->
  (hash (vacancy_list o) = hash L -> vacancy_list o = L) ->
  let o1 := sync_array hash false o in
  (forall e, check_id_pc o p = inr e -> orb_id_pc2sc hash p o = (o1, inr e)) /\
  (check_id_pc o p = inl tt -> In p (vacancy_list o) ->
     orb_id_pc2sc hash p o = (o1, inr (IDPCVacError p))) /\
  (check_id_pc o p = inl tt -> ~ In p (vacancy_list o) ->
     exists i, 0 <= i < num_orb_sc o /\ orb_id_pc2sc hash p o = (o1, inl i) /\
               orb_id_sc2pc hash i o = (o1, inl p)).
Proof.
  intros hash o L p Hw Hs Hc o1.
  pose proof Hw as (H0 & H1 & H2 & Hn & Hnd & _).
  pose proof (wf_valid o Hw) as Hv.
  pose proof (length_orb_id_pc_synced hash o Hw) as Hlen.
  pose proof (derive_arrays_char (dim o) (num_orb_pc o) (vacancy_list o) Hnd Hv) as Hch.
  pose proof (derive_roundtrip (dim o) (num_orb_pc o) (vacancy_list o)
                H0 H1 H2 Hn Hnd Hv) as Hr.
  assert (E1 : o1 = sync_array hash true o) by exact (sync_false_forced hash o L Hs Hc).
  assert (Hck : check_id_pc o1 p = check_id_pc o p).
  { rewrite E1, sync_array_true. destruct (derive_arrays _ _ _) as [[? ?] ?]. reflexivity. }
  unfold orb_id_pc2sc, orb_id_sc2pc. fold o1. rewrite Hck.
  rewrite E1. rewrite sync_array_true in Hlen |- *.
  destruct (derive_arrays (dim o) (num_orb_pc o) (vacancy_list o))
    as [[vpc vsc] opc] eqn:Ed.
  destruct Hch as [Hopc Hid]. cbn [orb_id_pc vac_id_sc dim prim_cell] in *.
  fold (num_orb_pc o). rewrite Hid.
  repeat split.
  - intros e He. rewrite He. reflexivity.
  - intros Hok Hin. rewrite Hok.
    replace (existsb _ _) with true; [reflexivity|].
    symmetry. apply mem_Z_iff. apply in_map. exact Hin.
  - intros Hok Hnin. rewrite Hok.
    assert (Hp : In p opc).
    { rewrite Hopc. apply filter_In. split; [apply check_id_pc_all; exact Hok|].
      destruct (id_pc_mem p (vacancy_list o)) eqn:Em; [|reflexivity].
      apply id_pc_mem_iff in Em. contradiction. }
    apply In_nth_error in Hp as [k Hk].
    assert (Hkl : (k < length opc)%nat) by (apply nth_error_Some; congruence).
    unfold num_orb_sc, num_orb_pc, dim_item in *.
    destruct (Hr (Z.of_nat k)) as (p' & Ep & _ & Hi).
    { split; [lia|].
      replace (rn_item (dim o) 0 * rn_item (dim o) 1 * rn_item (dim o) 2 * num_orb (prim_cell o))
        with (num_orb (prim_cell o) * (rn_item (dim o) 0 * rn_item (dim o) 1 * rn_item (dim o) 2))
        by ring.
      lia. }
    rewrite Nat2Z.id, Hk in Ep. injection Ep as <-.
    rewrite Hid in Hi. rewrite Hi.
    exists (Z.of_nat k). split; [lia|]. split.
    + destruct (Z.eqb_spec (Z.of_nat k) (-1)); [lia | reflexivity].
    + unfold np_getitem.
      replace ((0 <=? Z.of_nat k) && (Z.of_nat k <? Z.of_nat (length opc))) with true
        by (symmetry; apply andb_true_iff; split; [apply Z.leb_le | apply Z.ltb_lt]; lia).
      rewrite Nat2Z.id, Hk. reflexivity.
Qed.

Lemma orb_id_pc2sc_cases_witness :
  orbset_wf stale_set /\ synced_with hash_len stale_set [] /\
  (hash_len (vacancy_list stale_set) = hash_len [] -> vacancy_list stale_set = []) /\
  let o1 := sync_array hash_len false stale_set in
  (forall e, check_id_pc stale_set [1; 0; 0; 0] = inr e ->
     orb_id_pc2sc hash_len [1; 0; 0; 0] stale_set = (o1, inr e)) /\
  (check_id_pc stale_set [1; 0; 0; 0] = inl tt -> In [1; 0; 0; 0] (vacancy_list stale_set) ->
     orb_id_pc2sc hash_len [1; 0; 0; 0] stale_set = (o1, inr (IDPCVacError [1; 0; 0; 0]))) /\
  (check_id_pc stale_set [1; 0; 0; 0] = inl tt -> ~ In [1; 0; 0; 0] (vacancy_list stale_set) ->
     exists i, 0 <= i < num_orb_sc stale_set /\
       orb_id_pc2sc hash_len [1; 0; 0; 0] stale_set = (o1, inl i) /\
       orb_id_sc2pc hash_len i stale_set = (o1, inl [1; 0; 0; 0])).
Proof.
  assert (H0 : orbset_wf stale_set).
  { unfold orbset_wf; cbn. repeat split; try lia.
    - constructor; [intros [] | constructor].
    - repeat constructor. }
  assert (H1 : synced_with hash_len stale_set []) by (split; reflexivity).
  assert (H2 : hash_len (vacancy_list stale_set) = hash_len [] ->
               vacancy_list stale_set = []) by (intros H; discriminate H).
  split; [exact H0|]. split; [exact H1|]. split; [exact H2|].
  exact (orb_id_pc2sc_cases hash_len stale_set [] [1; 0; 0; 0] H0 H1 H2).
Defined.

(** ** Order of the synchronised arrays *)

Definition key_le {A} (a b : Z * A) : Prop := fst a <= fst b.

Lemma insert_by_key_hd : forall (A : Type) (x y : Z * A) l,
  HdRel key_le y l -> key_le y x -> HdRel key_le y (insert_by_key x l).
Proof.
  intros A x y [|z l] Hh Hyx; cbn; [constructor; exact Hyx|].
  destruct (fst x <=? fst z); constructor; [exact Hyx|].
  inversion Hh. assumption.
Qed.

Lemma insert_by_key_sorted : forall (A : Type) (x : Z * A) l,
  Sorted key_le l -> Sorted key_le (insert_by_key x l).
Proof.
  intros A x l. induction l as [|y l IH]; intros H; cbn; [repeat constructor|].
  destruct (fst x <=? fst y) eqn:E.
  - constructor; [exact H|]. constructor. apply Z.leb_le. exact E.
  - apply Sorted_inv in H as [Hs Hh]. constructor; [apply IH; exact Hs|].
    apply insert_by_key_hd; [exact Hh|]. unfold key_le. apply Z.leb_gt in E. lia.
Qed.

Lemma sort_by_key_sorted : forall (A : Type) (l : list (Z * A)),
  Sorted key_le (sort_by_key l).
Proof.
  intros A l. induction l as [|x l IH]; cbn; [constructor|].
  apply insert_by_key_sorted. exact IH.
Qed.

Lemma StronglySorted_map : forall (A B : Type) (R : A -> A -> Prop)
    (S : B -> B -> Prop) (f : A -> B) l,
  (forall a b, R a b -> S (f a) (f b)) -> StronglySorted R l ->
  StronglySorted S (map f l).
Proof.
  intros A B R S f l HRS H. induction H as [|a l H IH Hf]; cbn; constructor; [exact IH|].
  apply Forall_map. eapply Forall_impl; [|exact Hf]. intros b. apply HRS.
Qed.

Lemma StronglySorted_le_lt : forall l,
  StronglySorted Z.le l -> NoDup l -> StronglySorted Z.lt l.
Proof.
  intros l H. induction H as [|a l H IH Hf]; intros Hn; constructor.
  - apply IH. inversion Hn; assumption.
  - inversion Hn as [|? ? Ha _]; subst. apply Forall_forall. intros b Hb.
    rewrite Forall_forall in Hf. specialize (Hf b Hb).
    assert (a <> b) by (intros ->; contradiction). lia.
Qed.

Lemma StronglySorted_filter : forall (A : Type) (R : A -> A -> Prop) f l,
  StronglySorted R l -> StronglySorted R (filter f l).
Proof.
  intros A R f l H. induction H as [|a l H IH Hf]; cbn; [constructor|].
  destruct (f a); [|exact IH]. constructor; [exact IH|].
  apply Forall_forall. intros b Hb. apply filter_In in Hb as [Hb _].
  rewrite Forall_forall in Hf. apply Hf. exact Hb.
Qed.

Lemma StronglySorted_seq_Z : forall k s,
  StronglySorted Z.lt (map Z.of_nat (seq s k)).
Proof.
  induction k as [|k IH]; intros s; cbn; constructor; [apply IH|].
  apply Forall_forall. intros x Hx. apply in_map_iff in Hx as [y [<- Hy]].
  apply in_seq in Hy. lia.
Qed.

(** X10: on a state as in [orb_id_sc2pc_numpy_index], the arrays
    [sync_array()] leaves are ordered by flat supercell index: the flat
    ids of [orb_id_pc] are strictly increasing; with no vacancy
    [vac_id_pc] and [vac_id_sc] are [None]; otherwise [vac_id_pc] is the
    vacancy list reordered, [vac_id_sc] holds the flat id of each entry of
    [vac_id_pc] and is strictly increasing, as the binary search of the
    core module requires. *)
Theorem synced_arrays_sorted : forall hash o L,
  orbset_wf o -> synced_with hash o L ->
  (hash (vacancy_list o) = hash L -> vacancy_list o = L) ->
  let o1 := sync_array hash false o in
  let flat := id_pc2sc_flat (dim o) (num_orb_pc o) in
  Sorted Z.lt (map flat (orb_id_pc o1)) /\
  match vac_id_pc o1, vac_id_sc o1 with
  | None, None => vacancy_list o = []
  | Some vpc, Some vsc =>
      vacancy_list o <> [] /\ vsc = map flat vpc /\ Sorted Z.lt vsc /\
      Permutation vpc (vacancy_list o)
  | _, _ => False
  end.
Proof.
  intros hash o L Hw Hs Hc o1 flat.
  pose proof Hw as (H0 & H1 & H2 & Hn & Hnd & _).
  pose proof (wf_valid o Hw) as Hv.
  assert (E1 : o1 = sync_array hash true o) by exact (sync_false_forced hash o L Hs Hc).
  rewrite E1, sync_array_true. split.
  - pose proof (derive_arrays_char (dim o) (num_orb_pc o) (vacancy_list o) Hnd Hv) as Hch.
    destruct (derive_arrays _ _ _) as [[vpc vsc] opc]. destruct Hch as [Hopc _].
    cbn [orb_id_pc]. rewrite Hopc. unfold flat.
    rewrite map_flat_filter by assumption.
    apply StronglySorted_Sorted, StronglySorted_filter. unfold zr.
    apply StronglySorted_seq_Z.
  - assert (HW : NoDup (map (id_pc2sc_flat (dim o) (num_orb_pc o)) (vacancy_list o)))
      by (eapply W_nodup; eassumption).
    unfold derive_arrays. destruct (vacancy_list o) as [|v vl'] eqn:Evl;
      cbn [vac_id_pc vac_id_sc]; [reflexivity|].
    split; [discriminate|].
    set (l := v :: vl') in *. unfold build_vac_id_sc. rewrite combine_map_self.
    set (sorted := sort_by_key (map (fun x => (id_pc2sc_flat (dim o) (num_orb_pc o) x, x)) l)).
    pose proof (sort_by_key_perm _ (map (fun x => (id_pc2sc_flat (dim o) (num_orb_pc o) x, x)) l))
      as HP. fold sorted in HP.
    assert (Hkey : map fst sorted = map flat (map snd sorted)).
    { rewrite map_map. apply map_ext_in. intros [k x] Hkx. cbn.
      apply (Permutation_in _ HP) in Hkx. apply in_map_iff in Hkx as [y [E _]].
      injection E as <- <-. reflexivity. }
    assert (Hperm : Permutation (map fst sorted) (map flat l)).
    { eapply perm_trans; [apply Permutation_map, HP|].
      rewrite map_map. apply Permutation_refl. }
    split; [exact Hkey|]. split.
    + apply StronglySorted_Sorted, StronglySorted_le_lt.
      * apply (StronglySorted_map _ _ key_le Z.le fst); [intros a b H; exact H|].
        apply Sorted_StronglySorted; [|apply sort_by_key_sorted].
        intros a b c Hab Hbc. unfold key_le in *. lia.
      * eapply Permutation_NoDup; [symmetry; exact Hperm|]. exact HW.
    + eapply perm_trans; [apply Permutation_map, HP|].
      rewrite map_map. cbn. rewrite map_id. apply Permutation_refl.
Qed.

Lemma synced_arrays_sorted_witness :
  orbset_wf stale_set /\ synced_with hash_len stale_set [] /\
  (hash_len (vacancy_list stale_set) = hash_len [] -> vacancy_list stale_set = []) /\
  let o1 := sync_array hash_len false stale_set in
  let flat := id_pc2sc_flat (dim stale_set) (num_orb_pc stale_set) in
  Sorted Z.lt (map flat (orb_id_pc o1)) /\
  match vac_id_pc o1, vac_id_sc o1 with
  | None, None => vacancy_list stale_set = []
  | Some vpc, Some vsc =>
      vacancy_list stale_set <> [] /\ vsc = map flat vpc /\ Sorted Z.lt vsc /\
      Permutation vpc (vacancy_list stale_set)
  | _, _ => False
  end.
Proof.
  assert (H0 : orbset_wf stale_set).
  { unfold orbset_wf; cbn. repeat split; try lia.
    - constructor; [intros [] | constructor].
    - repeat constructor. }
  assert (H1 : synced_with hash_len stale_set []) by (split; reflexivity).
  assert (H2 : hash_len (vacancy_list stale_set) = hash_len [] ->
               vacancy_list stale_set = []) by (intros H; discriminate H).
  split; [exact H0|]. split; [exact H1|]. split; [exact H2|].
  exact (synced_arrays_sorted hash_len stale_set [] H0 H1 H2).
Defined.

(** ** The whole modifier loop of get_hop and get_dr *)

(** The slot of the raw arrays a modifier row overwrites, and whether the
    value is conjugated (negated for [dr]); [None] when the row is appended. *)
Definition row_slot (hi hj : list Z) (r : hop_row) : option (Z * bool) :=
  let '(_, bra, ket, _) := r in
  let '(id_same, id_conj) := find_equiv_hopping hi hj bra ket in
  if negb (id_same =? -1) then Some (id_same, false)
  else if negb (id_conj =? -1) then Some (id_conj, true)
  else None.

Definition row_new (hi hj : list Z) (r : hop_row) : bool :=
  match row_slot hi hj r with None => true | Some _ => false end.

Definition row_bra (r : hop_row) : Z := let '(_, b, _, _) := r in b.
Definition row_ket (r : hop_row) : Z := let '(_, _, k, _) := r in k.
Definition row_eng (r : hop_row) : cplx := let '(_, _, _, e) := r in e.

(** the value a row stores in its slot *)
Definition hop_val (r : hop_row) (cj : bool) : cplx :=
  if cj then conjugate (row_eng r) else row_eng r.

Definition slot_update {A} (val : hop_row -> bool -> A) (hi hj : list Z)
    (v : list A) (r : hop_row) : list A :=
  match row_slot hi hj r with
  | Some (t, cj) => set_nth v (Z.to_nat t) (val r cj)
  | None => v
  end.

Lemma find_first_range : forall f hi hj k0,
  0 <= k0 -> find_first f hi hj k0 = -1 \/ k0 <= find_first f hi hj k0.
Proof.
  induction hi as [|x hi IH]; intros [|y hj] k0 H; cbn; auto.
  destruct (f x y); [right; lia|]. destruct (IH hj (k0 + 1) ltac:(lia)); auto.
  right. lia.
Qed.

Lemma row_slot_nonneg : forall hi hj r t cj,
  row_slot hi hj r = Some (t, cj) -> 0 <= t.
Proof.
  intros hi hj [[[rn b] k] e] t cj H. unfold row_slot, find_equiv_hopping in H.
  destruct (find_first_range (fun x y => (x =? b) && (y =? k)) hi hj 0 ltac:(lia)) as [E1|E1],
           (find_first_range (fun x y => (x =? k) && (y =? b)) hi hj 0 ltac:(lia)) as [E2|E2];
    try rewrite E1 in H; try rewrite E2 in H; cbn in H; try discriminate;
    repeat match type of H with
           | context [negb (?a =? -1)] => destruct (Z.eqb_spec a (-1)); cbn in H
           end; try discriminate; injection H as <- _; lia.
Qed.

Lemma nth_error_set_nth_eq : forall (A : Type) (l : list A) k x,
  (k < length l)%nat -> nth_error (set_nth l k x) k = Some x.
Proof.
  induction l as [|y l IH]; intros [|k] x H; cbn in *; try lia; auto.
  apply IH. lia.
Qed.

Lemma nth_error_set_nth_neq : forall (A : Type) (l : list A) k k' x,
  k <> k' -> nth_error (set_nth l k x) k' = nth_error l k'.
Proof.
  induction l as [|y l IH]; intros [|k] [|k'] x H; cbn; auto; try lia.
Qed.

Lemma slot_fold_length : forall (A : Type) val hi hj rows (v : list A),
  length (fold_left (slot_update val hi hj) rows v) = length v.
Proof.
  induction rows as [|r rows IH]; intros v; cbn; [reflexivity|].
  rewrite IH. unfold slot_update. destruct (row_slot hi hj r) as [[t cj]|];
    [apply length_set_nth | reflexivity].
Qed.

Lemma slot_fold_untouched : forall (A : Type) val hi hj rows (v : list A) k,
  (forall r cj, In r rows -> row_slot hi hj r <> Some (Z.of_nat k, cj)) ->
  nth_error (fold_left (slot_update val hi hj) rows v) k = nth_error v k.
Proof.
  induction rows as [|r rows IH]; intros v k H; cbn; [reflexivity|].
  rewrite IH by (intros r' cj Hr; apply H; right; exact Hr).
  unfold slot_update. destruct (row_slot hi hj r) as [[t cj]|] eqn:E; [|reflexivity].
  apply nth_error_set_nth_neq. pose proof (row_slot_nonneg _ _ _ _ _ E).
  intros Ek. apply (H r cj (or_introl eq_refl)). rewrite E. f_equal. f_equal. lia.
Qed.

Lemma slot_fold_last : forall (A : Type) val hi hj pre r post (v : list A) k cj,
  row_slot hi hj r = Some (Z.of_nat k, cj) -> (k < length v)%nat ->
  (forall r' cj', In r' post -> row_slot hi hj r' <> Some (Z.of_nat k, cj')) ->
  nth_error (fold_left (slot_update val hi hj) (pre ++ r :: post) v) k = Some (val r cj).
Proof.
  intros A val hi hj pre r post v k cj E Hk Hp.
  rewrite fold_left_app. cbn [fold_left]. rewrite slot_fold_untouched by exact Hp.
  unfold slot_update at 1. rewrite E, Nat2Z.id. apply nth_error_set_nth_eq.
  rewrite slot_fold_length. exact Hk.
Qed.

Lemma merge_step_split : forall hi hj v I J Vn r,
  merge_step hi hj (v, I, J, Vn) r =
  (slot_update hop_val hi hj v r,
   I ++ (if row_new hi hj r then [row_bra r] else []),
   J ++ (if row_new hi hj r then [row_ket r] else []),
   Vn ++ (if row_new hi hj r then [row_eng r] else [])).
Proof.
  intros hi hj v I J Vn [[[rn b] k] e].
  unfold merge_step, slot_update, row_new, row_slot, hop_val.
  destruct (find_equiv_hopping hi hj b k) as [s c].
  destruct (negb (s =? -1)); [|destruct (negb (c =? -1))]; cbn; rewrite ?app_nil_r; reflexivity.
Qed.

Lemma fold_merge_step_split : forall hi hj rows v I J Vn,
  fold_left (merge_step hi hj) rows (v, I, J, Vn) =
  (fold_left (slot_update hop_val hi hj) rows v,
   I ++ map row_bra (filter (row_new hi hj) rows),
   J ++ map row_ket (filter (row_new hi hj) rows),
   Vn ++ map row_eng (filter (row_new hi hj) rows)).
Proof.
  induction rows as [|r rows IH]; intros v I J Vn; cbn [fold_left filter map].
  - rewrite !app_nil_r. reflexivity.
  - rewrite merge_step_split, IH.
    destruct (row_new hi hj r); cbn; rewrite <- ?app_assoc; reflexivity.
Qed.

Lemma row_dr_err : forall (V : Type) vadd vsub (rn_vec : rn_type -> V) orb_pos r e,
  row_dr V vadd vsub rn_vec orb_pos r = inr e -> e = PyIndexError.
Proof.
  intros V vadd vsub rn_vec orb_pos [[[rn b] k] en] e H. unfold row_dr in H.
  destruct (np_getitem orb_pos k); [destruct (np_getitem orb_pos b)|];
    congruence.
Qed.

Lemma dr_merge_step_split : forall (V : Type) vadd vsub (vneg : V -> V) rn_vec orb_pos
    hi hj d dn r,
  dr_merge_step V vadd vsub vneg rn_vec orb_pos hi hj (d, dn) r =
  match row_dr V vadd vsub rn_vec orb_pos r with
  | inr e => inr e
  | inl x => inl (slot_update (fun _ cj => if cj then vneg x else x) hi hj d r,
                  dn ++ (if row_new hi hj r then [x] else []))
  end.
Proof.
  intros V vadd vsub vneg rn_vec orb_pos hi hj d dn [[[rn b] k] e].
  unfold dr_merge_step, slot_update, row_new, row_slot. cbv beta iota.
  destruct (row_dr V vadd vsub rn_vec orb_pos (rn, b, k, e)) as [x|err]; [|reflexivity].
  destruct (find_equiv_hopping hi hj b k) as [s c].
  destruct (negb (s =? -1)); [|destruct (negb (c =? -1))]; cbn; rewrite ?app_nil_r; reflexivity.
Qed.

Lemma fold_dr_merge_step_split : forall (V : Type) vadd vsub (vneg : V -> V) rn_vec orb_pos
    (f : hop_row -> V) hi hj rows d dn,
  (forall r, In r rows -> row_dr V vadd vsub rn_vec orb_pos r = inl (f r)) ->
  dr_merge_loop V vadd vsub vneg rn_vec orb_pos hi hj rows (d, dn) =
  inl (fold_left (slot_update (fun r cj => if cj then vneg (f r) else f r) hi hj) rows d,
       dn ++ map f (filter (row_new hi hj) rows)).
Proof.
  intros V vadd vsub vneg rn_vec orb_pos f hi hj.
  induction rows as [|r rows IH]; intros d dn Hf; cbn [dr_merge_loop fold_left filter map].
  - rewrite app_nil_r. reflexivity.
  - rewrite dr_merge_step_split, (Hf r (or_introl eq_refl)).
    rewrite IH by (intros r' Hr'; apply Hf; right; exact Hr').
    unfold row_new, slot_update at 1 3.
    destruct (row_slot hi hj r) as [[t cj]|]; cbn; rewrite <- ?app_assoc; reflexivity.
Qed.

Lemma dr_merge_loop_err : forall (V : Type) vadd vsub (vneg : V -> V) rn_vec orb_pos
    hi hj rows st,
  (exists r, In r rows /\ row_dr V vadd vsub rn_vec orb_pos r = inr PyIndexError) ->
  dr_merge_loop V vadd vsub vneg rn_vec orb_pos hi hj rows st = inr PyIndexError.
Proof.
  intros V vadd vsub vneg rn_vec orb_pos hi hj.
  induction rows as [|r rows IH]; intros [d dn] (r' & Hin & Hr'); [destruct Hin|].
  cbn [dr_merge_loop]. rewrite dr_merge_step_split.
  destruct (row_dr V vadd vsub rn_vec orb_pos r) as [x|e] eqn:E.
  - destruct Hin as [<-|Hin]; [congruence|].
    apply IH. exists r'. split; assumption.
  - rewrite (row_dr_err _ _ _ _ _ _ _ E). reflexivity.
Qed.

(** X11: the modifier loop of [get_hop] as a whole: the result keeps the
    raw [hop_i, hop_j] and appends, in modifier order, the rows that match
    no raw term (exactly or conjugated); [hop_v] keeps its length before the
    appended energies; a slot no row matches keeps its raw energy, and a
    matched slot holds the value of the last row that matches it (its
    energy, or the conjugate for a conjugate match). *)
Theorem apply_hop_modifier_loop : forall hi hj hv rows,
  let nm := filter (row_new hi hj) rows in
  exists hv',
    apply_hop_modifier hi hj hv rows
      = (hi ++ map row_bra nm, hj ++ map row_ket nm, hv' ++ map row_eng nm) /\
    length hv' = length hv /\
    (forall k, (forall r cj, In r rows -> row_slot hi hj r <> Some (Z.of_nat k, cj)) ->
       nth_error hv' k = nth_error hv k) /\
    (forall pre r post k cj, rows = pre ++ r :: post ->
       row_slot hi hj r = Some (Z.of_nat k, cj) -> (k < length hv)%nat ->
       (forall r' cj', In r' post -> row_slot hi hj r' <> Some (Z.of_nat k, cj')) ->
       nth_error hv' k = Some (hop_val r cj)).
Proof.
  intros hi hj hv rows nm. exists (fold_left (slot_update hop_val hi hj) rows hv).
  split; [|split; [|split]].
  - unfold apply_hop_modifier. rewrite fold_merge_step_split. reflexivity.
  - apply slot_fold_length.
  - intros k H. apply slot_fold_untouched. exact H.
  - intros pre r post k cj -> E Hk Hp. apply slot_fold_last; assumption.
Qed.

(** X12: the modifier loop of [get_dr] as a whole. Each row's
    displacement [orb_pos[ket] + rn - orb_pos[bra]] is computed first: if
    some row indexes outside [orb_pos], the loop raises [IndexError].
    Otherwise the result is the raw [dr] with its matched rows overwritten,
    followed by the displacements of the rows that match no raw term, in
    modifier order; a slot no row matches keeps its raw displacement and a
    matched slot holds that of the last row matching it, negated for a
    conjugate match. *)
Theorem apply_dr_modifier_loop : forall (V : Type) vadd vsub (vneg : V -> V)
    (rn_vec : rn_type -> V) (orb_pos : list V) hi hj dr rows,
  ((exists r, In r rows /\ row_dr V vadd vsub rn_vec orb_pos r = inr PyIndexError) ->
     apply_dr_modifier V vadd vsub vneg rn_vec orb_pos hi hj dr rows = inr PyIndexError) /\
  (forall f : hop_row -> V,
   (forall r, In r rows -> row_dr V vadd vsub rn_vec orb_pos r = inl (f r)) ->
   let nm := filter (row_new hi hj) rows in
   exists dr',
    apply_dr_modifier V vadd vsub vneg rn_vec orb_pos hi hj dr rows = inl (dr' ++ map f nm) /\
    length dr' = length dr /\
    (forall k, (forall r cj, In r rows -> row_slot hi hj r <> Some (Z.of_nat k, cj)) ->
       nth_error dr' k = nth_error dr k) /\
    (forall pre r post k cj, rows = pre ++ r :: post ->
       row_slot hi hj r = Some (Z.of_nat k, cj) -> (k < length dr)%nat ->
       (forall r' cj', In r' post -> row_slot hi hj r' <> Some (Z.of_nat k, cj')) ->
       nth_error dr' k = Some (if cj then vneg (f r) else f r))).
Proof.
  intros V vadd vsub vneg rn_vec orb_pos hi hj dr rows. split.
  - intros Herr. unfold apply_dr_modifier.
    rewrite dr_merge_loop_err by exact Herr. reflexivity.
  - intros f Hf nm.
    set (val := fun r (cj : bool) => if cj then vneg (f r) else f r).
    exists (fold_left (slot_update val hi hj) rows dr).
    split; [|split; [|split]].
    + unfold apply_dr_modifier. rewrite (fold_dr_merge_step_split _ _ _ _ _ _ f) by exact Hf.
      reflexivity.
    + apply slot_fold_length.
    + intros k H. apply slot_fold_untouched. exact H.
    + intros pre r post k cj -> E Hk Hp.
      exact (slot_fold_last _ val hi hj pre r post dr k cj E Hk Hp).
Qed.

(** ** SuperCell.trim *)

Lemma find_first_found : forall f hi hj k0,
  find_first f hi hj k0 <> -1 -> exists x y, In x hi /\ In y hj /\ f x y = true.
Proof.
  induction hi as [|x hi IH]; intros [|y hj] k0 H; cbn in H; try contradiction.
  destruct (f x y) eqn:E.
  - exists x, y. cbn. auto.
  - destruct (IH hj (k0 + 1) H) as (x' & y' & Hx & Hy & Hf).
    exists x', y'. cbn. auto.
Qed.

(** A modifier row that overwrites a raw term names two orbitals of it. *)
Lemma row_slot_endpoints : forall hi hj r t cj,
  row_slot hi hj r = Some (t, cj) ->
  (In (row_bra r) hi \/ In (row_bra r) hj) /\ (In (row_ket r) hi \/ In (row_ket r) hj).
Proof.
  intros hi hj [[[rn b] k] e] t cj H. unfold row_slot, find_equiv_hopping in H.
  cbn [row_bra row_ket].
  remember (find_first (fun x y => (x =? b) && (y =? k)) hi hj 0) as fs eqn:Efs.
  remember (find_first (fun x y => (x =? k) && (y =? b)) hi hj 0) as fc eqn:Efc.
  destruct (Z.eqb_spec fs (-1)) as [Es|Es]; cbn in H.
  - destruct (Z.eqb_spec fc (-1)) as [Ec|Ec]; cbn in H; [discriminate|].
    rewrite Efc in Ec. apply find_first_found in Ec as (x & y & Hx & Hy & Hf).
    apply andb_true_iff in Hf as [E1 E2]. apply Z.eqb_eq in E1, E2. subst.
    split; [right | left]; assumption.
  - rewrite Efs in Es. apply find_first_found in Es as (x & y & Hx & Hy & Hf).
    apply andb_true_iff in Hf as [E1 E2]. apply Z.eqb_eq in E1, E2. subst.
    split; [left | right]; assumption.
Qed.

(** Both orbitals of every modifier row occur in the merged arrays. *)
Lemma apply_hop_modifier_endpoints : forall hi0 hj0 hv0 rows r,
  In r rows ->
  let '(hi, hj, _) := apply_hop_modifier hi0 hj0 hv0 rows in
  (In (row_bra r) hi \/ In (row_bra r) hj) /\ (In (row_ket r) hi \/ In (row_ket r) hj).
Proof.
  intros hi0 hj0 hv0 rows r Hr. unfold apply_hop_modifier.
  rewrite fold_merge_step_split. cbn [app].
  destruct (row_slot hi0 hj0 r) as [[t cj]|] eqn:E.
  - destruct (row_slot_endpoints _ _ _ _ _ E) as [[A|A] [B|B]];
      split; solve [left; apply in_or_app; left; assumption
                   | right; apply in_or_app; left; assumption].
  - assert (Hn : In r (filter (row_new hi0 hj0) rows)).
    { apply filter_In. split; [exact Hr|]. unfold row_new. rewrite E. reflexivity. }
    split; [left | right]; apply in_or_app; right; apply in_map; exact Hn.
Qed.

Lemma get_hop_endpoints : forall hash u s r,
  In r (hop_modifier s) ->
  let '(hi, hj, _) := snd (get_hop hash u s) in
  (In (row_bra r) hi \/ In (row_bra r) hj) /\ (In (row_ket r) hi \/ In (row_ket r) hj).
Proof.
  intros hash u [o m opm] r Hr. cbn [hop_modifier] in Hr.
  unfold get_hop, set_orbset. cbn [sc_orbset hop_modifier orb_pos_modifier].
  match goal with
  | |- context [if ?b then init_hop_fast ?x else init_hop ?x] =>
      destruct (if b then init_hop_fast x else init_hop x) as [[hi0 hj0] hv0]
  end.
  destruct (ih_num_hop m =? 0)%nat eqn:E.
  - apply Nat.eqb_eq in E. unfold ih_num_hop in E.
    destruct m; [destruct Hr | discriminate].
  - apply apply_hop_modifier_endpoints. exact Hr.
Qed.

Lemma in_combine_seq : forall (A : Type) (l : list A) s k p,
  In (k, p) (combine (map Z.of_nat (seq s (length l))) l) ->
  exists i, k = Z.of_nat (s + i) /\ nth_error l i = Some p.
Proof.
  induction l as [|x l IH]; intros s k p H; cbn in H; [destruct H|].
  destruct H as [E|H].
  - injection E as <- <-. exists 0%nat. split; [f_equal; lia | reflexivity].
  - destruct (IH (S s) k p H) as [i [-> Hi]]. exists (S i).
    split; [f_equal; lia | exact Hi].
Qed.

(** An element of [get_orb_id_trim] is [orb_id_pc[k]] for an index [k]
    that occurs in neither array. *)
Lemma get_orb_id_trim_in : forall opc hi hj p,
  In p (get_orb_id_trim opc hi hj) ->
  exists i, nth_error opc i = Some p /\
    ~ In (Z.of_nat i) hi /\ ~ In (Z.of_nat i) hj.
Proof.
  intros opc hi hj p H. unfold get_orb_id_trim in H.
  apply in_map_iff in H as [[k q] [<- H]]. apply filter_In in H as [Hc Hf].
  unfold zrange in Hc. rewrite Nat2Z.id in Hc.
  destruct (in_combine_seq _ opc 0 k q Hc) as [i [-> Hi]]. exists i.
  cbn [fst Nat.add] in Hf. apply negb_true_iff, orb_false_iff in Hf as [F1 F2].
  split; [exact Hi|]. split; intros Hin; apply (mem_Z_iff _) in Hin; congruence.
Qed.

Lemma map_snd_combine : forall (A B : Type) (ks : list A) (l : list B),
  length ks = length l -> map snd (combine ks l) = l.
Proof.
  induction ks as [|k ks IH]; intros [|x l] H; cbn in *; try discriminate; auto.
  rewrite IH by lia. reflexivity.
Qed.

Lemma NoDup_map_filter : forall (A B : Type) (g : A -> B) f l,
  NoDup (map g l) -> NoDup (map g (filter f l)).
Proof.
  induction l as [|x l IH]; intros H; cbn; [constructor|].
  inversion H as [|? ? Hx Hl]; subst. destruct (f x); [|apply IH; exact Hl].
  cbn. constructor; [|apply IH; exact Hl].
  intros Hin. apply Hx. apply in_map_iff in Hin as [y [Ey Hy]].
  apply filter_In in Hy as [Hy _]. rewrite <- Ey. apply in_map. exact Hy.
Qed.

Lemma get_orb_id_trim_nodup : forall opc hi hj,
  NoDup opc -> NoDup (get_orb_id_trim opc hi hj).
Proof.
  intros opc hi hj H. unfold get_orb_id_trim. apply NoDup_map_filter.
  rewrite map_snd_combine; [exact H|]. unfold zrange.
  rewrite length_map, length_seq, Nat2Z.id. reflexivity.
Qed.

(** The loop of [add_vacancies] on a batch of legal, distinct, new
    vacancies appends the batch as it is. *)
Lemma add_vacancies_loop_fresh : forall vs s,
  NoDup vs -> (forall v, In v vs -> ~ In v (vacancy_list s)) ->
  Forall (fun v => check_id_pc s v = inl tt) vs ->
  add_vacancies_loop s vs = (set_vacancy_list s (vacancy_list s ++ vs), inl tt).
Proof.
  induction vs as [|v vs IH]; intros s Hn Hf Hv.
  - rewrite app_nil_r, set_vacancy_list_eta. reflexivity.
  - inversion Hn as [|? ? Hv0 Hn']; subst. inversion Hv as [|? ? Hc Hr]; subst.
    cbn [add_vacancies_loop]. rewrite Hc.
    destruct (id_pc_mem v (vacancy_list s)) eqn:Em.
    { apply id_pc_mem_iff in Em. exfalso. exact (Hf v (or_introl eq_refl) Em). }
    rewrite IH.
    + cbn [vacancy_list set_vacancy_list]. rewrite set_vacancy_list_twice, <- app_assoc.
      reflexivity.
    + exact Hn'.
    + intros w Hw Hin. cbn [vacancy_list set_vacancy_list] in Hin.
      apply in_app_or in Hin as [Hin|[<-|[]]]; [exact (Hf w (or_intror Hw) Hin)|].
      contradiction.
    + eapply Forall_impl; [|exact Hr]. intros w Hw. rewrite check_id_pc_set_vl. exact Hw.
Qed.

Lemma check_id_pc_array_ok : forall d n ids vac k,
  (forall p, In p ids -> In p (all_id_pc d n) /\
     match vac with Some v => id_pc_mem p v = false | None => True end) ->
  check_id_pc_array d n ids vac k = (0, 0, 0%nat).
Proof.
  intros d n ids vac. induction ids as [|p ids IH]; intros k H; [reflexivity|].
  cbn [check_id_pc_array].
  destruct (H p (or_introl eq_refl)) as [Hp Hv].
  apply in_all_id_pc in Hp as (a & b & c & o & -> & Ha & Hb & Hc & Ho). cbn [nth].
  rewrite (proj2 (in_range_spec a _) Ha), (proj2 (in_range_spec b _) Hb),
    (proj2 (in_range_spec c _) Hc), (proj2 (in_range_spec o _) Ho). cbn [negb].
  assert (Hr : forall q, In q ids -> In q (all_id_pc d n) /\
     match vac with Some v => id_pc_mem q v = false | None => True end)
    by (intros q Hq; apply H; right; exact Hq).
  destruct vac as [v|]; [rewrite Hv|]; apply IH; exact Hr.
Qed.

Lemma NoDup_all_id_pc : forall d n,
  0 <= rn_item d 0 -> 0 <= rn_item d 1 -> 0 <= rn_item d 2 -> 0 <= n ->
  NoDup (all_id_pc d n).
Proof.
  intros d n H0 H1 H2 Hn. apply (NoDup_map_inv (id_pc2sc_flat d n)).
  rewrite map_flat_all' by assumption. apply NoDup_zr.
Qed.

(** The arrays [sync_array()] leaves on a state as in
    [orb_id_sc2pc_numpy_index]. *)
Lemma synced_arrays : forall hash o L,
  orbset_wf o -> synced_with hash o L ->
  (hash (vacancy_list o) = hash L -> vacancy_list o = L) ->
  let o1 := sync_array hash false o in
  orb_id_pc o1 = filter (fun p => negb (id_pc_mem p (vacancy_list o)))
                        (all_id_pc (dim o) (num_orb_pc o)) /\
  (forall p, In p (orb_id_pc o1) ->
     match vac_id_pc o1 with Some v => id_pc_mem p v = false | None => True end) /\
  (forall i, 0 <= i < num_orb_sc o -> exists p,
     nth_error (orb_id_pc o1) (Z.to_nat i) = Some p /\
     id_pc2sc (dim o) (num_orb_pc o) p (vac_id_sc o1) = i) /\
  Z.of_nat (length (orb_id_pc o1)) = num_orb_sc o.
Proof.
  intros hash o L Hw Hs Hc o1.
  pose proof Hw as (H0 & H1 & H2 & Hn & Hnd & _).
  pose proof (wf_valid o Hw) as Hv.
  assert (E1 : o1 = sync_array hash true o) by exact (sync_false_forced hash o L Hs Hc).
  rewrite E1, sync_array_true.
  pose proof (derive_arrays_char (dim o) (num_orb_pc o) (vacancy_list o) Hnd Hv) as Hch.
  pose proof (derive_roundtrip (dim o) (num_orb_pc o) (vacancy_list o) H0 H1 H2 Hn Hnd Hv)
    as Hrt.
  pose proof (derive_length (dim o) (num_orb_pc o) (vacancy_list o) H0 H1 H2 Hn Hnd Hv)
    as Hlen.
  assert (Hvac : let '(vpc, _, _) := derive_arrays (dim o) (num_orb_pc o) (vacancy_list o) in
            match vpc with
            | Some v => forall p, In p v -> In p (vacancy_list o)
            | None => True end).
  { unfold derive_arrays. destruct (vacancy_list o) as [|v vl']; [exact I|].
    intros p Hp. unfold build_vac_id_sc in Hp. rewrite combine_map_self in Hp.
    apply in_map_iff in Hp as [[k q] [Eq Hq]]. cbn in Eq. subst q.
    apply (Permutation_in _ (sort_by_key_perm _ _)) in Hq.
    apply in_map_iff in Hq as [y [Ey Hy]]. injection Ey as _ <-. exact Hy. }
  destruct (derive_arrays _ _ _) as [[vpc vsc] opc]. destruct Hch as [Hopc _].
  cbn [orb_id_pc vac_id_pc vac_id_sc].
  unfold num_orb_sc, dim_item in *. split; [exact Hopc|]. split; [|split].
  - intros p Hp. destruct vpc as [v|]; [|exact I].
    destruct (id_pc_mem p v) eqn:Em; [|reflexivity].
    apply id_pc_mem_iff, Hvac in Em. rewrite Hopc in Hp.
    apply filter_In in Hp as [_ Hp]. apply id_pc_mem_iff in Em. rewrite Em in Hp.
    discriminate.
  - intros i Hi. destruct (Hrt i ltac:(lia)) as (p & Ep & _ & Eid).
    exists p. split; assumption.
  - lia.
Qed.

(** X13: [trim] on an unlocked supercell whose vacancy list is legal and
    whose arrays are synchronised (as in [orb_id_sc2pc_numpy_index])
    succeeds; it appends to the vacancy list, in increasing supercell
    index, the live orbitals that occur in neither [hop_i] nor [hop_j] of
    [get_hop()], so that [num_orb_sc] drops by their number; it leaves the
    hopping modifier as it is (both orbitals of every modifier row occur in
    [get_hop()]'s arrays, so [remove_orbitals] drops no row), and keeps the
    position modifier, the primitive cell, the dimension, the periodicity
    and the lock flag. *)
Theorem trim_removes_dangling : forall hash s L,
  is_locked (sc_orbset s) = false -> orbset_wf (sc_orbset s) ->
  synced_with hash (sc_orbset s) L ->
  (hash (vacancy_list (sc_orbset s)) = hash L -> vacancy_list (sc_orbset s) = L) ->
  let '(hop_i, hop_j, _) := snd (get_hop hash UseAuto s) in
  let dangling :=
    get_orb_id_trim (orb_id_pc (sync_array hash false (sc_orbset s))) hop_i hop_j in
  let '(s', r) := trim hash s in
  r = inl tt /\
  vacancy_list (sc_orbset s') = vacancy_list (sc_orbset s) ++ dangling /\
  num_orb_sc (sc_orbset s') = num_orb_sc (sc_orbset s) - Z.of_nat (length dangling) /\
  hop_modifier s' = hop_modifier s /\ orb_pos_modifier s' = orb_pos_modifier s /\
  prim_cell (sc_orbset s') = prim_cell (sc_orbset s) /\
  dim (sc_orbset s') = dim (sc_orbset s) /\ pbc (sc_orbset s') = pbc (sc_orbset s) /\
  is_locked (sc_orbset s') = false.
Proof.
  intros hash [o m opm] L Hl Hw Hs Hc.
  cbn [sc_orbset hop_modifier orb_pos_modifier] in *.
  pose proof (get_hop_state hash UseAuto (MkSuperCell o m opm)) as Hst.
  pose proof (get_hop_endpoints hash UseAuto (MkSuperCell o m opm)) as Hend.
  cbn [hop_modifier] in Hend.
  destruct (synced_arrays hash o L Hw Hs Hc) as (Hopc & Hnv & Hrt & Hlen).
  pose proof Hw as (H0 & H1 & H2 & Hn & Hnd & _).
  set (o1 := sync_array hash false o) in *.
  pose proof (sync_array_fields hash false o) as (Fv & Fp & Fd & Fb & Fl). fold o1 in Fv, Fp, Fd, Fb, Fl.
  assert (Fn : num_orb_pc o1 = num_orb_pc o) by (unfold num_orb_pc; rewrite Fp; reflexivity).
  unfold trim. cbn [sc_orbset]. rewrite Hl.
  destruct (get_hop hash UseAuto (MkSuperCell o m opm)) as [s1 [[hi hj] hv]] eqn:Eg.
  cbn [fst snd] in Hst, Hend |- *. subst s1.
  unfold sc_synced, set_orbset. cbn [sc_orbset hop_modifier orb_pos_modifier]. fold o1.
  set (D := get_orb_id_trim (orb_id_pc o1) hi hj).
  (* the dangling orbitals are live, distinct and legal *)
  assert (HD : forall p, In p D -> exists i, nth_error (orb_id_pc o1) i = Some p /\
             ~ In (Z.of_nat i) hi /\ ~ In (Z.of_nat i) hj)
    by (intros p Hp; apply get_orb_id_trim_in; exact Hp).
  assert (HDlive : forall p, In p D -> In p (orb_id_pc o1)).
  { intros p Hp. destruct (HD p Hp) as (i & Ei & _). eapply nth_error_In. exact Ei. }
  assert (HDall : forall p, In p D ->
            In p (all_id_pc (dim o) (num_orb_pc o)) /\ ~ In p (vacancy_list o)).
  { intros p Hp. apply HDlive in Hp as Hp'. rewrite Hopc in Hp'.
    apply filter_In in Hp' as [Ha Hm]. split; [exact Ha|].
    intros Hin. apply id_pc_mem_iff in Hin. rewrite Hin in Hm. discriminate. }
  assert (HDnd : NoDup D).
  { apply get_orb_id_trim_nodup. rewrite Hopc. apply NoDup_filter.
    apply NoDup_all_id_pc; assumption. }
  (* orb_id_pc2sc_array accepts the batch *)
  unfold orb_id_pc2sc_array.
  replace (sync_array hash false o1) with o1 by (unfold o1; symmetry; apply sync_array_idem).
  assert (Hshape : match D with [] => true | p :: _ => (length p =? 4)%nat end = true).
  { destruct D as [|p D'] eqn:ED; [reflexivity|].
    destruct (HDall p (or_introl eq_refl)) as [Hp _].
    apply in_all_id_pc in Hp as (a & b & c & q & -> & _). reflexivity. }
  rewrite Hshape. cbn [negb].
  rewrite check_id_pc_array_ok.
  2: { intros p Hp. rewrite Fd, Fn. split; [apply HDall; exact Hp|].
       apply Hnv, HDlive. exact Hp. }
  cbn [Z.eqb Pos.eqb].
  (* add_vacancies appends the batch *)
  rewrite (add_vacancies_after_loop hash D true false o1
             (set_vacancy_list o1 (vacancy_list o1 ++ D)) ltac:(rewrite Fl; exact Hl)).
  2: { apply add_vacancies_loop_fresh; [exact HDnd| |].
       - intros v Hv. rewrite Fv. apply HDall. exact Hv.
       - apply Forall_forall. intros v Hv. apply check_id_pc_all.
         rewrite Fd, Fn. apply HDall. exact Hv. }
  pose proof (sync_array_fields hash false (set_vacancy_list o1 (vacancy_list o1 ++ D)))
    as (Gv & Gp & Gd & Gb & Gl).
  cbn [vacancy_list prim_cell dim pbc is_locked set_vacancy_list] in Gv, Gp, Gd, Gb, Gl.
  unfold set_hop_modifier. cbn [sc_orbset hop_modifier orb_pos_modifier].
  split; [reflexivity|].
  split; [rewrite Gv, Fv; reflexivity|].
  split.
  { rewrite num_orb_sc_sync.
    replace (vacancy_list o1 ++ D) with (vacancy_list o1 ++ D) by reflexivity.
    rewrite num_orb_sc_append. unfold o1. rewrite num_orb_sc_sync. reflexivity. }
  split.
  { (* no modifier row touches a dangling orbital *)
    unfold ih_remove_orbitals.
    assert (Hkeep : forall r, In r m ->
              (fun r : hop_row => let '(_, i, j, _) := r in
                 negb (existsb (Z.eqb i)
                         (map (fun p => id_pc2sc (dim o1) (num_orb_pc o1) p (vac_id_sc o1)) D)
                       || existsb (Z.eqb j)
                         (map (fun p => id_pc2sc (dim o1) (num_orb_pc o1) p (vac_id_sc o1)) D)))
                r = true).
    { intros [[[rn i] j] e] Hr. specialize (Hend _ Hr). cbn [row_bra row_ket] in Hend.
      rewrite Fd, Fn.
      assert (Hnot : forall x, In x hi \/ In x hj ->
                existsb (Z.eqb x) (map (fun p => id_pc2sc (dim o) (num_orb_pc o) p
                                                   (vac_id_sc o1)) D) = false).
      { intros x Hx. destruct (existsb _ _) eqn:Ex; [|reflexivity]. exfalso.
        apply mem_Z_iff, in_map_iff in Ex as [p [Ep Hp]].
        destruct (HD p Hp) as (k & Ek & Nk1 & Nk2).
        assert (Hk : 0 <= Z.of_nat k < num_orb_sc o).
        { assert (Hk' : (k < length (orb_id_pc o1))%nat)
            by (apply nth_error_Some; rewrite Ek; discriminate). lia. }
        destruct (Hrt (Z.of_nat k) Hk) as (q & Eq & Eid).
        rewrite Nat2Z.id, Ek in Eq. injection Eq as <-.
        rewrite Eid in Ep. subst x. destruct Hx; contradiction. }
      rewrite (Hnot i), (Hnot j) by tauto. reflexivity. }
    clear -Hkeep. induction m as [|r m IH]; [reflexivity|].
    cbn [filter]. rewrite (Hkeep r (or_introl eq_refl)). f_equal.
    apply IH. intros r' Hr'. apply Hkeep. right. exact Hr'. }
  split; [reflexivity|].
  rewrite Gp, Gd, Gb, Gl, Fp, Fd, Fb, Fl. repeat split. exact Hl.
Qed.

(** An open chain of four cells with the second one vacant: the first
    orbital is left without any hopping, and a modifier row overwrites the
    hopping between the last two. *)
Definition open_set : OrbitalSet :=
  MkOrbitalSet pc_chain (4, 1, 1) (false, false, false) [] (hash_len [])
    None None (all_id_pc (4, 1, 1) 1) false.

Definition trim_sc : SuperCell :=
  MkSuperCell (set_vacancy_list open_set [[1; 0; 0; 0]])
    [((0, 0, 0), 1, 2, Cplx 2 0)] None.

Lemma trim_removes_dangling_witness :
  is_locked (sc_orbset trim_sc) = false /\ orbset_wf (sc_orbset trim_sc) /\
  synced_with hash_len (sc_orbset trim_sc) [] /\
  (hash_len (vacancy_list (sc_orbset trim_sc)) = hash_len [] ->
     vacancy_list (sc_orbset trim_sc) = []) /\
  let '(hop_i, hop_j, _) := snd (get_hop hash_len UseAuto trim_sc) in
  let dangling :=
    get_orb_id_trim (orb_id_pc (sync_array hash_len false (sc_orbset trim_sc)))
      hop_i hop_j in
  let '(s', r) := trim hash_len trim_sc in
  r = inl tt /\
  vacancy_list (sc_orbset s') = vacancy_list (sc_orbset trim_sc) ++ dangling /\
  num_orb_sc (sc_orbset s') = num_orb_sc (sc_orbset trim_sc) - Z.of_nat (length dangling) /\
  hop_modifier s' = hop_modifier trim_sc /\
  orb_pos_modifier s' = orb_pos_modifier trim_sc /\
  prim_cell (sc_orbset s') = prim_cell (sc_orbset trim_sc) /\
  dim (sc_orbset s') = dim (sc_orbset trim_sc) /\
  pbc (sc_orbset s') = pbc (sc_orbset trim_sc) /\
  is_locked (sc_orbset s') = false.
Proof.
  assert (H0 : is_locked (sc_orbset trim_sc) = false) by reflexivity.
  assert (H1 : orbset_wf (sc_orbset trim_sc)).
  { unfold orbset_wf; cbn. repeat split; try lia.
    - constructor; [intros [] | constructor].
    - repeat constructor. }
  assert (H2 : synced_with hash_len (sc_orbset trim_sc) []) by (split; reflexivity).
  assert (H3 : hash_len (vacancy_list (sc_orbset trim_sc)) = hash_len [] ->
               vacancy_list (sc_orbset trim_sc) = []) by (intros H; discriminate H).
  split; [exact H0|]. split; [exact H1|]. split; [exact H2|]. split; [exact H3|].
  exact (trim_removes_dangling hash_len trim_sc [] H0 H1 H2 H3).
Defined.
